(** * vtkThreadedCallbackQueue: a model of the threaded callback queue

    The development follows [vtkThreadedCallbackQueue.cxx].  A queue object
    owns a FIFO of invokers, a vector of [std::thread] handles, the desired
    number of threads and the [Running]/[Destroying] flags.  Worker threads
    run [ThreadWorker::operator()]; the administrative member functions
    ([Start], [Stop], [SetNumberOfThreads]) run on one administrative
    thread at a time: the single worker of the private controller, or the
    caller when the object has no controller.  The destructor runs on the
    thread that destroys the object: it first releases the controller,
    which is a wait for that worker to return, and from then on it is the
    only administrative thread.

    The model is an interleaving semantics.  Everything a worker does
    between locking and unlocking [Mutex] is one atomic step; every action
    of the administrative thread (a lock, an unlock, a store, a
    notification, a join, a resize, a thread creation) is one atomic step.
    The source calls [NumberOfThreads] a shared atomic, and [Running] is
    taken to be one too, so the two stores that the administrative thread
    makes without the mutex are single steps as well.  An invoker is taken
    to return and not to call the queue that runs it. *)

From Stdlib Require Import Ascii String.
From stdpp Require Import base numbers list strings pretty.

Local Open Scope Z_scope.

(** ** Machine integers *)

(** [static_cast<int>(x)] on a two's complement machine with 32-bit [int]. *)
Definition to_int (x : Z) : Z := (x + 2 ^ 31) `mod` 2 ^ 32 - 2 ^ 31.

(** Arithmetic on [std::size_t] (64 bits) wraps around. *)
Definition to_size_t (x : Z) : Z := x `mod` 2 ^ 64.

(** ** Threads and the queue object *)

Section Queue.

Context {Invoker : Type}.

(** Where a thread running [ThreadWorker::operator()] stands. *)
Inductive WorkerState : Type :=
  | Ready                    (* about to call [Pop] and lock the mutex *)
  | Waiting                  (* inside [ConditionVariable.wait], not notified *)
  | Notified                 (* woken up, has to relock and test the predicate *)
  | Invoking (inv : Invoker) (* running the popped invoker, mutex released *)
  | Returned.                (* [operator()] returned: finished, not yet joined *)

(** A [std::thread] handle of the [Threads] vector. *)
Inductive thread : Type :=
  | NotJoinable                                (* default-constructed, or joined *)
  | Joinable (ThreadId : Z) (st : WorkerState). (* runs [ThreadWorker(this, ThreadId)] *)

Record vtkThreadedCallbackQueue : Type := mkQueue {
  InvokerQueue : list Invoker;
  Locked : bool;              (* [Mutex] is held by the administrative thread *)
  Empty : bool;
  Destroying : bool;
  Running : bool;
  NumberOfThreads : Z;
  Threads : list thread;
}.

Definition set_InvokerQueue (v : list Invoker) (q : vtkThreadedCallbackQueue) :=
  mkQueue v (Locked q) (Empty q) (Destroying q) (Running q) (NumberOfThreads q) (Threads q).
Definition set_Locked (v : bool) (q : vtkThreadedCallbackQueue) :=
  mkQueue (InvokerQueue q) v (Empty q) (Destroying q) (Running q) (NumberOfThreads q) (Threads q).
Definition set_Empty (v : bool) (q : vtkThreadedCallbackQueue) :=
  mkQueue (InvokerQueue q) (Locked q) v (Destroying q) (Running q) (NumberOfThreads q) (Threads q).
Definition set_Destroying (v : bool) (q : vtkThreadedCallbackQueue) :=
  mkQueue (InvokerQueue q) (Locked q) (Empty q) v (Running q) (NumberOfThreads q) (Threads q).
Definition set_Running (v : bool) (q : vtkThreadedCallbackQueue) :=
  mkQueue (InvokerQueue q) (Locked q) (Empty q) (Destroying q) v (NumberOfThreads q) (Threads q).
Definition set_NumberOfThreads (v : Z) (q : vtkThreadedCallbackQueue) :=
  mkQueue (InvokerQueue q) (Locked q) (Empty q) (Destroying q) (Running q) v (Threads q).
Definition set_Threads (v : list thread) (q : vtkThreadedCallbackQueue) :=
  mkQueue (InvokerQueue q) (Locked q) (Empty q) (Destroying q) (Running q) (NumberOfThreads q) v.

(** [std::queue::empty]. *)
Definition empty (l : list Invoker) : bool :=
  match l with [] => true | _ :: _ => false end.

(** ** ThreadWorker *)

(** [ThreadWorker::OnHold]. *)
Definition OnHold (ThreadId : Z) (q : vtkThreadedCallbackQueue) : bool :=
  (ThreadId <? NumberOfThreads q) && negb (Destroying q) && Running q
  && empty (InvokerQueue q).

(** [ThreadWorker::Continue]. *)
Definition Continue (ThreadId : Z) (q : vtkThreadedCallbackQueue) : bool :=
  (ThreadId <? NumberOfThreads q) && Running q && negb (empty (InvokerQueue q)).

(** What one pass through the locked part of [ThreadWorker::Pop] does. *)
Inductive PopResult : Type :=
  | PopWaits                 (* [OnHold]: the thread sleeps in [wait] *)
  | PopFalse                 (* [return false] *)
  | PopTrue (invoker : Invoker) (q' : vtkThreadedCallbackQueue).
                             (* popped [invoker]; runs it and returns true *)

(** [ThreadWorker::Pop], from locking the mutex to unlocking it.  The
    predicate of [wait] is tested with the mutex held, so a thread that is
    woken up goes through the same tests again. *)
Definition Pop (ThreadId : Z) (q : vtkThreadedCallbackQueue) : PopResult :=
  if OnHold ThreadId q then PopWaits
  else if negb (Continue ThreadId q) then PopFalse
  else
    match InvokerQueue q with
    | invoker :: rest => PopTrue invoker (set_Empty (empty rest) (set_InvokerQueue rest q))
    | [] => PopFalse (* [front()] of an empty queue: excluded by [Continue] *)
    end.

(** One step of a thread running [ThreadWorker::operator()], the loop
    [while (this->Pop());].  The result is the new state of the thread, the
    new state of the queue and the invoker whose execution starts, if any.
    [None]: the thread cannot move (it sleeps, it has finished, or the
    mutex is taken). *)
Definition ThreadWorker_step (ThreadId : Z) (st : WorkerState)
    (q : vtkThreadedCallbackQueue)
  : option (WorkerState * vtkThreadedCallbackQueue * list Invoker) :=
  match st with
  | Ready | Notified =>
      if Locked q then None
      else
        match Pop ThreadId q with
        | PopWaits => Some (Waiting, q, [])
        | PopFalse => Some (Returned, q, [])
        | PopTrue invoker q' => Some (Invoking invoker, q', [invoker])
        end
  | Invoking _ => Some (Ready, q, [])
  | Waiting | Returned => None
  end.

(** ** Actions of the administrative thread *)

Inductive Action : Type :=
  | ALock                            (* [std::lock_guard lock(this->Mutex)] *)
  | AUnlock                          (* end of the guard's scope *)
  | AStoreRunning (b : bool)         (* [this->Running = b] *)
  | AStoreDestroying (b : bool)      (* [this->Destroying = b] *)
  | AStoreNumberOfThreads (n : Z)    (* [this->NumberOfThreads = n] *)
  | ANotifyAll                       (* [this->ConditionVariable.notify_all()] *)
  | AJoin (pos : nat)                (* [this->Threads[pos].join()] *)
  | AResize (n : Z)                  (* [this->Threads.resize(n)] *)
  | APushBack (ThreadId : Z)         (* [push_back(std::thread(ThreadWorker(this, ThreadId)))] *)
  | AAssign (pos : nat) (ThreadId : Z) (* [Threads[pos] = std::thread(ThreadWorker(this, ThreadId))] *)
  | AUndefined.                      (* undefined behaviour *)

Inductive Outcome : Type :=
  | Steps (q' : vtkThreadedCallbackQueue)
  | Blocks     (* the action has to wait *)
  | Fails.     (* exception, [std::terminate] or undefined behaviour *)

Definition joinable (t : thread) : bool :=
  match t with NotJoinable => false | Joinable _ _ => true end.

(** [notify_all] wakes every thread sleeping on the condition variable. *)
Definition notify (t : thread) : thread :=
  match t with
  | Joinable ThreadId Waiting => Joinable ThreadId Notified
  | _ => t
  end.

Definition exec (a : Action) (q : vtkThreadedCallbackQueue) : Outcome :=
  match a with
  | ALock => if Locked q then Blocks else Steps (set_Locked true q)
  | AUnlock => Steps (set_Locked false q)
  | AStoreRunning b => Steps (set_Running b q)
  | AStoreDestroying b => Steps (set_Destroying b q)
  | AStoreNumberOfThreads n => Steps (set_NumberOfThreads n q)
  | ANotifyAll => Steps (set_Threads (notify <$> Threads q) q)
  | AJoin pos =>
      match Threads q !! pos with
      | Some (Joinable _ Returned) => Steps (set_Threads (<[pos := NotJoinable]> (Threads q)) q)
      | Some (Joinable _ _) => Blocks
      | Some NotJoinable => Fails       (* [std::system_error] *)
      | None => Fails
      end
  | AResize n =>
      if n <? 0 then Fails              (* converted to a huge [size_t]: [std::length_error] *)
      else if forallb (λ t, negb (joinable t)) (drop (Z.to_nat n) (Threads q))
      then Steps (set_Threads (resize (Z.to_nat n) NotJoinable (Threads q)) q)
      else Fails                        (* destroying a joinable thread: [std::terminate] *)
  | APushBack ThreadId => Steps (set_Threads (Threads q ++ [Joinable ThreadId Ready]) q)
  | AAssign pos ThreadId =>
      match Threads q !! pos with
      | Some NotJoinable => Steps (set_Threads (<[pos := Joinable ThreadId Ready]> (Threads q)) q)
      | Some (Joinable _ _) => Fails    (* assigning to a joinable thread: [std::terminate] *)
      | None => Fails
      end
  | AUndefined => Fails
  end.

End Queue.

Arguments WorkerState : clear implicits.
Arguments thread : clear implicits.
Arguments vtkThreadedCallbackQueue : clear implicits.
Arguments PopResult : clear implicits.
Arguments Outcome : clear implicits.

(** ** Administrative member functions

    Each function below gives the actions its body performs, in program
    order, as a function of the state of the queue on entry.  [Running],
    [NumberOfThreads] and [Threads] are written by the administrative
    thread only, so what the body reads later is what it read on entry,
    updated by its own stores. *)

Section Administration.

Context {Invoker : Type}.
Local Abbreviation Queue := (vtkThreadedCallbackQueue Invoker).

(** [Threads.size()]. *)
Definition Threads_size (q : Queue) : Z := Z.of_nat (length (Threads q)).

(** [vtkThreadedCallbackQueue::Sync(startId)]: joins [Threads.begin() +
    startId] up to [Threads.end()]. *)
Definition Sync (startId : Z) (q : Queue) : list Action :=
  if (0 <=? startId) && (startId <=? Threads_size q)
  then AJoin <$> seq (Z.to_nat startId) (length (Threads q) - Z.to_nat startId)
  else [AUndefined].

(** Modelled from the spec: the default value of [startId] in the calls
    [this->Sync()] is given in the class declaration, which is not among
    the sources.  [Stop] and the destructor join every worker thread
    (section 4.3), so it is 0. *)
Definition Sync_default : Z := 0.

(** The [std::generate_n] over a [std::back_inserter] of
    [SetNumberOfThreads]: the generator runs before the [push_back] of its
    result, so it reads the size the vector has before that element is
    added, [cur]. *)
Fixpoint generate_n (count : nat) (cur : Z) : list Action :=
  match count with
  | O => []
  | S count' => APushBack (to_int (to_size_t (cur - 1))) :: generate_n count' (cur + 1)
  end.

(** The body of [vtkThreadedCallbackQueue::SetNumberOfThreads]. *)
Definition SetNumberOfThreads_body (numberOfThreads : Z) (q : Queue) : list Action :=
  let size := to_int (Threads_size q) in
  if size =? numberOfThreads then []
  else
    (if (size <? numberOfThreads) || negb (Running q)
     then [AStoreNumberOfThreads numberOfThreads]
     else [ALock; AStoreNumberOfThreads numberOfThreads; AUnlock])
    ++
    (if negb (Running q) then [AResize numberOfThreads]
     else if size <? numberOfThreads
     then generate_n (Z.to_nat (numberOfThreads - size)) (Threads_size q)
     else [ANotifyAll] ++ Sync numberOfThreads q ++ [AResize numberOfThreads]).

(** The body of [vtkThreadedCallbackQueue::Stop]. *)
Definition Stop_body (q : Queue) : list Action :=
  if negb (Running q) then []
  else [ALock; AStoreRunning false; AUnlock; ANotifyAll] ++ Sync Sync_default q.

(** The [std::generate] of [Start]: [threadId] starts at -1 and is
    incremented before each thread is made. *)
Fixpoint generate (pos : nat) (count : nat) (threadId : Z) : list Action :=
  match count with
  | O => []
  | S count' => AAssign pos (threadId + 1) :: generate (S pos) count' (threadId + 1)
  end.

(** The body of [vtkThreadedCallbackQueue::Start]. *)
Definition Start_body (q : Queue) : list Action :=
  if Running q then []
  else AStoreRunning true :: generate 0 (length (Threads q)) (-1).

(** The statements of the destructor that follow [this->Controller =
    nullptr]: [if (this->Running) { ... }].  The release of the controller
    itself is [release_Controller] below, and the whole destructor is
    [Destructor_body]. *)
Definition Destructor_actions (q : Queue) : list Action :=
  if Running q
  then [ALock; AStoreDestroying true; AUnlock; ANotifyAll] ++ Sync Sync_default q
  else [].

(** The member initialisers of the constructor.  [Threads(NumberOfThreads)]
    makes as many default-constructed handles as [NumberOfThreads], which
    has been given the value 1 (the members are taken to be declared in the
    order of the initialisers). *)
Definition initial : Queue :=
  {| InvokerQueue := []; Locked := false; Empty := true; Destroying := false;
     Running := false; NumberOfThreads := 1;
     Threads := replicate (Z.to_nat 1) NotJoinable |}.

(** Modelled from the spec: [vtkThreadedCallbackQueue::Push] (the
    submission of section 4.1) is defined in a file that is not among the
    sources.  It appends the invoker at the tail of the queue under the
    mutex, updates the empty flag and signals one waiting worker, here the
    one whose handle is at [wake], if that one is waiting. *)
Definition Push (invoker : Invoker) (wake : nat) (q : Queue) : Queue :=
  let q' := set_Empty false (set_InvokerQueue (InvokerQueue q ++ [invoker]) q) in
  match Threads q !! wake with
  | Some (Joinable ThreadId Waiting) =>
      set_Threads (<[wake := Joinable ThreadId Notified]> (Threads q)) q'
  | _ => q'
  end.

(** Runs the actions one after the other, with no other thread moving in
    between.  [None]: an action fails or has to wait. *)
Fixpoint run (actions : list Action) (q : Queue) : option Queue :=
  match actions with
  | [] => Some q
  | a :: rest =>
      match exec a q with
      | Steps q' => run rest q'
      | Blocks | Fails => None
      end
  end.

End Administration.

(** ** The controller and the routing of administrative calls *)

(** The three closures that the administrative member functions hand to
    [Execute]. *)
Inductive Task : Type :=
  | TaskSetNumberOfThreads (numberOfThreads : Z)
  | TaskStop
  | TaskStart.

Definition Task_body {Invoker} (f : Task) (this : vtkThreadedCallbackQueue Invoker)
  : list Action :=
  match f with
  | TaskSetNumberOfThreads numberOfThreads => SetNumberOfThreads_body numberOfThreads this
  | TaskStop => Stop_body this
  | TaskStart => Start_body this
  end.

(** [vtkInternalController] is a queue built by the constructor that is
    given [nullptr]: it has no controller of its own, and the invokers of
    its queue are the tasks of the object that owns it. *)
Definition vtkInternalController : Type := vtkThreadedCallbackQueue Task.

(** A queue object: its members and its [Controller] pointer. *)
Record Object (Invoker : Type) : Type := mkObject {
  Members : vtkThreadedCallbackQueue Invoker;
  Controller : option vtkInternalController;
}.
Arguments mkObject {Invoker}.
Arguments Members {Invoker}.
Arguments Controller {Invoker}.

(** [Execute(controller, f)]: with a controller, [f] is pushed on the
    controller's queue ([wake] is the worker the push signals) and the
    caller itself does nothing on [this]; without one, [f] is called on the
    spot and the caller performs its actions. *)
Definition Execute {Invoker} (controller : option vtkInternalController) (f : Task)
    (wake : nat) (this : vtkThreadedCallbackQueue Invoker)
  : option vtkInternalController * list Action :=
  match controller with
  | Some c => (Some (Push f wake c), [])
  | None => (None, Task_body f this)
  end.

Definition SetNumberOfThreads {Invoker} (numberOfThreads : Z) (wake : nat) (o : Object Invoker) :=
  Execute (Controller o) (TaskSetNumberOfThreads numberOfThreads) wake (Members o).
Definition Stop {Invoker} (wake : nat) (o : Object Invoker) :=
  Execute (Controller o) TaskStop wake (Members o).
Definition Start {Invoker} (wake : nat) (o : Object Invoker) :=
  Execute (Controller o) TaskStart wake (Members o).

(** A member function called on an object that has no controller, with no
    other thread moving meanwhile. *)
Definition call {Invoker} (f : Task) (this : vtkThreadedCallbackQueue Invoker)
  : option (vtkThreadedCallbackQueue Invoker) :=
  run (snd (Execute None f 0%nat this)) this.

(** [vtkThreadedCallbackQueue(vtkSmartPointer<vtkInternalController>&&)]. *)
Definition construct {Invoker} (controller : option vtkInternalController)
  : option (Object Invoker) :=
  let this := initial in
  match controller with
  | Some c =>
      c1 ← call (TaskSetNumberOfThreads 1) c;
      c2 ← call TaskStart c1;
      Some (mkObject this (Some c2))
  | None => Some (mkObject this None)
  end.

(** [vtkInternalController()]: the constructor above with [nullptr]. *)
Definition vtkInternalController_new : option (Object Task) := construct None.

(** [vtkThreadedCallbackQueue()]: the constructor above with a new
    controller. *)
Definition vtkThreadedCallbackQueue_new {Invoker} : option (Object Invoker) :=
  c ← vtkInternalController_new;
  construct (Some (Members c)).

(** ** PrintSelf *)

Definition endl : string := String "010"%char EmptyString.

(** [vtkThreadedCallbackQueue::PrintSelf]: what is written to [os] and the
    queue afterwards.  [super] is the text written by the superclass and
    [indent] the text of the indentation, both defined outside this file.
    [None]: the mutex is taken and the call has to wait. *)
Definition PrintSelf {Invoker} (super indent : string) (os : string)
    (this : vtkThreadedCallbackQueue Invoker)
  : option (string * vtkThreadedCallbackQueue Invoker) :=
  let os := os +:+ super in
  if Locked this then None
  else
    let this := set_Locked true this in
    let os := os +:+ indent +:+ "Threads: " +:+ pretty (NumberOfThreads this) +:+ endl in
    let os := os +:+ indent +:+ "Callback queue size: "
                 +:+ pretty (length (InvokerQueue this)) +:+ endl in
    let os := os +:+ indent +:+ "Queue is" +:+ (if Running this then " not" else "")
                 +:+ " running" +:+ endl in
    Some (os, set_Locked false this).

(** ** Interleaving semantics *)

Section Semantics.

Context {Invoker : Type}.
Local Abbreviation Queue := (vtkThreadedCallbackQueue Invoker).

(** A call on the members of the queue: one of the three member
    functions, taken up by the administrative thread, or the destructor. *)
Inductive Call : Type :=
  | CallTask (f : Task)
  | CallDestructor.

(** The actions of a call on the members of the queue: the body of the
    member function, and for the destructor the statements that follow
    the release of the controller. *)
Definition Call_body (c : Call) (this : Queue) : list Action :=
  match c with
  | CallTask f => Task_body f this
  | CallDestructor => Destructor_actions this
  end.

(** The queue, the actions that the administrative call in progress still
    has to perform, and the invokers whose execution has started, oldest
    first. *)
Record World : Type := mkWorld {
  Q : Queue;
  Admin : list Action;
  Invoked : list Invoker;
}.

Inductive Label : Type :=
  | LWorker (pos : nat)     (* the thread of [Threads[pos]] moves *)
  | LSpurious (pos : nat)   (* the thread of [Threads[pos]] wakes up unnotified *)
  | LPush (invoker : Invoker) (wake : nat) (* some thread submits an invoker *)
  | LAdmin                  (* the administrative thread performs its next action *)
  | LCall (c : Call).       (* a call begins on the members of the queue *)

Definition waiting (t : thread Invoker) : bool :=
  match t with Joinable _ Waiting => true | _ => false end.

Definition set_thread (pos : nat) (t : thread Invoker) (q : Queue) : Queue :=
  set_Threads (<[pos := t]> (Threads q)) q.

(** [this->Controller = nullptr], the first statement of the destructor.
    The controller is a queue of its own with one worker thread, and that
    thread is the one that performs the calls [Start], [Stop] and
    [SetNumberOfThreads] made on this queue, one after the other.  When the
    last reference to the controller goes, the controller is destroyed:
    its destructor joins its worker thread, and that thread returns only
    when it has come to the end of every call handed to it.  So the thread
    that destroys the queue waits here as long as a call is in progress,
    for ever if that call never returns; the members of the queue are not
    touched.  (A queue that has no controller performs its calls on the
    thread of the caller, and is destroyed when none is in progress.)
    [None]: the release has to wait. *)
Definition release_Controller (w : World) : option World :=
  match Admin w with
  | [] => Some w
  | _ :: _ => None
  end.

(** [vtkThreadedCallbackQueue::~vtkThreadedCallbackQueue]: the controller
    is released, and then the thread that destroys the queue has the
    actions of [if (this->Running) { ... }] to perform, with [Running] as
    it is read at that moment. *)
Definition Destructor_body (w : World) : option World :=
  match release_Controller w with
  | Some w' => Some (mkWorld (Q w') (Destructor_actions (Q w')) (Invoked w'))
  | None => None
  end.

Definition step (l : Label) (w : World) : option World :=
  match l with
  | LWorker pos =>
      match Threads (Q w) !! pos with
      | Some (Joinable ThreadId st) =>
          match ThreadWorker_step ThreadId st (Q w) with
          | Some (st', q', invs) =>
              Some (mkWorld (set_thread pos (Joinable ThreadId st') q') (Admin w)
                            (Invoked w ++ invs))
          | None => None
          end
      | _ => None
      end
  | LSpurious pos =>
      match Threads (Q w) !! pos with
      | Some (Joinable ThreadId Waiting) =>
          Some (mkWorld (set_thread pos (Joinable ThreadId Notified) (Q w)) (Admin w)
                        (Invoked w))
      | _ => None
      end
  | LPush invoker wake =>
      (* [notify_one] wakes a sleeping thread when there is one *)
      if Locked (Q w) then None
      else if existsb waiting (Threads (Q w))
              && negb (from_option waiting false (Threads (Q w) !! wake))
      then None
      else Some (mkWorld (Push invoker wake (Q w)) (Admin w) (Invoked w))
  | LAdmin =>
      match Admin w with
      | a :: rest =>
          match exec a (Q w) with
          | Steps q' => Some (mkWorld q' rest (Invoked w))
          | Blocks | Fails => None
          end
      | [] => None
      end
  | LCall (CallTask f) =>
      (* the worker thread of the controller takes the next call when the
         call before has returned *)
      match Admin w with
      | [] => Some (mkWorld (Q w) (Task_body f (Q w)) (Invoked w))
      | _ :: _ => None
      end
  | LCall CallDestructor => Destructor_body w
  end.

Fixpoint steps (ls : list Label) (w : World) : option World :=
  match ls with
  | [] => Some w
  | l :: ls' =>
      match step l w with
      | Some w' => steps ls' w'
      | None => None
      end
  end.

(** Steps of the threads of the queue itself: no submission, no new call. *)
Definition internal (l : Label) : bool :=
  match l with
  | LWorker _ | LSpurious _ | LAdmin => true
  | LPush _ _ | LCall _ => false
  end.

End Semantics.

Arguments World : clear implicits.
Arguments Label : clear implicits.

(** ** Measures and predicates used in the proofs *)

(** Whether an action stores to [Running] or [Destroying]. *)
Definition stores_flag (a : Action) : bool :=
  match a with
  | AStoreRunning _ | AStoreDestroying _ => true
  | _ => false
  end.

Section Auxiliary.

Context {Invoker : Type}.
Local Abbreviation Queue := (vtkThreadedCallbackQueue Invoker).

(** The empty flag says what [InvokerQueue.empty()] says. *)
Definition Empty_agrees (w : World Invoker) : Prop :=
  Empty (Q w) = empty (InvokerQueue (Q w)).

(** The members that only the administrative thread writes, with the
    number of thread handles. *)
Record AdminFields : Type := mkFields {
  fRunning : bool;
  fDestroying : bool;
  fNumberOfThreads : Z;
  fSize : nat;
}.

Definition fields (q : Queue) : AdminFields :=
  mkFields (Running q) (Destroying q) (NumberOfThreads q) (length (Threads q)).

(** What an action that succeeds does to these members. *)
Definition store (v : AdminFields) (a : Action) : AdminFields :=
  match a with
  | AStoreRunning b => mkFields b (fDestroying v) (fNumberOfThreads v) (fSize v)
  | AStoreDestroying b => mkFields (fRunning v) b (fNumberOfThreads v) (fSize v)
  | AStoreNumberOfThreads n => mkFields (fRunning v) (fDestroying v) n (fSize v)
  | AResize n => mkFields (fRunning v) (fDestroying v) (fNumberOfThreads v) (Z.to_nat n)
  | APushBack _ => mkFields (fRunning v) (fDestroying v) (fNumberOfThreads v) (S (fSize v))
  | _ => v
  end.

Definition is_call (l : Label Invoker) : bool :=
  match l with LCall _ => true | _ => false end.

(** The pool is stopped or being destroyed: no thread is on hold. *)
Definition halted (q : Queue) : bool := negb (Running q) || Destroying q.

(** How many steps a thread may still take when the pool is halted and
    the queue is empty. *)
Definition thread_weight (t : thread Invoker) : nat :=
  match t with
  | NotJoinable | Joinable _ Returned => 0
  | Joinable _ Ready | Joinable _ Notified => 1
  | Joinable _ Waiting | Joinable _ (Invoking _) => 2
  end.

Definition action_weight (a : Action) : nat :=
  match a with
  | APushBack _ | AAssign _ _ => 2
  | _ => 1
  end.

(** A bound on the number of steps that the threads of a halted pool can
    take. *)
Definition measure (w : World Invoker) : nat :=
  sum_list_with action_weight (Admin w)
  + 2 * length (InvokerQueue (Q w))
  + sum_list_with thread_weight (Threads (Q w)).

(** The joins of [Sync] that are still to be made, from position [from]. *)
Definition joins (from : nat) (q : Queue) : list Action :=
  AJoin <$> seq from (length (Threads q) - from).

(** A thread with this id is never put on hold: the pool is halted, or
    the id is out of range. *)
Definition released (q : Queue) (ThreadId : Z) : bool :=
  halted q || (NumberOfThreads q <=? ThreadId).

Definition all_released (from : nat) (q : Queue) : Prop :=
  ∀ pos ThreadId st, (from <= pos)%nat →
    Threads q !! pos = Some (Joinable ThreadId st) → released q ThreadId = true.

(** The store [s] releases the threads of the handles from position
    [from] on: it halts the pool, or it lowers the desired number of
    threads to their ids or below. *)
Definition releasing (s : Action) (from : nat) (q : Queue) : Prop :=
  match s with
  | AStoreRunning false | AStoreDestroying true => True
  | AStoreNumberOfThreads n =>
      ∀ pos ThreadId st, (from <= pos)%nat →
        Threads q !! pos = Some (Joinable ThreadId st) → n <= ThreadId
  | _ => False
  end.

(** What a step of another thread can make of a thread handle: nothing,
    or a new state of the same thread, which is not a sleep if the thread
    is released. *)
Definition moved (q : Queue) (t t' : thread Invoker) : Prop :=
  t' = t
  ∨ ∃ ThreadId st st', t = Joinable ThreadId st ∧ t' = Joinable ThreadId st'
      ∧ (released q ThreadId = true → st' ≠ Waiting).

(** [Stop], the destructor and the shrinking branch of
    [SetNumberOfThreads] shut threads down in the same way: a store [s]
    under the mutex, a notification, the joins of the handles from
    position [from] on, and what is left to do after them, [tail].  First
    the administrative thread is on its way to the notification... *)
Definition Signalling (s : Action) (from : nat) (tail : list Action)
    (w : World Invoker) : Prop :=
  (from <= length (Threads (Q w)))%nat
  ∧ (∀ pos t, (from <= pos)%nat → Threads (Q w) !! pos = Some t →
       joinable t = true)
  ∧ ((Admin w = [ALock; s; AUnlock; ANotifyAll] ++ joins from (Q w) ++ tail
      ∧ Locked (Q w) = false ∧ releasing s from (Q w))
     ∨ (Admin w = [s; AUnlock; ANotifyAll] ++ joins from (Q w) ++ tail
        ∧ Locked (Q w) = true ∧ releasing s from (Q w))
     ∨ (Admin w = [AUnlock; ANotifyAll] ++ joins from (Q w) ++ tail
        ∧ Locked (Q w) = true ∧ all_released from (Q w))
     ∨ (Admin w = [ANotifyAll] ++ joins from (Q w) ++ tail
        ∧ Locked (Q w) = false ∧ all_released from (Q w))).

(** ... then it joins the thread at position [j]: the threads before it
    are joined, those from it on are not, and none of them sleeps. *)
Definition Joining (from j : nat) (tail : list Action) (w : World Invoker) : Prop :=
  Admin w = joins j (Q w) ++ tail
  ∧ (from <= j <= length (Threads (Q w)))%nat
  ∧ Locked (Q w) = false
  ∧ all_released from (Q w)
  ∧ (∀ pos t, (from <= pos)%nat → Threads (Q w) !! pos = Some t →
       if decide (pos < j)%nat then t = NotJoinable
       else joinable t = true ∧ waiting t = false).

Definition Shutdown (s : Action) (from : nat) (tail : list Action)
    (w : World Invoker) : Prop :=
  Signalling s from tail w ∨ ∃ j, Joining from j tail w.

(** The administrative thread can perform its next action, or it waits in
    a join for a thread that can move. *)
Definition Progress (w : World Invoker) : Prop :=
  ∃ l w', step l w = Some w'
    ∧ (l = LAdmin ∨ ∃ j rest, Admin w = AJoin j :: rest ∧ l = LWorker j).

(** How far the thread that the administrative thread waits for is from
    having returned, when it is out of service. *)
Definition target_weight (w : World Invoker) : nat :=
  match Admin w with
  | AJoin j :: _ =>
      match Threads (Q w) !! j with
      | Some (Joinable _ Returned) => 0
      | Some (Joinable _ Ready) | Some (Joinable _ Notified) => 1
      | Some (Joinable _ (Invoking _)) => 2
      | Some (Joinable _ Waiting) => 3
      | _ => 0
      end
  | _ => 0
  end.

(** A bound on the number of steps that a call needs when the threads it
    joins are out of service. *)
Definition call_measure (w : World Invoker) : nat :=
  4 * length (Admin w) + target_weight w.

(** The store of [Stop] and the store of the destructor. *)
Definition halting_store (s : Action) : Prop :=
  s = AStoreRunning false ∨ s = AStoreDestroying true.

(** Some thread is still in service: its id is below the desired number
    and it has not returned. *)
Definition Serving (q : Queue) : Prop :=
  ∃ pos ThreadId st, Threads q !! pos = Some (Joinable ThreadId st)
    ∧ ThreadId < NumberOfThreads q ∧ st ≠ Returned.

(** The actions of the destructor: none of them stores to [Running] or
    [NumberOfThreads], none makes or unmakes a thread handle. *)
Definition quiet (a : Action) : bool :=
  match a with
  | ALock | AUnlock | ANotifyAll | AJoin _ | AStoreDestroying _ => true
  | _ => false
  end.

(** While the destructor runs, the pool stays running, and either some
    thread is still in service or the queue is empty. *)
Definition Draining (w : World Invoker) : Prop :=
  Running (Q w) = true
  ∧ forallb quiet (Admin w) = true
  ∧ (Serving (Q w) ∨ InvokerQueue (Q w) = []).

(** The administrative thread is about to join the thread at [pos], and
    that thread is in service in a running pool. *)
Definition Joins_in_service (pos : nat) (w : World Invoker) : Prop :=
  (∃ rest, Admin w = AJoin pos :: rest)
  ∧ Running (Q w) = true ∧ Destroying (Q w) = false
  ∧ ∃ ThreadId st, Threads (Q w) !! pos = Some (Joinable ThreadId st)
      ∧ ThreadId < NumberOfThreads (Q w) ∧ st ≠ Returned.

End Auxiliary.

(** ** Concrete queues used in the examples *)

(** A new queue, started: one thread, with id 0. *)
Definition one_thread : vtkThreadedCallbackQueue nat :=
  {| InvokerQueue := []; Locked := false; Empty := true; Destroying := false;
     Running := true; NumberOfThreads := 1; Threads := [Joinable 0 Ready] |}.

(** A started pool with three threads. *)
Definition three_threads : vtkThreadedCallbackQueue nat :=
  {| InvokerQueue := []; Locked := false; Empty := true; Destroying := false;
     Running := true; NumberOfThreads := 3;
     Threads := [Joinable 0 Ready; Joinable 1 Ready; Joinable 2 Ready] |}.

(** A started pool with one thread and two pending invokers. *)
Definition two_pending : vtkThreadedCallbackQueue nat :=
  {| InvokerQueue := [7%nat; 8%nat]; Locked := false; Empty := false;
     Destroying := false; Running := true; NumberOfThreads := 1;
     Threads := [Joinable 0 Ready] |}.

(** ** What the administrative thread owns

    The mutex is held across steps by the administrative thread only (a
    worker locks and unlocks it within one step), and [Destroying],
    [Running], [NumberOfThreads] and the handles of [Threads] are written
    by the administrative thread only.  The definitions below describe
    this part of the queue and what each action makes of it. *)

Section Ownership.

Context {Invoker : Type}.
Local Abbreviation Queue := (vtkThreadedCallbackQueue Invoker).

(** The id of the thread that a handle holds, if it holds one. *)
Definition ident (t : thread Invoker) : option Z :=
  match t with
  | NotJoinable => None
  | Joinable ThreadId _ => Some ThreadId
  end.

Record Owned : Type := mkOwned {
  oLocked : bool;
  oDestroying : bool;
  oRunning : bool;
  oNumberOfThreads : Z;
  oThreads : list (option Z);
}.

Definition owned (q : Queue) : Owned :=
  mkOwned (Locked q) (Destroying q) (Running q) (NumberOfThreads q)
          (ident <$> Threads q).

Definition set_oThreads (ts : list (option Z)) (o : Owned) : Owned :=
  mkOwned (oLocked o) (oDestroying o) (oRunning o) (oNumberOfThreads o) ts.

(** The handle holds no thread. *)
Definition vacant (i : option Z) : bool :=
  match i with None => true | Some _ => false end.

(** Whether the action can be performed without an error and without
    waiting for the mutex; a join may still have to wait for its thread to
    return. *)
Definition allowed (a : Action) (o : Owned) : bool :=
  match a with
  | ALock => negb (oLocked o)
  | AJoin pos =>
      match oThreads o !! pos with Some (Some _) => true | _ => false end
  | AResize n => (0 <=? n) && forallb vacant (drop (Z.to_nat n) (oThreads o))
  | AAssign pos _ =>
      match oThreads o !! pos with Some None => true | _ => false end
  | AUndefined => false
  | _ => true
  end.

(** What the action makes of the part that the administrative thread
    owns. *)
Definition perform (a : Action) (o : Owned) : Owned :=
  match a with
  | ALock => mkOwned true (oDestroying o) (oRunning o) (oNumberOfThreads o) (oThreads o)
  | AUnlock => mkOwned false (oDestroying o) (oRunning o) (oNumberOfThreads o) (oThreads o)
  | AStoreRunning b =>
      mkOwned (oLocked o) (oDestroying o) b (oNumberOfThreads o) (oThreads o)
  | AStoreDestroying b =>
      mkOwned (oLocked o) b (oRunning o) (oNumberOfThreads o) (oThreads o)
  | AStoreNumberOfThreads n =>
      mkOwned (oLocked o) (oDestroying o) (oRunning o) n (oThreads o)
  | ANotifyAll | AUndefined => o
  | AJoin pos => set_oThreads (<[pos := None]> (oThreads o)) o
  | AResize n => set_oThreads (resize (Z.to_nat n) None (oThreads o)) o
  | APushBack ThreadId => set_oThreads (oThreads o ++ [Some ThreadId]) o
  | AAssign pos ThreadId => set_oThreads (<[pos := Some ThreadId]> (oThreads o)) o
  end.

(** The actions of a call performed one after the other, as far as this
    part is concerned.  [None]: one of them is not allowed. *)
Fixpoint perform_all (actions : list Action) (o : Owned) : option Owned :=
  match actions with
  | [] => Some o
  | a :: rest => if allowed a o then perform_all rest (perform a o) else None
  end.

(** A handle of a pool at rest: it holds a thread exactly when the pool is
    running, and the id of that thread is the position of the handle or
    one less. *)
Definition in_place (running : bool) (pos : nat) (i : option Z) : bool :=
  match i with
  | None => negb running
  | Some ThreadId =>
      running && (Z.of_nat pos - 1 <=? ThreadId) && (ThreadId <=? Z.of_nat pos)
  end.

(** The pool at rest, between two calls and before its destruction. *)
Definition idle (o : Owned) : bool :=
  negb (oLocked o) && negb (oDestroying o)
  && (oNumberOfThreads o =? Z.of_nat (length (oThreads o)))
  && (Z.of_nat (length (oThreads o)) <? 2 ^ 31)
  && forallb (λ p, in_place (oRunning o) p.1 p.2) (imap pair (oThreads o)).

(** The argument of [SetNumberOfThreads] is an [int] that is not
    negative. *)
Definition valid_task (f : Task) : bool :=
  match f with
  | TaskSetNumberOfThreads numberOfThreads =>
      (0 <=? numberOfThreads) && (numberOfThreads <? 2 ^ 31)
  | TaskStop | TaskStart => true
  end.

(** The calls made on an object during its lifetime: member functions
    with valid arguments, and the destructor as the last call. *)
Fixpoint lifetime (ls : list (Label Invoker)) : bool :=
  match ls with
  | [] => true
  | LCall CallDestructor :: ls' => negb (existsb is_call ls')
  | LCall (CallTask f) :: ls' => valid_task f && lifetime ls'
  | _ :: ls' => lifetime ls'
  end.

(** The invokers submitted along an execution, in order. *)
Fixpoint submitted (ls : list (Label Invoker)) : list Invoker :=
  match ls with
  | [] => []
  | LPush invoker _ :: ls' => invoker :: submitted ls'
  | _ :: ls' => submitted ls'
  end.

(** The thread is in service and awake: it has not returned and does not
    sleep in [wait]. *)
Definition serving (q : Queue) (t : thread Invoker) : bool :=
  match t with
  | Joinable ThreadId Ready | Joinable ThreadId Notified
  | Joinable ThreadId (Invoking _) => ThreadId <? NumberOfThreads q
  | _ => false
  end.

(** An action that fails in every state: a [resize] to a negative size,
    or undefined behaviour. *)
Definition hopeless (a : Action) : bool :=
  match a with
  | AResize n => n <? 0
  | AUndefined => true
  | _ => false
  end.

(** An action that leaves a thread with this id in service in a running
    pool. *)
Definition harmless (ThreadId : Z) (a : Action) : bool :=
  match a with
  | ALock | AUnlock | ANotifyAll => true
  | AStoreNumberOfThreads n => ThreadId <? n
  | _ => false
  end.

(** The thread of the handle at [pos] is in service in a running pool,
    and the administrative thread is on its way to joining it. *)
Definition Joins_ahead (pos : nat) (ThreadId : Z) (w : World Invoker) : Prop :=
  Running (Q w) = true ∧ Destroying (Q w) = false
  ∧ (∃ pre rest, Admin w = pre ++ AJoin pos :: rest
       ∧ forallb (harmless ThreadId) pre = true)
  ∧ ∃ st, Threads (Q w) !! pos = Some (Joinable ThreadId st)
      ∧ st ≠ Returned ∧ ThreadId < NumberOfThreads (Q w).

(** An action that takes the pool out of the halted state. *)
Definition revives (a : Action) : bool :=
  match a with
  | AStoreRunning true | AStoreDestroying false => true
  | _ => false
  end.

Definition stores_number (a : Action) : bool :=
  match a with AStoreNumberOfThreads _ => true | _ => false end.

(** An action that raises the desired number of threads. *)
Definition raises (q : Queue) (a : Action) : bool :=
  match a with
  | AStoreNumberOfThreads n => NumberOfThreads q <? n
  | _ => false
  end.

(** At most one of the actions stores to [NumberOfThreads]. *)
Fixpoint single_store (actions : list Action) : bool :=
  match actions with
  | [] => true
  | a :: rest =>
      if stores_number a then negb (existsb stores_number rest)
      else single_store rest
  end.

Definition returned (t : thread Invoker) : bool :=
  match t with Joinable _ Returned => true | _ => false end.

(** No thread in service has returned, and the actions that the
    administrative thread still has to perform will not put a thread that
    has returned back in service: the pool is revived only by the first
    action of a call, when no handle holds a thread, and the desired
    number is raised only by the first action of a call, when every
    thread is in service. *)
Definition Alive (w : World Invoker) : Prop :=
  (∀ pos ThreadId, Threads (Q w) !! pos = Some (Joinable ThreadId Returned) →
     halted (Q w) = true ∨ NumberOfThreads (Q w) <= ThreadId)
  ∧ existsb revives (tail (Admin w)) = false
  ∧ (existsb revives (Admin w) = true →
     ∀ pos t, Threads (Q w) !! pos = Some t → t = NotJoinable)
  ∧ single_store (Admin w) = true
  ∧ existsb (raises (Q w)) (tail (Admin w)) = false
  ∧ (existsb (raises (Q w)) (Admin w) = true → Running (Q w) = true →
     ∀ pos ThreadId st, Threads (Q w) !! pos = Some (Joinable ThreadId st) →
       ThreadId < NumberOfThreads (Q w)).

End Ownership.

Arguments Owned : clear implicits.

(** ** A restart *)

Section Restart.

Context {Invoker : Type}.

(** [Start] at work on a stopped pool of which no handle holds a thread:
    before it has stored [Running], or after, when it has made the
    threads of the handles before position [k], each with an id below the
    desired number, awake and in service, and has those from [k] on still
    to make. *)
Definition Starting (w : World Invoker) : Prop :=
  Locked (Q w) = false
  ∧ NumberOfThreads (Q w) = Threads_size (Q w)
  ∧ ((Running (Q w) = false
      ∧ Admin w = AStoreRunning true :: generate 0 (length (Threads (Q w))) (-1)
      ∧ ∀ pos t, Threads (Q w) !! pos = Some t → t = NotJoinable)
     ∨ (Running (Q w) = true
        ∧ ∃ k : nat, (k <= length (Threads (Q w)))%nat
          ∧ Admin w = generate k (length (Threads (Q w)) - k) (Z.of_nat k - 1)
          ∧ ∀ pos t, Threads (Q w) !! pos = Some t →
              if decide (pos < k)%nat then serving (Q w) t = true
              else t = NotJoinable)).

End Restart.

(** * Properties *)

Section Properties.

Context {Invoker : Type}.
Local Abbreviation Queue := (vtkThreadedCallbackQueue Invoker).
Implicit Types (q : Queue) (w : World Invoker) (l : Label Invoker).

(** ** Machine integers *)

Lemma to_int_small (x : Z) : - 2 ^ 31 <= x < 2 ^ 31 → to_int x = x.
Proof.
  intros Hx. unfold to_int.
  rewrite Z.mod_small; lia.
Qed.

Lemma to_size_t_small (x : Z) : 0 <= x < 2 ^ 64 → to_size_t x = x.
Proof. intros Hx. unfold to_size_t. rewrite Z.mod_small; lia. Qed.

(** ** Construction *)

(** C9.  A newly constructed queue is not running and not destroying, its
    empty flag is set, its desired number of threads is 1 and it has one
    thread handle that holds no thread; its controller has exactly one
    thread, with id 0, and is started; the controller itself is built
    with no controller, so its member functions are called on the spot. *)
Theorem constructor_state :
  @vtkThreadedCallbackQueue_new Invoker =
    Some (mkObject
            {| InvokerQueue := []; Locked := false; Empty := true;
               Destroying := false; Running := false; NumberOfThreads := 1;
               Threads := [NotJoinable] |}
            (Some {| InvokerQueue := []; Locked := false; Empty := true;
                     Destroying := false; Running := true; NumberOfThreads := 1;
                     Threads := [Joinable 0 Ready] |}))
  ∧ vtkInternalController_new =
      Some (mkObject
              {| InvokerQueue := []; Locked := false; Empty := true;
                 Destroying := false; Running := false; NumberOfThreads := 1;
                 Threads := [NotJoinable] |}
              None)
  ∧ ∀ (f : Task) (wake : nat) (this : vtkInternalController),
      Execute None f wake this = (None, Task_body f this).
Proof. repeat split. Qed.


(** ** The worker's predicates *)

Lemma empty_nil (l : list Invoker) : empty l = true ↔ l = [].
Proof. destruct l; simpl; split; congruence. Qed.

Lemma Continue_true ThreadId q :
  Continue ThreadId q = true ↔
  ThreadId < NumberOfThreads q ∧ Running q = true ∧ InvokerQueue q ≠ [].
Proof.
  unfold Continue. rewrite !andb_true_iff, negb_true_iff, Z.ltb_lt.
  destruct (InvokerQueue q); simpl; intuition congruence.
Qed.

Lemma OnHold_true ThreadId q :
  OnHold ThreadId q = true ↔
  ThreadId < NumberOfThreads q ∧ Destroying q = false ∧ Running q = true
  ∧ InvokerQueue q = [].
Proof.
  unfold OnHold. rewrite !andb_true_iff, negb_true_iff, Z.ltb_lt, empty_nil.
  tauto.
Qed.

(** When the thread gets past the wait and [Continue] is false, the pool
    is stopped, or the id is out of range, or the pool is being destroyed
    and has nothing left to run; and conversely. *)
Lemma leaves_loop_iff ThreadId q :
  OnHold ThreadId q = false ∧ Continue ThreadId q = false ↔
  Running q = false ∨ NumberOfThreads q <= ThreadId
  ∨ (Destroying q = true ∧ InvokerQueue q = []).
Proof.
  unfold OnHold, Continue.
  destruct (Z.ltb_spec ThreadId (NumberOfThreads q)), (Running q), (Destroying q),
    (InvokerQueue q); simpl; split; intros; try tauto; try lia;
    try (intuition (congruence || lia)).
Qed.

Lemma Pop_false ThreadId q :
  OnHold ThreadId q = false → Continue ThreadId q = false → Pop ThreadId q = PopFalse.
Proof. intros H1 H2. unfold Pop. by rewrite H1, H2. Qed.

Lemma Pop_true ThreadId q :
  Continue ThreadId q = true →
  ∃ invoker rest, InvokerQueue q = invoker :: rest
    ∧ Pop ThreadId q = PopTrue invoker (set_Empty (empty rest) (set_InvokerQueue rest q)).
Proof.
  intros HC. assert (OnHold ThreadId q = false) as HO.
  { apply Continue_true in HC as (? & ? & ?). apply not_true_is_false.
    rewrite OnHold_true. tauto. }
  unfold Pop. rewrite HO, HC. simpl.
  apply Continue_true in HC as (_ & _ & Hne).
  destruct (InvokerQueue q) as [|invoker rest]; [done|]. eauto.
Qed.

(** C6.  [Continue] holds exactly when the id is below the desired number
    of threads, the pool is running and the queue is not empty.  A thread
    that gets past the wait and finds [Continue] false returns from [Pop]
    with false, which ends the loop of [operator()]; a thread that has
    returned never moves again.  This is what happens when the pool is
    stopped, when the id is out of range, and when the pool is being
    destroyed with an empty queue, and in no other case. *)
Theorem Continue_decides (ThreadId : Z) (q : Queue) :
  (Continue ThreadId q = true ↔
     ThreadId < NumberOfThreads q ∧ Running q = true ∧ InvokerQueue q ≠ [])
  ∧ (Locked q = false → OnHold ThreadId q = false → Continue ThreadId q = false →
       Pop ThreadId q = PopFalse
       ∧ ThreadWorker_step ThreadId Ready q = Some (Returned, q, [])
       ∧ ThreadWorker_step ThreadId Notified q = Some (Returned, q, []))
  ∧ (∀ q', ThreadWorker_step ThreadId Returned q' = None)
  ∧ (∀ w pos, Threads (Q w) !! pos = Some (Joinable ThreadId Returned) →
       step (LWorker pos) w = None ∧ step (LSpurious pos) w = None)
  ∧ (OnHold ThreadId q = false ∧ Continue ThreadId q = false ↔
       Running q = false ∨ NumberOfThreads q <= ThreadId
       ∨ (Destroying q = true ∧ InvokerQueue q = [])).
Proof.
  split; [apply Continue_true|].
  split.
  { intros HL HO HC. pose proof (Pop_false _ _ HO HC) as HP.
    unfold ThreadWorker_step. by rewrite HL, HP. }
  split; [done|].
  split; [|apply leaves_loop_iff].
  intros w pos Hpos. simpl. by rewrite Hpos.
Qed.

(** ** No-ops *)

(** C7.  [Start] on a running pool, [Stop] on a pool that is not running
    and [SetNumberOfThreads(n)] with [n] the current number of handles
    perform no action at all: the pool is left as it is. *)
Theorem administrative_noops (q : Queue) (n : Z) :
  (Running q = true →
     Start_body q = []
     ∧ (∀ wake, Start wake (mkObject q None) = (None, []))
     ∧ call TaskStart q = Some q
     ∧ ∀ w, Q w = q → Admin w = [] → step (LCall (CallTask TaskStart)) w = Some w)
  ∧ (Running q = false →
       Stop_body q = []
       ∧ (∀ wake, Stop wake (mkObject q None) = (None, []))
       ∧ call TaskStop q = Some q
       ∧ ∀ w, Q w = q → Admin w = [] → step (LCall (CallTask TaskStop)) w = Some w)
  ∧ (n = Threads_size q → n < 2 ^ 31 →
       SetNumberOfThreads_body n q = []
       ∧ (∀ wake, SetNumberOfThreads n wake (mkObject q None) = (None, []))
       ∧ call (TaskSetNumberOfThreads n) q = Some q
       ∧ ∀ w, Q w = q → Admin w = [] →
           step (LCall (CallTask (TaskSetNumberOfThreads n))) w = Some w).
Proof.
  split; [|split].
  - intros HR. assert (Start_body q = []) as E by (unfold Start_body; by rewrite HR).
    split; [done|].
    split; [intros wake; unfold Start, Execute; simpl; by rewrite E|].
    split; [unfold call; simpl; by rewrite E|].
    intros [q0 a i] ? Ha; simpl in *; subst. by rewrite E.
  - intros HR. assert (Stop_body q = []) as E by (unfold Stop_body; by rewrite HR).
    split; [done|].
    split; [intros wake; unfold Stop, Execute; simpl; by rewrite E|].
    split; [unfold call; simpl; by rewrite E|].
    intros [q0 a i] ? Ha; simpl in *; subst. by rewrite E.
  - intros Hn Hlt.
    assert (SetNumberOfThreads_body n q = []) as E.
    { unfold SetNumberOfThreads_body. rewrite to_int_small.
      - subst n. by rewrite Z.eqb_refl.
      - unfold Threads_size in *. lia. }
    split; [done|].
    split; [intros wake; unfold SetNumberOfThreads, Execute; simpl; by rewrite E|].
    split; [unfold call; simpl; by rewrite E|].
    intros [q0 a i] ? Ha; simpl in *; subst. by rewrite E.
Qed.

(** ** What the actions leave alone *)

(** No action of the administrative thread touches the invoker queue or
    its empty flag. *)
Lemma exec_InvokerQueue a q q' :
  exec a q = Steps q' → InvokerQueue q' = InvokerQueue q ∧ Empty q' = Empty q.
Proof.
  destruct a; simpl; intros H; repeat case_match; simplify_eq; done.
Qed.

Lemma exec_flags a q q' :
  stores_flag a = false → exec a q = Steps q' →
  Running q' = Running q ∧ Destroying q' = Destroying q.
Proof.
  destruct a; simpl; intros Hs H; repeat case_match; simplify_eq; done.
Qed.

Lemma stores_flag_generate_n count cur :
  forallb (λ a, negb (stores_flag a)) (generate_n count cur) = true.
Proof. revert cur. induction count as [|count IH]; intros cur; simpl; auto. Qed.

Lemma stores_flag_joins (positions : list nat) :
  forallb (λ a, negb (stores_flag a)) (AJoin <$> positions) = true.
Proof. induction positions; simpl; auto. Qed.

Lemma stores_flag_Sync startId q :
  forallb (λ a, negb (stores_flag a)) (Sync startId q) = true.
Proof. unfold Sync. case_match; [apply stores_flag_joins|done]. Qed.

Lemma stores_flag_SetNumberOfThreads n q :
  forallb (λ a, negb (stores_flag a)) (SetNumberOfThreads_body n q) = true.
Proof.
  unfold SetNumberOfThreads_body.
  repeat case_match; rewrite ?forallb_app; simpl;
    rewrite ?forallb_app, ?stores_flag_generate_n, ?stores_flag_Sync; done.
Qed.

(** ** Growing *)

Lemma generate_n_ids count cur :
  0 <= cur → cur + Z.of_nat count <= 2 ^ 31 →
  generate_n count cur = (λ i, APushBack (cur + Z.of_nat i - 1)) <$> seq 0 count.
Proof.
  revert cur. induction count as [|count IH]; intros cur H0 Hle; [done|].
  cbn [generate_n seq fmap list_fmap]. f_equal.
  - f_equal. destruct (decide (cur = 0)) as [->|].
    + reflexivity.
    + rewrite to_size_t_small by lia. rewrite to_int_small by lia. lia.
  - rewrite IH by lia. rewrite <- fmap_S_seq, <- list_fmap_compose.
    apply list_fmap_ext. intros ? i ?. simpl. f_equal. lia.
Qed.

(** C1.  What the growing branch of [SetNumberOfThreads] does on a
    running pool: the desired number is stored, and the thread appended at
    position [size + i] is given the id [size + i - 1].  The [n - size] new
    threads so get the ids [size - 1] to [n - 2]: the first id is not
    [size], and no thread gets the id [n - 1]. *)
Theorem SetNumberOfThreads_grow (n : Z) (q : Queue) :
  Running q = true → Threads_size q < n → n < 2 ^ 31 →
  SetNumberOfThreads_body n q =
    AStoreNumberOfThreads n ::
    ((λ i, APushBack (Threads_size q + Z.of_nat i - 1))
       <$> seq 0 (Z.to_nat (n - Threads_size q)))
  ∧ (∀ ThreadId, APushBack ThreadId ∈ SetNumberOfThreads_body n q ↔
                 Threads_size q - 1 <= ThreadId < n - 1).
Proof.
  intros HR Hlt Hn.
  assert (0 <= Threads_size q) by (unfold Threads_size; lia).
  assert (SetNumberOfThreads_body n q =
            AStoreNumberOfThreads n ::
            ((λ i, APushBack (Threads_size q + Z.of_nat i - 1))
               <$> seq 0 (Z.to_nat (n - Threads_size q)))) as E.
  { unfold SetNumberOfThreads_body.
    rewrite to_int_small by lia.
    destruct (Z.eqb_spec (Threads_size q) n); [lia|].
    destruct (Z.ltb_spec (Threads_size q) n); [|lia].
    rewrite HR. simpl. f_equal. apply generate_n_ids; lia. }
  split; [exact E|].
  intros ThreadId. rewrite E, elem_of_cons, list_elem_of_fmap. split.
  - intros [?|(i & [= ->] & Hi%elem_of_seq)]; [done|lia].
  - intros Hid. right. exists (Z.to_nat (ThreadId - (Threads_size q - 1))).
    split; [f_equal; lia|]. apply elem_of_seq. lia.
Qed.

End Properties.

(** On a started pool with one thread, [SetNumberOfThreads(2)] makes one
    new thread and gives it the id 0, the id of the thread that is already
    there, not the id 1. *)
Example SetNumberOfThreads_grow_reuses_id :
  call TaskStart initial = Some one_thread
  ∧ SetNumberOfThreads_body 2 one_thread = [AStoreNumberOfThreads 2; APushBack 0]
  ∧ call (TaskSetNumberOfThreads 2) one_thread =
      Some {| InvokerQueue := []; Locked := false; Empty := true; Destroying := false;
              Running := true; NumberOfThreads := 2;
              Threads := [Joinable 0 Ready; Joinable 0 Ready] |}.
Proof. repeat split. Qed.

(** On a started pool with two invokers in its queue, [PrintSelf] writes
    the desired number of threads and the length of the queue, and then
    that the queue is not running. *)
Example PrintSelf_running_pool :
  PrintSelf "" "  " "" two_pending =
    Some ("  Threads: 1" +:+ endl +:+
          "  Callback queue size: 2" +:+ endl +:+
          "  Queue is not running" +:+ endl, two_pending).
Proof. reflexivity. Qed.

(** A call begins when no call is in progress, with the actions of its
    body; for the destructor this is the release of the controller. *)
Lemma step_LCall {Invoker} (c : Call) (w : World Invoker) :
  step (LCall c) w
  = match Admin w with
    | [] => Some (mkWorld (Q w) (Call_body c (Q w)) (Invoked w))
    | _ :: _ => None
    end.
Proof.
  destruct c; simpl; [done|].
  unfold Destructor_body, release_Controller. by destruct (Admin w).
Qed.

Ltac begins H :=
  match type of H with
  | _ = ?r => match goal with
              | c : Call, w : World _ |- _ =>
                  change (step (LCall c) w = r) in H; rewrite step_LCall in H
              end
  end.

(** ** Steps of the interleaving semantics *)

Section Steps.

Context {Invoker : Type}.
Local Abbreviation Queue := (vtkThreadedCallbackQueue Invoker).
Implicit Types (q : Queue) (w : World Invoker) (l : Label Invoker).

(** A step of a worker changes nothing but the invoker queue and its empty
    flag, and only by popping the head, under the mutex, when [Continue]
    holds. *)
Lemma ThreadWorker_step_inv ThreadId st q st' q' invs :
  ThreadWorker_step ThreadId st q = Some (st', q', invs) →
  (invs = [] ∧ q' = q
   ∧ (st' = Waiting → OnHold ThreadId q = true)
   ∧ (st' = Returned → OnHold ThreadId q = false ∧ Continue ThreadId q = false)
   ∧ (∀ inv, st' ≠ Invoking inv))
  ∨ (∃ inv, invs = [inv] ∧ st' = Invoking inv ∧ Continue ThreadId q = true
       ∧ Locked q = false ∧ InvokerQueue q = inv :: InvokerQueue q'
       ∧ q' = set_Empty (empty (InvokerQueue q')) (set_InvokerQueue (InvokerQueue q') q)).
Proof.
  unfold ThreadWorker_step, Pop.
  destruct st; try discriminate.
  1,2: destruct (Locked q) eqn:HL; [discriminate|];
       destruct (OnHold ThreadId q) eqn:HO; simpl;
       [intros [= <- <- <-]; left; repeat split; congruence|];
       destruct (Continue ThreadId q) eqn:HC; simpl;
       [|intros [= <- <- <-]; left; repeat split; congruence];
       destruct (InvokerQueue q) as [|inv rest] eqn:HQ;
       [apply Continue_true in HC; tauto|];
       intros [= <- <- <-]; right; exists inv; simpl; repeat split; done.
  intros [= <- <- <-]. left. repeat split; congruence.
Qed.

(** The fields that only the administrative thread writes. *)
Lemma ThreadWorker_step_frame ThreadId st q st' q' invs :
  ThreadWorker_step ThreadId st q = Some (st', q', invs) →
  Locked q' = Locked q ∧ Destroying q' = Destroying q ∧ Running q' = Running q
  ∧ NumberOfThreads q' = NumberOfThreads q ∧ Threads q' = Threads q.
Proof.
  intros H. apply ThreadWorker_step_inv in H as [(_ & -> & _)|(inv & _ & _ & _ & _ & _ & ->)];
    done.
Qed.

Lemma Push_frame invoker wake q :
  InvokerQueue (Push invoker wake q) = InvokerQueue q ++ [invoker]
  ∧ Empty (Push invoker wake q) = false
  ∧ Locked (Push invoker wake q) = Locked q
  ∧ Destroying (Push invoker wake q) = Destroying q
  ∧ Running (Push invoker wake q) = Running q
  ∧ NumberOfThreads (Push invoker wake q) = NumberOfThreads q
  ∧ length (Threads (Push invoker wake q)) = length (Threads q).
Proof.
  unfold Push. repeat case_match; simpl; rewrite ?length_insert; done.
Qed.

(** First in, first out: a step appends at most one invoker at the tail of
    the queue, or moves the head of the queue to the tail of the invoked
    ones. *)
Lemma step_fifo l w w' :
  step l w = Some w' →
  ∃ popped pushed,
    Invoked w' = Invoked w ++ popped
    ∧ popped ++ InvokerQueue (Q w') = InvokerQueue (Q w) ++ pushed
    ∧ (popped ≠ [] → ∃ pos ThreadId st,
         l = LWorker pos ∧ Threads (Q w) !! pos = Some (Joinable ThreadId st)
         ∧ Continue ThreadId (Q w) = true ∧ Locked (Q w) = false)
    ∧ (pushed ≠ [] → ∃ invoker wake, l = LPush invoker wake ∧ pushed = [invoker]).
Proof.
  destruct l as [pos|pos|invoker wake| |c]; simpl; intros H.
  - destruct (Threads (Q w) !! pos) as [[|ThreadId st]|] eqn:Hpos; try discriminate.
    destruct (ThreadWorker_step ThreadId st (Q w)) as [[[st' q'] invs]|] eqn:Hs;
      [|discriminate].
    injection H as <-. simpl.
    apply ThreadWorker_step_inv in Hs as [(-> & -> & _)|(inv & -> & -> & HC & HL & HQ & ->)].
    + exists [], []. rewrite !app_nil_r. repeat split; try done.
    + exists [inv], []. simpl. rewrite app_nil_r. repeat split; try done.
      intros _. exists pos, ThreadId, st. done.
  - repeat case_match; try discriminate. injection H as <-. simpl.
    exists [], []. rewrite !app_nil_r. done.
  - repeat case_match; try discriminate; injection H as <-; simpl.
    all: exists [], [invoker]; rewrite app_nil_r;
      destruct (Push_frame invoker wake (Q w)) as (-> & _);
      repeat split; try done; intros _; eauto.
  - destruct (Admin w) as [|a rest]; [discriminate|].
    destruct (exec a (Q w)) as [q'| |] eqn:He; try discriminate.
    injection H as <-. simpl. apply exec_InvokerQueue in He as [-> _].
    exists [], []. rewrite !app_nil_r. done.
  - begins H. destruct (Admin w); [|discriminate]. injection H as <-. simpl.
    exists [], []. rewrite !app_nil_r. done.
Qed.

Lemma steps_app ls1 ls2 w :
  steps (ls1 ++ ls2) w = w1 ← steps ls1 w; steps ls2 w1.
Proof.
  revert w. induction ls1 as [|l ls1 IH]; intros w; simpl; [done|].
  destruct (step l w); simpl; auto.
Qed.

(** Along any execution the invokers are started in the order in which
    they were queued: the invoked ones followed by the queue is what it
    was before, followed by what was submitted meanwhile. *)
Lemma steps_fifo ls w w' :
  steps ls w = Some w' →
  ∃ pushed,
    Invoked w' ++ InvokerQueue (Q w') = Invoked w ++ InvokerQueue (Q w) ++ pushed
    ∧ (forallb internal ls = true → pushed = []).
Proof.
  revert w. induction ls as [|l ls IH]; intros w; simpl.
  - intros [= <-]. exists []. by rewrite app_nil_r.
  - destruct (step l w) as [w1|] eqn:Hs; [|discriminate]. intros H.
    apply IH in H as (pushed2 & E2 & Hint2).
    apply step_fifo in Hs as (popped & pushed1 & E1 & E1' & _ & Hp).
    exists (pushed1 ++ pushed2). split.
    + rewrite E2, E1, <- !app_assoc. f_equal.
      rewrite (app_assoc popped), E1', <- !app_assoc. done.
    + intros [Hl Hls]%andb_true_iff. rewrite (Hint2 Hls), app_nil_r.
      destruct pushed1; [done|]. destruct Hp as (? & ? & -> & _); done.
Qed.

End Steps.

(** ** The empty flag *)

Section EmptyFlag.

Context {Invoker : Type}.
Implicit Types (w : World Invoker) (l : Label Invoker).

Lemma step_Empty_agrees l w w' :
  Empty_agrees w → step l w = Some w' → Empty_agrees w'.
Proof.
  unfold Empty_agrees. intros HE H.
  destruct l as [pos|pos|invoker wake| |c]; simpl in H.
  - destruct (Threads (Q w) !! pos) as [[|ThreadId st]|]; try discriminate.
    destruct (ThreadWorker_step ThreadId st (Q w)) as [[[st' q'] invs]|] eqn:Hs;
      [|discriminate].
    injection H as <-. simpl.
    apply ThreadWorker_step_inv in Hs as [(_ & -> & _)|(inv & _ & _ & _ & _ & _ & ->)];
      done.
  - repeat case_match; try discriminate. by injection H as <-.
  - repeat case_match; try discriminate; injection H as <-; simpl.
    all: destruct (Push_frame invoker wake (Q w)) as (-> & -> & _);
      by destruct (InvokerQueue (Q w)).
  - destruct (Admin w) as [|a rest]; [discriminate|].
    destruct (exec a (Q w)) as [q'| |] eqn:He; try discriminate.
    injection H as <-. simpl. apply exec_InvokerQueue in He as [-> ->]. done.
  - begins H. destruct (Admin w); [|discriminate]. by injection H as <-.
Qed.

Lemma steps_Empty_agrees ls w w' :
  Empty_agrees w → steps ls w = Some w' → Empty_agrees w'.
Proof.
  revert w. induction ls as [|l ls IH]; intros w HE; simpl.
  - by intros [= <-].
  - destruct (step l w) as [w1|] eqn:Hs; [|discriminate].
    eauto using step_Empty_agrees.
Qed.

(** C8.  In every state that a newly constructed queue can reach, the
    empty flag is set exactly when the invoker queue is empty.  A step
    that makes the queue empty or non-empty is a step of a worker or a
    submission: both take the mutex, which therefore is free before the
    step, and the state after the step already has the updated flag. *)
Theorem Empty_flag_invariant (ls : list (Label Invoker)) (w : World Invoker) :
  steps ls (mkWorld initial [] []) = Some w →
  (Empty (Q w) = true ↔ InvokerQueue (Q w) = [])
  ∧ ∀ l w', step l w = Some w' →
      empty (InvokerQueue (Q w')) ≠ empty (InvokerQueue (Q w)) →
      ((∃ pos, l = LWorker pos) ∨ (∃ invoker wake, l = LPush invoker wake))
      ∧ Locked (Q w) = false
      ∧ (Empty (Q w') = true ↔ InvokerQueue (Q w') = []).
Proof.
  intros Hreach.
  assert (Empty_agrees w) as HE.
  { eapply steps_Empty_agrees; [|exact Hreach]. done. }
  split.
  { rewrite HE. apply empty_nil. }
  intros l w' Hs Hne.
  pose proof (step_Empty_agrees _ _ _ HE Hs) as HE'.
  split; [|split].
  - destruct l; eauto.
    + simpl in Hs. repeat case_match; try discriminate. injection Hs as <-. done.
    + simpl in Hs. destruct (Admin w) as [|a rest]; [discriminate|].
      destruct (exec a (Q w)) as [q'| |] eqn:He; try discriminate.
      injection Hs as <-. simpl in Hne. apply exec_InvokerQueue in He as [E _].
      by rewrite E in Hne.
    + rewrite step_LCall in Hs. destruct (Admin w); [|discriminate]. by injection Hs as <-.
  - pose proof Hs as Hf. apply step_fifo in Hf as (popped & pushed & _ & E & Hpop & Hpush).
    destruct popped as [|inv popped].
    + destruct pushed as [|inv pushed].
      * simpl in E. rewrite app_nil_r in E. by rewrite E in Hne.
      * destruct Hpush as (invoker & wake & -> & _); [done|].
        simpl in Hs. by destruct (Locked (Q w)).
    + destruct Hpop as (? & ? & ? & _ & _ & _ & HL); done.
  - rewrite HE'. apply empty_nil.
Qed.

End EmptyFlag.

(** ** Carrying out an administrative call *)

Section Completion.

Context {Invoker : Type}.
Local Abbreviation Queue := (vtkThreadedCallbackQueue Invoker).
Implicit Types (q : Queue) (w : World Invoker) (l : Label Invoker).

Lemma exec_fields a q q' : exec a q = Steps q' → fields q' = store (fields q) a.
Proof.
  unfold fields.
  destruct a; simpl; intros H; repeat case_match; simplify_eq; simpl;
    rewrite ?length_fmap, ?length_insert, ?length_resize, ?length_app; simpl;
    try done.
  f_equal. lia.
Qed.

Lemma set_thread_fields pos t q : fields (set_thread pos t q) = fields q.
Proof. unfold fields, set_thread. simpl. by rewrite length_insert. Qed.

(** Between two calls, whatever the other threads do, the actions of the
    call in progress are performed in program order, and the members that
    only the administrative thread writes are what these actions make of
    them. *)
Lemma step_fields l w w' :
  is_call l = false → step l w = Some w' →
  (Admin w' = Admin w ∧ fields (Q w') = fields (Q w))
  ∨ (∃ a, l = LAdmin ∧ Admin w = a :: Admin w' ∧ exec a (Q w) = Steps (Q w')).
Proof.
  destruct l as [pos|pos|invoker wake| |c]; simpl; intros Hc H; try discriminate.
  - destruct (Threads (Q w) !! pos) as [[|ThreadId st]|]; try discriminate.
    destruct (ThreadWorker_step ThreadId st (Q w)) as [[[st' q'] invs]|] eqn:Hs;
      [|discriminate].
    injection H as <-. left. simpl. split; [done|].
    rewrite set_thread_fields.
    apply ThreadWorker_step_frame in Hs as (? & ? & ? & ? & ?).
    unfold fields. congruence.
  - repeat case_match; try discriminate. injection H as <-. left. simpl.
    by rewrite set_thread_fields.
  - repeat case_match; try discriminate; injection H as <-; left; simpl.
    all: split; [done|];
      destruct (Push_frame invoker wake (Q w)) as (_ & _ & _ & ? & ? & ? & ?);
      unfold fields; congruence.
  - destruct (Admin w) as [|a rest]; [discriminate|].
    destruct (exec a (Q w)) as [q'| |] eqn:He; try discriminate.
    injection H as <-. right. exists a. done.
Qed.

Lemma steps_fields ls w w' :
  existsb is_call ls = false → steps ls w = Some w' →
  ∃ performed, Admin w = performed ++ Admin w'
    ∧ fields (Q w') = foldl store (fields (Q w)) performed.
Proof.
  revert w. induction ls as [|l ls IH]; intros w; simpl.
  - intros _ [= <-]. by exists [].
  - intros [Hl Hls]%orb_false_iff.
    destruct (step l w) as [w1|] eqn:Hs; [|discriminate]. intros H.
    destruct (IH _ Hls H) as (performed & E & F).
    destruct (step_fields _ _ _ Hl Hs) as [[EA EF]|(a & _ & EA & He)].
    + exists performed. by rewrite <- EA, <- EF.
    + exists (a :: performed). split; [by rewrite EA, E|].
      simpl. by rewrite <- (exec_fields _ _ _ He).
Qed.

Lemma foldl_store_joins (positions : list nat) (v : AdminFields) :
  foldl store v (AJoin <$> positions) = v.
Proof. revert v. induction positions; simpl; auto. Qed.

(** With no thread handle there is no worker: whatever step is taken,
    nothing is invoked and the queue keeps what it has. *)
Lemma step_no_threads l w w' :
  Threads (Q w) = [] → step l w = Some w' →
  Invoked w' = Invoked w
  ∧ ∃ pushed, InvokerQueue (Q w') = InvokerQueue (Q w) ++ pushed.
Proof.
  intros HT Hs. apply step_fifo in Hs as (popped & pushed & E1 & E2 & Hpop & _).
  destruct popped as [|inv popped].
  - rewrite app_nil_r in E1. eauto.
  - destruct Hpop as (pos & ? & ? & _ & Hpos & _); [done|].
    by rewrite HT in Hpos.
Qed.

End Completion.


(** ** A halted pool comes to rest *)

Section Halting.

Context {Invoker : Type}.
Local Abbreviation Queue := (vtkThreadedCallbackQueue Invoker).
Implicit Types (q : Queue) (w : World Invoker) (l : Label Invoker)
  (t : thread Invoker) (ts : list (thread Invoker)).

Lemma halted_OnHold ThreadId q : halted q = true → OnHold ThreadId q = false.
Proof.
  unfold halted, OnHold. destruct (Running q), (Destroying q); simpl;
    rewrite ?andb_false_r; done.
Qed.

Lemma sum_weight_insert ts pos t t0 :
  ts !! pos = Some t0 →
  (sum_list_with thread_weight (<[pos := t]> ts) + thread_weight t0
   = sum_list_with thread_weight ts + thread_weight t)%nat.
Proof.
  revert pos. induction ts as [|t1 ts IH]; intros [|pos]; csimpl; try done.
  - intros [= ->]. lia.
  - intros H. specialize (IH _ H). lia.
Qed.

Lemma sum_weight_notify ts :
  (sum_list_with thread_weight (notify <$> ts) <= sum_list_with thread_weight ts)%nat.
Proof.
  induction ts as [|t ts IH]; csimpl; [done|].
  assert (thread_weight (notify t) <= thread_weight t)%nat
    by (destruct t as [|? []]; simpl; lia).
  lia.
Qed.

Lemma sum_weight_take ts n :
  (sum_list_with thread_weight (take n ts) <= sum_list_with thread_weight ts)%nat.
Proof.
  revert n. induction ts as [|t ts IH]; intros [|n]; csimpl; try lia.
  specialize (IH n). lia.
Qed.

Lemma sum_weight_resize ts n :
  (sum_list_with thread_weight (resize n NotJoinable ts)
   <= sum_list_with thread_weight ts)%nat.
Proof.
  rewrite resize_spec, sum_list_with_app.
  pose proof (sum_weight_take ts n).
  assert (sum_list_with thread_weight (replicate (n - length ts) (@NotJoinable Invoker)) = 0)%nat
    as ->; [|lia].
  induction (n - length ts)%nat; simpl; auto.
Qed.

(** What an action costs against what it adds to the threads. *)
Lemma exec_weight a q q' :
  exec a q = Steps q' →
  (sum_list_with thread_weight (Threads q') + 1
   <= sum_list_with thread_weight (Threads q) + action_weight a)%nat.
Proof.
  destruct a; simpl; intros H; repeat case_match; simplify_eq; simpl; try lia.
  - pose proof (sum_weight_notify (Threads q)). lia.
  - match goal with H : _ !! _ = Some _ |- _ =>
      pose proof (sum_weight_insert _ _ (@NotJoinable Invoker) _ H) end.
    simpl in *. lia.
  - pose proof (sum_weight_resize (Threads q) (Z.to_nat n)). lia.
  - rewrite sum_list_with_app. simpl. lia.
  - match goal with H : _ !! _ = Some _ |- _ =>
      pose proof (sum_weight_insert _ _ (Joinable ThreadId Ready) _ H) end.
    simpl in *. lia.
Qed.

(** In a halted pool a worker that moves gets closer to returning. *)
Lemma ThreadWorker_step_weight ThreadId st q st' q' invs :
  halted q = true →
  ThreadWorker_step ThreadId st q = Some (st', q', invs) →
  (thread_weight (Joinable ThreadId st') + 2 * length (InvokerQueue q')
   < thread_weight (Joinable ThreadId st) + 2 * length (InvokerQueue q))%nat
  ∧ st' ≠ Waiting.
Proof.
  intros Hh. pose proof (halted_OnHold ThreadId q Hh) as HO.
  unfold ThreadWorker_step, Pop. rewrite HO.
  destruct st; try discriminate.
  1,2: destruct (Locked q); [discriminate|];
       destruct (Continue ThreadId q); simpl;
       destruct (InvokerQueue q) as [|inv rest] eqn:HQ;
       intros [= <- <- <-]; simpl; rewrite ?HQ; simpl; split; (lia || done).
  intros [= <- <- <-]. simpl. split; (lia || done).
Qed.

(** Every step of a thread of a halted pool lowers the measure. *)
Lemma measure_decreases l w w' :
  halted (Q w) = true → internal l = true → step l w = Some w' →
  (measure w' < measure w)%nat.
Proof.
  unfold measure. intros Hh Hint H.
  destruct l as [pos|pos|invoker wake| |c]; simpl in H; try discriminate.
  - destruct (Threads (Q w) !! pos) as [[|ThreadId st]|] eqn:Hpos; try discriminate.
    destruct (ThreadWorker_step ThreadId st (Q w)) as [[[st' q'] invs]|] eqn:Hs;
      [|discriminate].
    injection H as <-. simpl.
    destruct (ThreadWorker_step_weight _ _ _ _ _ _ Hh Hs) as [Hw _].
    apply ThreadWorker_step_frame in Hs as (_ & _ & _ & _ & HT).
    rewrite HT.
    pose proof (sum_weight_insert _ _ (Joinable ThreadId st') _ Hpos). lia.
  - destruct (Threads (Q w) !! pos) as [[|ThreadId []]|] eqn:Hpos; try discriminate.
    injection H as <-. simpl.
    pose proof (sum_weight_insert _ _ (Joinable ThreadId Notified) _ Hpos).
    simpl in *. lia.
  - destruct (Admin w) as [|a rest]; [discriminate|].
    destruct (exec a (Q w)) as [q'| |] eqn:He; try discriminate.
    injection H as <-. simpl.
    pose proof (exec_weight _ _ _ He).
    apply exec_InvokerQueue in He as [-> _]. lia.
Qed.


(** ** Shutting the threads down *)

Lemma joins_same j q q' :
  length (Threads q') = length (Threads q) → joins j q' = joins j q.
Proof. unfold joins. by intros ->. Qed.

Lemma joins_cons j q :
  (j < length (Threads q))%nat → joins j q = AJoin j :: joins (S j) q.
Proof.
  intros Hj. unfold joins.
  replace (length (Threads q) - j)%nat with (S (length (Threads q) - S j)) by lia.
  done.
Qed.

Lemma joins_nil j q : (length (Threads q) <= j)%nat → joins j q = [].
Proof.
  intros Hj. unfold joins.
  by replace (length (Threads q) - j)%nat with 0%nat by lia.
Qed.

Lemma Sync_0 q : Sync Sync_default q = joins 0 q.
Proof.
  unfold Sync, Sync_default, joins, Threads_size.
  destruct (Z.leb_spec 0 (Z.of_nat (length (Threads q)))); [|lia]. done.
Qed.

Lemma Threads_set_Threads ts q : Threads (set_Threads ts q) = ts.
Proof. done. Qed.

Lemma set_thread_NumberOfThreads pos t q :
  NumberOfThreads (set_thread pos t q) = NumberOfThreads q.
Proof. done. Qed.

Lemma joins_set_Threads j ts q :
  length ts = length (Threads q) → joins j (set_Threads ts q) = joins j q.
Proof. intros H. by apply joins_same. Qed.

Lemma set_thread_Locked pos t q : Locked (set_thread pos t q) = Locked q.
Proof. done. Qed.

Lemma set_thread_halted pos t q : halted (set_thread pos t q) = halted q.
Proof. done. Qed.

Lemma set_thread_Threads pos t q :
  Threads (set_thread pos t q) = <[pos := t]> (Threads q).
Proof. done. Qed.

Lemma internal_not_call l : internal l = true → is_call l = false.
Proof. by destruct l. Qed.

Lemma internal_no_call (ls : list (Label Invoker)) :
  forallb internal ls = true → existsb is_call ls = false.
Proof.
  induction ls as [|l ls IH]; simpl; [done|].
  intros [Hl Hls]%andb_true_iff. by rewrite (IH Hls), (internal_not_call l Hl).
Qed.

Lemma released_OnHold ThreadId q : released q ThreadId = true → OnHold ThreadId q = false.
Proof.
  unfold released. intros [Hh|Hn%Z.leb_le]%orb_true_iff.
  - by apply halted_OnHold.
  - unfold OnHold. by destruct (Z.ltb_spec ThreadId (NumberOfThreads q)); [lia|].
Qed.

Lemma ThreadWorker_step_released ThreadId st q st' q' invs :
  released q ThreadId = true →
  ThreadWorker_step ThreadId st q = Some (st', q', invs) → st' ≠ Waiting.
Proof.
  intros Hr Hs ->. apply released_OnHold in Hr.
  apply ThreadWorker_step_inv in Hs as [(_ & _ & HW & _)|(inv & _ & [=] & _)].
  rewrite (HW eq_refl) in Hr. done.
Qed.

(** The store releases the threads that are to be joined. *)
Lemma releasing_exec s from q :
  releasing s from q →
  ∃ q', exec s q = Steps q' ∧ all_released from q' ∧ Locked q' = Locked q
        ∧ Threads q' = Threads q.
Proof.
  destruct s as [| |[]|[]|n| | | | | |]; simpl; try done; intros Hrel;
    eexists; (split; [reflexivity|]); (split; [|done]);
    intros pos ThreadId st Hpos Hl; unfold released, halted; simpl.
  - done.
  - by rewrite orb_true_r.
  - apply orb_true_iff. right. apply Z.leb_le. eauto.
Qed.

Lemma moved_insert q pos ThreadId st st' pos' t' :
  Threads q !! pos = Some (Joinable ThreadId st) →
  (released q ThreadId = true → st' ≠ Waiting) →
  <[pos := Joinable ThreadId st']> (Threads q) !! pos' = Some t' →
  ∃ t, Threads q !! pos' = Some t ∧ moved q t t'.
Proof.
  intros Hpos HW [(<- & <- & _)|[_ H]]%list_lookup_insert_Some.
  - eexists. split; [exact Hpos|]. right. eauto 10.
  - eexists. split; [exact H|]. by left.
Qed.

(** Other threads move, invokers are submitted: the shutdown goes on as
    before. *)
Lemma Shutdown_frame s from tail w q' invoked :
  Shutdown s from tail w →
  Locked q' = Locked (Q w) → halted q' = halted (Q w) →
  NumberOfThreads q' = NumberOfThreads (Q w) →
  length (Threads q') = length (Threads (Q w)) →
  (∀ pos t', Threads q' !! pos = Some t' →
     ∃ t, Threads (Q w) !! pos = Some t ∧ moved (Q w) t t') →
  Shutdown s from tail (mkWorld q' (Admin w) invoked).
Proof.
  intros HS HL Hh HN Hlen Hmoved.
  assert (∀ j, joins j q' = joins j (Q w)) as Hjoins
    by (intros j; by apply joins_same).
  assert (∀ ThreadId, released q' ThreadId = released (Q w) ThreadId) as Hrel
    by (intros ThreadId; unfold released; by rewrite Hh, HN).
  assert (all_released from (Q w) → all_released from q') as Hall.
  { intros Hall pos ThreadId st Hpos Hl. rewrite Hrel.
    destruct (Hmoved _ _ Hl) as (t & Ht & [<-|(id & st0 & st1 & -> & E & _)]);
      [eauto|]. injection E as -> ->. eauto. }
  assert (releasing s from (Q w) → releasing s from q') as Hreleasing.
  { destruct s as [| |[]|[]|n| | | | | |]; simpl; try done.
    intros Hr pos ThreadId st Hpos Hl.
    destruct (Hmoved _ _ Hl) as (t & Ht & [<-|(id & st0 & st1 & -> & E & _)]);
      [eauto|]. injection E as -> ->. eauto. }
  destruct HS as [(Hfrom & Hj & Hph)|(j & HA & Hle & HLk & Hrl & Hts)].
  - left. split; [cbn [Q]; by rewrite Hlen|]. split.
    + cbn [Q]. intros pos t' Hpos Hl.
      destruct (Hmoved _ _ Hl) as (t & Ht & [->|(id & st0 & st1 & -> & -> & _)]);
        eauto.
    + cbn [Q Admin]. rewrite Hjoins, HL.
      destruct Hph as [(?&?&?)|[(?&?&?)|[(?&?&?)|(?&?&?)]]]; auto 10.
  - right. exists j. unfold Joining. cbn [Q Admin].
    rewrite Hjoins, Hlen, HL.
    split; [done|]. split; [done|]. split; [done|]. split; [auto|].
    intros pos t' Hpos Hl.
    destruct (Hmoved _ _ Hl) as (t & Ht & Hm). specialize (Hts _ _ Hpos Ht).
    destruct Hm as [->|(id & st0 & st1 & -> & -> & HW)]; [done|].
    case_decide; [done|]. split; [done|].
    specialize (HW (Hrl _ _ _ Hpos Ht)). by destruct st1.
Qed.

(** The administrative thread performs its next action: the shutdown
    moves on, until the joins are done and [tail] is what is left. *)
Lemma Shutdown_admin s from tail w a rest q' :
  Shutdown s from tail w →
  Admin w = a :: rest → exec a (Q w) = Steps q' →
  Shutdown s from tail (mkWorld q' rest (Invoked w)) ∨ tail = a :: rest.
Proof.
  intros HS HA He.
  destruct HS as [(Hfrom & Hj & Hph)|(j & HAj & Hle & HLk & Hrl & Hts)].
  - left.
    destruct Hph as [(E & HL & Hr)|[(E & HL & Hr)|[(E & HL & Hr)|(E & HL & Hr)]]];
      rewrite E in HA; injection HA as <- <-.
    + simpl in He. rewrite HL in He. injection He as <-.
      left. split; [done|]. split; [done|]. right. left. done.
    + destruct (releasing_exec s from (Q w) Hr) as (q1 & He1 & Hall1 & HL1 & HT1).
      rewrite He1 in He. injection He as <-.
      left. unfold Signalling. cbn [Q Admin].
      rewrite (joins_same _ (Q w) q1) by (by rewrite HT1). rewrite HT1, HL1.
      split; [done|]. split; [done|]. right. right. left. done.
    + simpl in He. injection He as <-.
      left. split; [done|]. split; [done|]. right. right. right. done.
    + simpl in He. injection He as <-.
      right. exists from. unfold Joining. cbn [Q Admin].
      rewrite joins_set_Threads by apply length_fmap.
      rewrite Threads_set_Threads, length_fmap.
      split; [done|]. split; [lia|]. split; [done|]. split.
      * intros pos ThreadId st Hpos. rewrite Threads_set_Threads, list_lookup_fmap.
        destruct (Threads (Q w) !! pos) as [t0|] eqn:Hp; [|done].
        intros [= Ht]. destruct t0 as [|id0 st0]; [done|].
        assert (id0 = ThreadId) as -> by (destruct st0; by injection Ht).
        exact (Hr _ _ _ Hpos Hp).
      * intros pos t Hpos. rewrite list_lookup_fmap.
        destruct (Threads (Q w) !! pos) as [t0|] eqn:Hp; [|done].
        intros [= <-]. case_decide; [lia|]. specialize (Hj _ _ Hpos Hp).
        destruct t0 as [|? []]; done.
  - destruct (decide (j < length (Threads (Q w)))%nat) as [Hlt|Hge].
    + left. rewrite HAj, (joins_cons _ _ Hlt) in HA. injection HA as <- <-.
      simpl in He.
      destruct (Threads (Q w) !! j) as [[|ThreadId []]|] eqn:Hposj; try discriminate.
      injection He as <-.
      right. exists (S j). unfold Joining. cbn [Q Admin].
      rewrite joins_set_Threads by apply length_insert.
      rewrite Threads_set_Threads, length_insert.
      split; [done|]. split; [lia|]. split; [done|]. split.
      * intros pos ThreadId' st Hpos. rewrite Threads_set_Threads.
        intros [(_ & [=] & _)|[_ H]]%list_lookup_insert_Some.
        exact (Hrl _ _ _ Hpos H).
      * intros pos t Hpos.
        intros [(<- & <- & _)|[Hne H]]%list_lookup_insert_Some.
        -- case_decide; [done|lia].
        -- specialize (Hts _ _ Hpos H). repeat case_decide; try done; lia.
    + right. rewrite HAj, joins_nil in HA by lia. done.
Qed.

Lemma ThreadWorker_step_halted ThreadId st q st' q' invs :
  ThreadWorker_step ThreadId st q = Some (st', q', invs) → halted q' = halted q.
Proof.
  intros H. apply ThreadWorker_step_frame in H as (_ & HD & HR & _).
  unfold halted. by rewrite HD, HR.
Qed.

Lemma Shutdown_step s from tail l w w' :
  Shutdown s from tail w → is_call l = false → step l w = Some w' →
  Shutdown s from tail w' ∨ ∃ a, tail = a :: Admin w'.
Proof.
  intros HS Hint H.
  destruct l as [pos|pos|invoker wake| |c]; simpl in H; try discriminate.
  - destruct (Threads (Q w) !! pos) as [[|ThreadId st]|] eqn:Hpos; try discriminate.
    destruct (ThreadWorker_step ThreadId st (Q w)) as [[[st' q'] invs]|] eqn:Hst;
      [|discriminate].
    injection H as <-. left.
    pose proof (ThreadWorker_step_halted _ _ _ _ _ _ Hst) as Hh.
    pose proof (ThreadWorker_step_frame _ _ _ _ _ _ Hst) as (HL & _ & _ & HN & HT).
    apply Shutdown_frame; try done.
    + by rewrite set_thread_Threads, length_insert, HT.
    + rewrite set_thread_Threads, HT. intros pos' t'.
      apply (moved_insert _ _ _ st); [done|].
      intros Hr. by eapply ThreadWorker_step_released.
  - destruct (Threads (Q w) !! pos) as [[|ThreadId []]|] eqn:Hpos; try discriminate.
    injection H as <-. left.
    apply Shutdown_frame; try done.
    + by rewrite set_thread_Threads, length_insert.
    + rewrite set_thread_Threads. intros pos' t'.
      by apply (moved_insert _ _ _ Waiting).
  - destruct (Locked (Q w)); [discriminate|].
    destruct (_ && _); [discriminate|]. injection H as <-. left.
    destruct (Push_frame invoker wake (Q w)) as (_ & _ & HL & HD & HR & HN & Hlen).
    apply Shutdown_frame; try done.
    + unfold halted. by rewrite HD, HR.
    + unfold Push. intros pos' t'.
      destruct (Threads (Q w) !! wake) as [[|ThreadId []]|] eqn:Hw; simpl;
        try (intros Hl; eexists; split; [exact Hl|by left]).
      by apply (moved_insert _ _ _ Waiting).
  - destruct (Admin w) as [|a rest] eqn:HA; [discriminate|].
    destruct (exec a (Q w)) as [q'| |] eqn:He; try discriminate.
    injection H as <-.
    destruct (Shutdown_admin _ _ _ _ _ _ _ HS HA He) as [?|E]; [by left|].
    right. by exists a.
Qed.

(** As long as the joins are not done the shutdown goes on; with no
    [tail] it goes on for ever. *)
Lemma Shutdown_steps s from ls w w' :
  Shutdown s from [] w → existsb is_call ls = false →
  steps ls w = Some w' → Shutdown s from [] w'.
Proof.
  revert w. induction ls as [|l ls IH]; intros w HS; simpl.
  - by intros _ [= <-].
  - intros [Hl Hls]%orb_false_iff.
    destruct (step l w) as [w1|] eqn:Hst; [|discriminate].
    destruct (Shutdown_step _ _ _ _ _ _ HS Hl Hst) as [HS1|[a E]]; [eauto|done].
Qed.

Lemma steps_Admin_nil ls : ∀ w w',
  Admin w = [] → existsb is_call ls = false → steps ls w = Some w' → Admin w' = [].
Proof.
  induction ls as [|l ls IH]; intros w w' HA; simpl.
  - by intros _ [= <-].
  - intros [Hl Hls]%orb_false_iff.
    destruct (step l w) as [w1|] eqn:Hst; [|discriminate].
    apply IH; [|done].
    destruct (step_fields _ _ _ Hl Hst) as [[EA _]|(a & _ & EA & _)]; congruence.
Qed.

(** With one action left after the joins, the shutdown goes on until
    that action has been performed. *)
Lemma Shutdown_steps_tail s from a ls : ∀ w w',
  Shutdown s from [a] w → existsb is_call ls = false →
  steps ls w = Some w' → Shutdown s from [a] w' ∨ Admin w' = [].
Proof.
  induction ls as [|l ls IH]; intros w w' HS; simpl.
  - intros _ [= <-]. by left.
  - intros [Hl Hls]%orb_false_iff.
    destruct (step l w) as [w1|] eqn:Hst; [|discriminate]. intros H.
    destruct (Shutdown_step _ _ _ _ _ _ HS Hl Hst) as [HS1|[a' E]]; [eauto|].
    right. injection E as _ E. eapply steps_Admin_nil; eauto.
Qed.

(** No deadlock: until the joins are done, the administrative thread can
    perform its next action, or the thread that it waits for can move. *)
Lemma Shutdown_progress s from tail w :
  Shutdown s from tail w →
  Progress w
  ∨ (Admin w = tail ∧ Locked (Q w) = false
     ∧ ∀ pos t, (from <= pos)%nat → Threads (Q w) !! pos = Some t → t = NotJoinable).
Proof.
  intros [(Hfrom & Hj & Hph)|(j & HAj & Hle & HLk & Hrl & Hts)].
  - left. exists LAdmin. simpl.
    destruct Hph as [(E & HL & Hr)|[(E & HL & Hr)|[(E & HL & Hr)|(E & HL & Hr)]]];
      rewrite E; simpl.
    + rewrite HL. eauto.
    + destruct (releasing_exec s from (Q w) Hr) as (q1 & -> & _). eauto.
    + eauto.
    + eauto.
  - destruct (decide (j < length (Threads (Q w)))%nat) as [Hlt|Hge].
    + left. destruct (lookup_lt_is_Some_2 _ _ Hlt) as [t Hpos].
      pose proof (Hts _ _ (proj1 Hle) Hpos) as Ht. case_decide; [lia|].
      destruct Ht as [Ht1 Ht2].
      destruct t as [|ThreadId st]; [done|].
      assert (Admin w = AJoin j :: joins (S j) (Q w) ++ tail) as HA
        by (by rewrite HAj, (joins_cons _ _ Hlt)).
      destruct st; try done.
      * exists (LWorker j). simpl. rewrite Hpos. simpl. rewrite HLk.
        destruct (Pop ThreadId (Q w)); eauto 10.
      * exists (LWorker j). simpl. rewrite Hpos. simpl. rewrite HLk.
        destruct (Pop ThreadId (Q w)); eauto 10.
      * exists (LWorker j). simpl. rewrite Hpos. simpl. eauto 10.
      * exists LAdmin. simpl. rewrite HA. simpl. rewrite Hpos. eauto.
    + right. rewrite HAj, joins_nil by lia. split; [done|]. split; [done|].
      intros pos t Hpos Hl. specialize (Hts _ _ Hpos Hl).
      apply lookup_lt_Some in Hl. case_decide; [done|lia].
Qed.

(** When the call has no action left, the mutex is free and every thread
    has been joined. *)
Lemma Shutdown_done s from w :
  Shutdown s from [] w → Admin w = [] →
  Locked (Q w) = false
  ∧ ∀ pos t, (from <= pos)%nat → Threads (Q w) !! pos = Some t → t = NotJoinable.
Proof.
  intros HS HA. destruct (Shutdown_progress _ _ _ _ HS) as [(l & w' & Hs & Hl)|(_ & ?)];
    [|done].
  exfalso. destruct Hl as [->|(j & rest & E & _)]; [|congruence].
  simpl in Hs. by rewrite HA in Hs.
Qed.

(** Once the pool is halted it stays halted until the call is over. *)
Lemma Shutdown_halted s from l w w' :
  halting_store s → Shutdown s from [] w → halted (Q w) = true →
  internal l = true → step l w = Some w' → halted (Q w') = true.
Proof.
  intros Hs HS Hh Hint H.
  destruct l as [pos|pos|invoker wake| |c]; simpl in H; try discriminate.
  - destruct (Threads (Q w) !! pos) as [[|ThreadId st]|] eqn:Hpos; try discriminate.
    destruct (ThreadWorker_step ThreadId st (Q w)) as [[[st' q'] invs]|] eqn:Hst;
      [|discriminate].
    injection H as <-. cbn [Q]. rewrite set_thread_halted.
    by rewrite (ThreadWorker_step_halted _ _ _ _ _ _ Hst).
  - repeat case_match; try discriminate. by injection H as <-.
  - destruct (Admin w) as [|a rest] eqn:HA; [discriminate|].
    destruct (exec a (Q w)) as [q'| |] eqn:He; try discriminate.
    injection H as <-. cbn [Q].
    destruct (stores_flag a) eqn:Hsf.
    + destruct HS as [(Hfrom & Hj & Hph)|(j & HAj & Hle & HLk & Hrl & Hts)].
      * destruct Hph as [(E & _)|[(E & _)|[(E & _)|(E & _)]]];
          rewrite E in HA; injection HA as <- <-; try discriminate.
        destruct Hs as [-> | ->]; simpl in He; injection He as <-;
          unfold halted; simpl; by rewrite ?orb_true_r.
      * rewrite app_nil_r in HAj.
        destruct (decide (j < length (Threads (Q w)))%nat) as [Hlt|Hge].
        -- rewrite HAj, (joins_cons _ _ Hlt) in HA. injection HA as <- <-. done.
        -- rewrite HAj, joins_nil in HA by lia. done.
    + destruct (exec_flags _ _ _ Hsf He) as [HR HD]. unfold halted in *.
      by rewrite HR, HD.
Qed.

(** Termination: from a halted pool that is shutting down, every
    execution of its threads is finite, bounded by the measure. *)
Lemma Shutdown_bounded s from ls w w' :
  halting_store s → Shutdown s from [] w → halted (Q w) = true →
  forallb internal ls = true → steps ls w = Some w' →
  (length ls + measure w' <= measure w)%nat.
Proof.
  intros Hs. revert w. induction ls as [|l ls IH]; intros w HS Hh; simpl.
  - intros _ [= <-]. lia.
  - intros [Hl Hls]%andb_true_iff.
    destruct (step l w) as [w1|] eqn:Hst; [|discriminate]. intros H.
    pose proof (measure_decreases _ _ _ Hh Hl Hst).
    pose proof (Shutdown_halted _ _ _ _ _ Hs HS Hh Hl Hst) as Hh1.
    destruct (Shutdown_step _ _ _ _ _ _ HS (internal_not_call _ Hl) Hst)
      as [HS1|[a E]]; [|done].
    specialize (IH _ HS1 Hh1 Hls H). lia.
Qed.

End Halting.

(** ** Shrinking *)

Section Shrinking.

Context {Invoker : Type}.
Local Abbreviation Queue := (vtkThreadedCallbackQueue Invoker).
Implicit Types (q : Queue) (w : World Invoker) (l : Label Invoker).

Lemma SetNumberOfThreads_shrink n q :
  Running q = true → 0 <= n < Threads_size q → Threads_size q < 2 ^ 31 →
  SetNumberOfThreads_body n q =
    [ALock; AStoreNumberOfThreads n; AUnlock; ANotifyAll]
    ++ (AJoin <$> seq (Z.to_nat n) (length (Threads q) - Z.to_nat n))
    ++ [AResize n].
Proof.
  intros HR Hn Hs. unfold SetNumberOfThreads_body, Sync.
  rewrite to_int_small by lia.
  destruct (Z.eqb_spec (Threads_size q) n); [lia|].
  destruct (Z.ltb_spec (Threads_size q) n); [lia|].
  rewrite HR. simpl.
  destruct (Z.leb_spec 0 n); [|lia].
  destruct (Z.leb_spec n (Threads_size q)); [|lia]. done.
Qed.

Lemma foldl_store_shrink n (positions : list nat) (v : AdminFields) :
  foldl store v ([ALock; AStoreNumberOfThreads n; AUnlock; ANotifyAll]
                 ++ (AJoin <$> positions) ++ [AResize n])
  = mkFields (fRunning v) (fDestroying v) n (Z.to_nat n).
Proof. rewrite !foldl_app, foldl_store_joins. done. Qed.

(** *** The shrinking call returns *)

Lemma target_weight_le w : (target_weight w <= 3)%nat.
Proof. unfold target_weight. repeat case_match; lia. Qed.

Lemma forallb_drop_NotJoinable from (ts : list (thread Invoker)) :
  (∀ pos t, (from <= pos)%nat → ts !! pos = Some t → t = NotJoinable) →
  forallb (λ t, negb (joinable t)) (drop from ts) = true.
Proof.
  intros Hall. apply forallb_forall. intros t Hin.
  apply list_elem_of_In, list_elem_of_lookup in Hin as [i Hi].
  rewrite lookup_drop in Hi. rewrite (Hall (from + i)%nat t); [done|lia|done].
Qed.

(** A thread that is out of range returns at its next pass through
    [Pop]. *)
Lemma out_of_range_returns ThreadId st q :
  NumberOfThreads q <= ThreadId → Locked q = false →
  st = Ready ∨ st = Notified →
  ThreadWorker_step ThreadId st q = Some (Returned, q, []).
Proof.
  intros Hid HL Hst.
  assert (OnHold ThreadId q = false) as HO
    by (unfold OnHold; by destruct (Z.ltb_spec ThreadId (NumberOfThreads q)); [lia|]).
  assert (Continue ThreadId q = false) as HC
    by (unfold Continue; by destruct (Z.ltb_spec ThreadId (NumberOfThreads q)); [lia|]).
  destruct Hst as [-> | ->]; simpl; by rewrite HL, (Pop_false _ _ HO HC).
Qed.

(** When the pool is not halted, the step that [Progress] offers brings
    the call closer to its end. *)
Lemma Progress_step_decreases s from tail l w w' :
  Shutdown s from tail w → halted (Q w) = false →
  (∀ j rest, tail ≠ AJoin j :: rest) →
  step l w = Some w' →
  l = LAdmin ∨ (∃ j rest, Admin w = AJoin j :: rest ∧ l = LWorker j) →
  (call_measure w' < call_measure w)%nat.
Proof.
  intros HS Hh Htail Hs [->|(j & rest & HA & ->)]; unfold call_measure.
  - simpl in Hs. destruct (Admin w) as [|a rest']; [discriminate|].
    destruct (exec a (Q w)) as [q1| |]; try discriminate. injection Hs as <-.
    pose proof (target_weight_le {| Q := q1; Admin := rest'; Invoked := Invoked w |}).
    simpl in *. lia.
  - destruct HS as [(_ & _ & Hph)|(j' & HAj & Hle & HLk & Hrl & Hts)].
    { destruct Hph as [(E & _ & Hr)|[(E & _ & Hr)|[(E & _)|(E & _)]]];
        rewrite E in HA; injection HA as E1 _; try discriminate.
      subst s. destruct Hr. }
    assert (j' = j) as ->.
    { destruct (decide (j' < length (Threads (Q w)))%nat) as [Hlt|Hge].
      - rewrite HAj, (joins_cons _ _ Hlt) in HA. by injection HA as -> _.
      - rewrite HAj, joins_nil in HA by lia. by destruct (Htail j rest). }
    simpl in Hs.
    destruct (Threads (Q w) !! j) as [[|ThreadId st]|] eqn:Hpos; try discriminate.
    destruct (ThreadWorker_step ThreadId st (Q w)) as [[[st' q'] invs]|] eqn:Hst;
      [|discriminate].
    injection Hs as <-.
    pose proof (ThreadWorker_step_frame _ _ _ _ _ _ Hst) as (_ & _ & _ & _ & HT).
    pose proof (Hts _ _ (proj1 Hle) Hpos) as Ht. case_decide; [lia|].
    destruct Ht as [_ Hnw].
    assert (NumberOfThreads (Q w) <= ThreadId) as Hid.
    { pose proof (Hrl _ _ _ (proj1 Hle) Hpos) as Hr. unfold released in Hr.
      rewrite Hh in Hr. by apply Z.leb_le in Hr. }
    assert (target_weight
              {| Q := set_thread j (Joinable ThreadId st') q'; Admin := Admin w;
                 Invoked := Invoked w ++ invs |}
            < target_weight w)%nat; [|simpl; lia].
    unfold target_weight. cbn [Admin Q]. rewrite HA, set_thread_Threads, HT, Hpos.
    rewrite list_lookup_insert_eq by (by eapply lookup_lt_Some).
    destruct st; try done.
    + rewrite (out_of_range_returns ThreadId Ready (Q w)) in Hst by auto.
      injection Hst as <- _ _. lia.
    + rewrite (out_of_range_returns ThreadId Notified (Q w)) in Hst by auto.
      injection Hst as <- _ _. lia.
    + simpl in Hst. injection Hst as <- _ _. lia.
Qed.

(** While no action stores to a flag, the pool stays as halted as it
    is. *)
Lemma step_halted_same l w w' :
  forallb (λ a, negb (stores_flag a)) (Admin w) = true →
  is_call l = false → step l w = Some w' →
  halted (Q w') = halted (Q w)
  ∧ forallb (λ a, negb (stores_flag a)) (Admin w') = true.
Proof.
  intros Hq Hc Hs.
  destruct (step_fields _ _ _ Hc Hs) as [[EA EF]|(a & _ & EA & He)].
  - rewrite EA. split; [|done]. unfold fields in EF. injection EF as ER ED _ _.
    unfold halted. by rewrite ER, ED.
  - rewrite EA in Hq. simpl in Hq. apply andb_true_iff in Hq as [Ha Hrest].
    split; [|done]. apply negb_true_iff in Ha.
    destruct (exec_flags _ _ _ Ha He) as [ER ED]. unfold halted. by rewrite ER, ED.
Qed.

(** Enough steps carry the call to its end: the administrative thread
    performs its actions, and each thread it joins, being out of service,
    returns after at most two steps. *)
Lemma Shutdown_completes s from n (m : nat) : ∀ w,
  (call_measure w <= m)%nat →
  Shutdown s from [AResize n] w ∨ Admin w = [] →
  halted (Q w) = false →
  forallb (λ a, negb (stores_flag a)) (Admin w) = true →
  n = Z.of_nat from →
  ∃ ls w', forallb internal ls = true ∧ steps ls w = Some w' ∧ Admin w' = [].
Proof.
  induction m as [|m IH]; intros w Hm HS Hh Hq Hn.
  - exists [], w. repeat split. unfold call_measure in Hm.
    destruct (Admin w); [done|simpl in Hm; lia].
  - destruct HS as [HS|HA]; [|by exists [], w].
    assert (∃ l w1, step l w = Some w1
              ∧ (l = LAdmin ∨ ∃ j rest, Admin w = AJoin j :: rest ∧ l = LWorker j))
      as (l & w1 & Hs & Hl).
    { destruct (Shutdown_progress _ _ _ _ HS) as [HP|(HA & HL & Hall)]; [exact HP|].
      exists LAdmin. simpl. rewrite HA. simpl.
      destruct (Z.ltb_spec n 0); [lia|].
      rewrite Hn, Nat2Z.id, (forallb_drop_NotJoinable _ _ Hall). eauto. }
    assert (internal l = true) as Hint
      by (destruct Hl as [->|(? & ? & _ & ->)]; done).
    pose proof (Progress_step_decreases _ _ _ _ _ _ HS Hh ltac:(done) Hs Hl) as Hdec.
    destruct (step_halted_same _ _ _ Hq (internal_not_call _ Hint) Hs) as [Hh1 Hq1].
    destruct (IH w1) as (ls & w' & Hls & Hsteps & HA'); try done; [lia| |congruence|].
    { destruct (Shutdown_step _ _ _ _ _ _ HS (internal_not_call _ Hint) Hs)
        as [?|[a E]]; [by left|]. right. by injection E as _ <-. }
    exists (l :: ls), w'. simpl. rewrite Hint, Hls, Hs. done.
Qed.

(** The shrinking branch is a shutdown of the threads of the handles from
    position [n] on, when these threads have ids that are [n] or more. *)
Lemma Shrink_Shutdown n w :
  Running (Q w) = true → 0 <= n < Threads_size (Q w) →
  Threads_size (Q w) < 2 ^ 31 → Locked (Q w) = false →
  (∀ pos t, (Z.to_nat n <= pos)%nat → Threads (Q w) !! pos = Some t →
     ∃ ThreadId st, t = Joinable ThreadId st ∧ n <= ThreadId) →
  Admin w = SetNumberOfThreads_body n (Q w) →
  Shutdown (AStoreNumberOfThreads n) (Z.to_nat n) [AResize n] w.
Proof.
  intros HR Hn Hs HL Hids HA. left.
  split; [unfold Threads_size in Hn; lia|]. split.
  { intros pos t Hpos Hl. by destruct (Hids _ _ Hpos Hl) as (? & ? & -> & _). }
  left. split; [by rewrite HA, SetNumberOfThreads_shrink|]. split; [done|].
  intros pos ThreadId st Hpos Hl.
  by destruct (Hids _ _ Hpos Hl) as (? & ? & [= <- <-] & ?).
Qed.

(** So the call does not deadlock, and enough steps carry it to its
    end. *)
Lemma shrink_returns n w0 :
  Running (Q w0) = true → 0 <= n < Threads_size (Q w0) →
  Threads_size (Q w0) < 2 ^ 31 → Locked (Q w0) = false →
  Destroying (Q w0) = false →
  (∀ pos t, (Z.to_nat n <= pos)%nat → Threads (Q w0) !! pos = Some t →
     ∃ ThreadId st, t = Joinable ThreadId st ∧ n <= ThreadId) →
  Admin w0 = SetNumberOfThreads_body n (Q w0) →
  (∀ ls w, existsb is_call ls = false → steps ls w0 = Some w →
     Admin w ≠ [] → Progress w)
  ∧ ∃ ls w, forallb internal ls = true ∧ steps ls w0 = Some w ∧ Admin w = [].
Proof.
  intros HR Hn Hs HL HD Hids HA.
  pose proof (Shrink_Shutdown n w0 HR Hn Hs HL Hids HA) as HS0.
  split.
  - intros ls w Hls Hsteps HAw.
    destruct (Shutdown_steps_tail _ _ _ _ _ _ HS0 Hls Hsteps) as [HS|?]; [|done].
    destruct (Shutdown_progress _ _ _ _ HS) as [HP|(E & HLw & Hall)]; [exact HP|].
    exists LAdmin. simpl. rewrite E. simpl.
    destruct (Z.ltb_spec n 0); [lia|].
    rewrite (forallb_drop_NotJoinable _ _ Hall). eauto.
  - apply (Shutdown_completes (AStoreNumberOfThreads n) (Z.to_nat n) n
             (call_measure w0)); try done.
    + by left.
    + unfold halted. by rewrite HR, HD.
    + rewrite HA. apply stores_flag_SetNumberOfThreads.
    + lia.
Qed.

End Shrinking.

(** ** Destruction drains the queue *)

Section Draining.

Context {Invoker : Type}.
Local Abbreviation Queue := (vtkThreadedCallbackQueue Invoker).
Implicit Types (q : Queue) (w : World Invoker) (l : Label Invoker)
  (t : thread Invoker) (ts : list (thread Invoker)).

Lemma exec_quiet a q q' :
  quiet a = true → exec a q = Steps q' →
  Running q' = Running q ∧ NumberOfThreads q' = NumberOfThreads q
  ∧ InvokerQueue q' = InvokerQueue q
  ∧ ∀ pos ThreadId st, Threads q !! pos = Some (Joinable ThreadId st) →
      st ≠ Returned →
      ∃ st', Threads q' !! pos = Some (Joinable ThreadId st') ∧ st' ≠ Returned.
Proof.
  destruct a; simpl; try discriminate; intros _ H; repeat case_match; simplify_eq;
    simpl; repeat split; try done; intros pos' ThreadId' st' Hpos Hst; eauto.
  - rewrite list_lookup_fmap, Hpos. simpl. destruct st'; eauto.
  - destruct (decide (pos = pos')) as [->|Hne]; [congruence|].
    rewrite list_lookup_insert_ne by done. eauto.
Qed.

Lemma Serving_keep q q' :
  Serving q → NumberOfThreads q' = NumberOfThreads q →
  (∀ pos ThreadId st, Threads q !! pos = Some (Joinable ThreadId st) →
     st ≠ Returned →
     ∃ st', Threads q' !! pos = Some (Joinable ThreadId st') ∧ st' ≠ Returned) →
  Serving q'.
Proof.
  intros (pos & ThreadId & st & Hpos & Hid & Hst) HN Hkeep.
  destruct (Hkeep _ _ _ Hpos Hst) as (st' & Hpos' & Hst').
  exists pos, ThreadId, st'. rewrite HN. done.
Qed.

(** A thread of a running pool that is in service returns only from an
    empty queue. *)
Lemma returns_from_empty ThreadId q :
  Running q = true → ThreadId < NumberOfThreads q →
  OnHold ThreadId q = false → Continue ThreadId q = false → InvokerQueue q = [].
Proof.
  intros HR Hid HO HC.
  destruct (proj1 (leaves_loop_iff _ _) (conj HO HC)) as [?|[?|[_ ?]]];
    [congruence|lia|done].
Qed.

Lemma Draining_step l w w' :
  Draining w → internal l = true → step l w = Some w' → Draining w'.
Proof.
  intros (HR & Hq & HD) Hint H.
  destruct l as [pos|pos|invoker wake| |c]; simpl in H; try discriminate.
  - destruct (Threads (Q w) !! pos) as [[|ThreadId st]|] eqn:Hpos; try discriminate.
    destruct (ThreadWorker_step ThreadId st (Q w)) as [[[st' q'] invs]|] eqn:Hst;
      [|discriminate].
    injection H as <-.
    pose proof (ThreadWorker_step_frame _ _ _ _ _ _ Hst) as (_ & _ & HR' & HN & HT).
    unfold Draining. cbn [Q Admin]. split; [by rewrite <- HR|]. split; [done|].
    destruct HD as [(p & id & s0 & Hp & Hid & Hs0)|HE].
    + destruct (decide (p = pos)) as [->|Hp'].
      * rewrite Hpos in Hp. injection Hp as <- <-.
        assert (Threads (set_thread pos (Joinable ThreadId st') q') !! pos
                = Some (Joinable ThreadId st')) as Hnew.
        { rewrite set_thread_Threads, HT.
          apply list_lookup_insert_eq. by eapply lookup_lt_Some. }
        apply ThreadWorker_step_inv in Hst
          as [(_ & -> & _ & Hret & _)|(inv & _ & -> & _)].
        -- destruct st'.
           5: { right. destruct (Hret eq_refl) as [HO HC].
                by apply (returns_from_empty ThreadId). }
           all: left; exists pos, ThreadId; eexists; split; [exact Hnew|done].
        -- left. exists pos, ThreadId; eexists; split; [exact Hnew|].
           rewrite set_thread_NumberOfThreads, HN. done.
      * left. exists p, id, s0.
        rewrite set_thread_Threads, set_thread_NumberOfThreads, HT, HN.
        rewrite list_lookup_insert_ne by done. done.
    + right. apply ThreadWorker_step_inv in Hst
        as [(_ & -> & _)|(inv & _ & _ & _ & _ & HQ & _)]; [done|congruence].
  - destruct (Threads (Q w) !! pos) as [[|ThreadId []]|] eqn:Hpos; try discriminate.
    injection H as <-.
    unfold Draining. cbn [Q Admin]. split; [done|]. split; [done|].
    destruct HD as [HS|HE]; [left|by right].
    apply (Serving_keep (Q w)); [done|done|].
    intros p id s0 Hp Hs0. rewrite set_thread_Threads.
    destruct (decide (p = pos)) as [->|Hp'].
    + rewrite Hpos in Hp. injection Hp as <- <-.
      rewrite list_lookup_insert_eq by (by eapply lookup_lt_Some). eauto.
    + rewrite list_lookup_insert_ne by done. eauto.
  - destruct (Admin w) as [|a rest] eqn:HA; [discriminate|].
    destruct (exec a (Q w)) as [q'| |] eqn:He; try discriminate.
    injection H as <-. simpl in Hq. apply andb_true_iff in Hq as [Ha Hrest].
    destruct (exec_quiet _ _ _ Ha He) as (HR' & HN & HQ & Hkeep).
    unfold Draining. cbn [Q Admin]. split; [congruence|]. split; [done|].
    destruct HD as [HS|HE]; [left|right; congruence].
    by apply (Serving_keep (Q w)).
Qed.

Lemma Draining_steps ls w w' :
  Draining w → forallb internal ls = true → steps ls w = Some w' → Draining w'.
Proof.
  revert w. induction ls as [|l ls IH]; intros w HD; simpl.
  - by intros _ [= <-].
  - intros [Hl Hls]%andb_true_iff.
    destruct (step l w) as [w1|] eqn:Hst; [|discriminate].
    eauto using Draining_step.
Qed.

Lemma quiet_joins (positions : list nat) : forallb quiet (AJoin <$> positions) = true.
Proof. induction positions; simpl; auto. Qed.

Lemma quiet_Destructor q : forallb quiet (Destructor_actions q) = true.
Proof.
  unfold Destructor_actions. case_match; [|done]. rewrite Sync_0. simpl.
  apply quiet_joins.
Qed.

(** Under [Destroying] a thread in service still pops the head of the
    queue. *)
Lemma pops_while_destroying w pos ThreadId st invoker rest :
  Threads (Q w) !! pos = Some (Joinable ThreadId st) →
  st = Ready ∨ st = Notified →
  Locked (Q w) = false → Running (Q w) = true →
  ThreadId < NumberOfThreads (Q w) → InvokerQueue (Q w) = invoker :: rest →
  ∃ w', step (LWorker pos) w = Some w'
    ∧ Invoked w' = Invoked w ++ [invoker]
    ∧ InvokerQueue (Q w') = rest
    ∧ Destroying (Q w') = Destroying (Q w)
    ∧ Threads (Q w') !! pos = Some (Joinable ThreadId (Invoking invoker)).
Proof.
  intros Hpos Hst HL HR Hid HQ.
  assert (Continue ThreadId (Q w) = true) as HC.
  { apply Continue_true. rewrite HQ. done. }
  destruct (Pop_true _ _ HC) as (inv & rest' & HQ' & HP).
  rewrite HQ in HQ'. injection HQ' as <- <-.
  eexists. simpl. rewrite Hpos.
  assert (ThreadWorker_step ThreadId st (Q w)
          = Some (Invoking invoker,
                  set_Empty (empty rest) (set_InvokerQueue rest (Q w)), [invoker]))
    as ->.
  { destruct Hst as [-> | ->]; simpl; by rewrite HL, HP. }
  split; [reflexivity|]. cbn [Q Invoked]. repeat split.
  rewrite set_thread_Threads. apply list_lookup_insert_eq.
  simpl. by eapply lookup_lt_Some.
Qed.

End Draining.

(** ** The destructor *)

Section Destructor.

Context {Invoker : Type}.
Local Abbreviation Queue := (vtkThreadedCallbackQueue Invoker).
Implicit Types (q : Queue) (w : World Invoker) (l : Label Invoker).

Lemma quiet_step l w w' :
  forallb quiet (Admin w) = true → internal l = true → step l w = Some w' →
  forallb quiet (Admin w') = true ∧ Running (Q w') = Running (Q w).
Proof.
  intros Hq Hint H.
  destruct l as [pos|pos|invoker wake| |c]; simpl in H; try discriminate.
  - destruct (Threads (Q w) !! pos) as [[|ThreadId st]|]; try discriminate.
    destruct (ThreadWorker_step ThreadId st (Q w)) as [[[st' q'] invs]|] eqn:Hst;
      [|discriminate].
    injection H as <-. split; [done|].
    by apply ThreadWorker_step_frame in Hst as (_ & _ & ? & _).
  - repeat case_match; try discriminate. by injection H as <-.
  - destruct (Admin w) as [|a rest]; [discriminate|].
    destruct (exec a (Q w)) as [q'| |] eqn:He; try discriminate.
    injection H as <-. simpl in Hq. apply andb_true_iff in Hq as [Ha Hrest].
    split; [done|]. by destruct (exec_quiet _ _ _ Ha He) as (? & _).
Qed.

Lemma quiet_steps ls w w' :
  forallb quiet (Admin w) = true → forallb internal ls = true →
  steps ls w = Some w' → Running (Q w') = Running (Q w).
Proof.
  revert w. induction ls as [|l ls IH]; intros w Hq; simpl.
  - by intros _ [= <-].
  - intros [Hl Hls]%andb_true_iff.
    destruct (step l w) as [w1|] eqn:Hst; [|discriminate]. intros H.
    destruct (quiet_step _ _ _ Hq Hl Hst) as [Hq1 <-]. eauto.
Qed.

Lemma Destructor_Shutdown w :
  Running (Q w) = true → Locked (Q w) = false →
  (∀ pos t, Threads (Q w) !! pos = Some t → joinable t = true) →
  Admin w = Destructor_actions (Q w) →
  Shutdown (AStoreDestroying true) 0 [] w.
Proof.
  intros HR HL Hj HA. left. split; [lia|]. split; [eauto|]. left.
  unfold Destructor_actions in HA. rewrite HR, Sync_0 in HA.
  by rewrite app_nil_r.
Qed.

End Destructor.

(** C2, as it is stated, fails.  A new queue is started, the invoker 7 is
    submitted and the destructor runs: after the four actions that set
    [Destroying] and notify, the invoker is still pending and nothing has
    been invoked; then the worker pops it and runs it. *)
Lemma destructor_runs_pending_invoker :
  let before := [LCall (CallTask TaskStart); LAdmin; LAdmin; LPush 7%nat 0%nat;
                 LCall CallDestructor; LAdmin; LAdmin; LAdmin; LAdmin] in
  steps before (mkWorld initial [] [])
  = Some (mkWorld {| InvokerQueue := [7%nat]; Locked := false; Empty := false;
                     Destroying := true; Running := true; NumberOfThreads := 1;
                     Threads := [Joinable 0 Ready] |}
                  [AJoin 0] [])
  ∧ steps (before ++ [LWorker 0]) (mkWorld initial [] [])
    = Some (mkWorld {| InvokerQueue := []; Locked := false; Empty := true;
                       Destroying := true; Running := true; NumberOfThreads := 1;
                       Threads := [Joinable 0 (Invoking 7%nat)] |}
                    [AJoin 0] [7%nat]).
Proof. split; reflexivity. Qed.

(** ** Stop and restart *)

Section StopStart.

Context {Invoker : Type}.
Local Abbreviation Queue := (vtkThreadedCallbackQueue Invoker).
Implicit Types (q : Queue) (w : World Invoker) (l : Label Invoker)
  (t : thread Invoker) (ts : list (thread Invoker)).

(** While the pool is not running nothing is popped. *)
Lemma step_stopped l w w' :
  Running (Q w) = false → step l w = Some w' →
  Invoked w' = Invoked w
  ∧ ∃ pushed, InvokerQueue (Q w') = InvokerQueue (Q w) ++ pushed
      ∧ (internal l = true → pushed = []).
Proof.
  intros HR Hs. apply step_fifo in Hs as (popped & pushed & E1 & E2 & Hpop & Hpush).
  destruct popped as [|inv popped].
  - rewrite app_nil_r in E1. split; [done|]. exists pushed. split; [done|].
    intros Hint. destruct pushed; [done|].
    destruct Hpush as (? & ? & -> & _); done.
  - destruct Hpop as (pos & ThreadId & st & _ & _ & HC & _); [done|].
    apply Continue_true in HC as (_ & HC & _). congruence.
Qed.

(** The flag stays down as long as no action stores to it. *)
Lemma step_stays_stopped l w w' :
  Running (Q w) = false → Forall (λ a, a ≠ AStoreRunning true) (Admin w) →
  is_call l = false → step l w = Some w' →
  Running (Q w') = false ∧ Forall (λ a, a ≠ AStoreRunning true) (Admin w').
Proof.
  intros HR HF Hc H.
  destruct (step_fields _ _ _ Hc H) as [[EA EF]|(a & _ & EA & He)].
  - rewrite EA. split; [|done].
    unfold fields in EF. injection EF as -> _ _ _. done.
  - rewrite EA in HF. apply Forall_cons in HF as [Ha HF]. split; [|done].
    apply exec_fields in He.
    assert (Running (Q w') = fRunning (store (fields (Q w)) a)) as ->
      by (by rewrite <- He).
    destruct a; simpl; try done. by destruct b.
Qed.

Lemma steps_stopped ls w w' :
  Running (Q w) = false → Forall (λ a, a ≠ AStoreRunning true) (Admin w) →
  existsb is_call ls = false → steps ls w = Some w' →
  Running (Q w') = false ∧ Invoked w' = Invoked w
  ∧ ∃ pushed, InvokerQueue (Q w') = InvokerQueue (Q w) ++ pushed
      ∧ (forallb internal ls = true → pushed = []).
Proof.
  revert w. induction ls as [|l ls IH]; intros w HR HF; simpl.
  - intros _ [= <-]. repeat split; try done. exists []. by rewrite app_nil_r.
  - intros [Hl Hls]%orb_false_iff.
    destruct (step l w) as [w1|] eqn:Hst; [|discriminate]. intros H.
    destruct (step_stays_stopped _ _ _ HR HF Hl Hst) as [HR1 HF1].
    destruct (step_stopped _ _ _ HR Hst) as (EI & pushed1 & EQ & Hp1).
    destruct (IH _ HR1 HF1 Hls H) as (HR2 & EI2 & pushed2 & EQ2 & Hp2).
    split; [done|]. split; [congruence|].
    exists (pushed1 ++ pushed2). split; [by rewrite EQ2, EQ, app_assoc|].
    intros [Hi His]%andb_true_iff. by rewrite Hp1, Hp2.
Qed.

Lemma Stop_body_running q :
  Running q = true →
  Stop_body q = [ALock; AStoreRunning false; AUnlock; ANotifyAll] ++ joins 0 q.
Proof. intros HR. unfold Stop_body. by rewrite HR, Sync_0. Qed.

Lemma Stop_Shutdown w :
  Running (Q w) = true → Locked (Q w) = false →
  (∀ pos t, Threads (Q w) !! pos = Some t → joinable t = true) →
  Admin w = Stop_body (Q w) →
  Shutdown (AStoreRunning false) 0 [] w.
Proof.
  intros HR HL Hj HA. left. split; [lia|]. split; [eauto|]. left.
  rewrite Stop_body_running in HA by done. by rewrite app_nil_r.
Qed.

Lemma Forall_joins (P : Action → Prop) j q :
  (∀ pos, P (AJoin pos)) → Forall P (joins j q).
Proof.
  intros HP. unfold joins. apply Forall_fmap, Forall_forall. intros ? _. apply HP.
Qed.

(** ** Start *)

Lemma steps_run (actions rest : list Action) w q' :
  run actions (Q w) = Some q' → Admin w = actions ++ rest →
  steps (replicate (length actions) LAdmin) w = Some (mkWorld q' rest (Invoked w)).
Proof.
  revert w. induction actions as [|a actions IH]; intros w; simpl.
  - intros [= <-] <-. by destruct w.
  - destruct (exec a (Q w)) as [q1| |] eqn:He; try discriminate.
    intros Hrun HA. rewrite HA, He.
    by apply (IH (mkWorld q1 (actions ++ rest) (Invoked w))).
Qed.

Lemma run_generate prefix count suffix (id : Z) q :
  Threads q = prefix ++ replicate count NotJoinable ++ suffix →
  run (generate (length prefix) count id) q
  = Some (set_Threads
            (prefix ++ ((λ i, Joinable (id + 1 + Z.of_nat i) Ready) <$> seq 0 count)
             ++ suffix) q).
Proof.
  revert prefix id q. induction count as [|count IH]; intros prefix id q HT.
  - simpl. f_equal. destruct q; simpl in *. by rewrite HT.
  - cbn [generate run exec].
    rewrite HT at 1. rewrite replicate_S. simpl.
    rewrite list_lookup_middle by done.
    pose (q1 := set_Threads
                  (<[length prefix := Joinable (id + 1) Ready]> (Threads q)) q).
    fold q1.
    assert (Threads q1
            = (prefix ++ [Joinable (id + 1) Ready])
              ++ replicate count NotJoinable ++ suffix) as HT1.
    { unfold q1. rewrite Threads_set_Threads, HT, replicate_S. simpl.
      replace (length prefix) with (length prefix + 0)%nat at 1 by lia.
      rewrite insert_app_r. simpl. by rewrite <- app_assoc. }
    specialize (IH (prefix ++ [Joinable (id + 1) Ready]) (id + 1) q1 HT1).
    rewrite length_app in IH. simpl in IH.
    replace (length prefix + 1)%nat with (S (length prefix)) in IH by lia.
    rewrite IH. f_equal. unfold q1, set_Threads. simpl. f_equal.
    rewrite <- app_assoc. simpl. f_equal. f_equal.
    + f_equal. lia.
    + rewrite <- fmap_S_seq, <- list_fmap_compose. f_equal.
      apply list_fmap_ext. intros ? i ?. simpl. f_equal. lia.
Qed.

(** [Start] gives the thread of each handle the position of the handle as
    its id. *)
Lemma Start_run q :
  Running q = false →
  (∀ pos t, Threads q !! pos = Some t → t = NotJoinable) →
  Start_body q = AStoreRunning true :: generate 0 (length (Threads q)) (-1)
  ∧ run (Start_body q) q
    = Some (set_Threads ((λ i, Joinable (Z.of_nat i) Ready)
                           <$> seq 0 (length (Threads q)))
              (set_Running true q)).
Proof.
  intros HR Hall. unfold Start_body. rewrite HR. split; [done|].
  cbn [run exec].
  assert (Threads (set_Running true q)
          = [] ++ replicate (length (Threads q)) NotJoinable ++ []) as HT.
  { simpl. rewrite app_nil_r. symmetry. apply replicate_as_Forall_2; [done|].
    apply Forall_forall. intros t Ht.
    apply list_elem_of_lookup in Ht as [pos Hpos]. symmetry. eauto. }
  pose proof (run_generate [] _ [] (-1) _ HT) as Hrun.
  simpl in Hrun. rewrite Hrun. f_equal. f_equal.
  rewrite app_nil_r. apply list_fmap_ext. intros ? i ?. f_equal; lia.
Qed.

(** One thread in service runs a whole queue, in order. *)
Lemma worker_drains items : ∀ w pos ThreadId,
  Threads (Q w) !! pos = Some (Joinable ThreadId Ready) →
  Locked (Q w) = false → Running (Q w) = true →
  ThreadId < NumberOfThreads (Q w) → InvokerQueue (Q w) = items →
  ∃ w', steps (replicate (2 * length items) (LWorker pos)) w = Some w'
    ∧ Invoked w' = Invoked w ++ items ∧ InvokerQueue (Q w') = [].
Proof.
  induction items as [|invoker rest IH]; intros w pos ThreadId Hpos HL HR Hid HQ.
  - exists w. simpl. by rewrite app_nil_r.
  - destruct (pops_while_destroying w pos ThreadId Ready invoker rest)
      as (w1 & Hs1 & EI1 & EQ1 & _ & Hpos1); auto.
    pose proof Hs1 as Hf1. simpl in Hf1. rewrite Hpos in Hf1.
    destruct (ThreadWorker_step ThreadId Ready (Q w)) as [[[st' q'] invs]|] eqn:Hst;
      [|discriminate].
    pose proof (ThreadWorker_step_frame _ _ _ _ _ _ Hst) as (HL' & _ & HR' & HN' & HT').
    injection Hf1 as Hw1.
    assert (Locked (Q w1) = false ∧ Running (Q w1) = true
            ∧ NumberOfThreads (Q w1) = NumberOfThreads (Q w)) as (HL1 & HR1 & HN1).
    { rewrite <- Hw1. cbn [Q].
      rewrite set_thread_Locked, set_thread_NumberOfThreads.
      unfold set_thread. simpl. rewrite HL', HR', HN'. done. }
    pose (w2 := mkWorld (set_thread pos (Joinable ThreadId Ready) (Q w1))
                        (Admin w1) (Invoked w1 ++ [])).
    assert (step (LWorker pos) w1 = Some w2) as Hs2.
    { simpl. by rewrite Hpos1. }
    destruct (IH w2 pos ThreadId) as (w3 & Hs3 & EI3 & EQ3).
    { unfold w2. cbn [Q]. rewrite set_thread_Threads.
      apply list_lookup_insert_eq. by eapply lookup_lt_Some. }
    { done. } { done. } { unfold w2. cbn [Q]. by rewrite set_thread_NumberOfThreads, HN1. }
    { done. }
    exists w3. replace (2 * length (invoker :: rest))%nat
      with (S (S (2 * length rest))) by (simpl; lia).
    cbn [replicate steps]. rewrite Hs1, Hs2. split; [done|].
    split; [|done]. rewrite EI3. unfold w2. cbn [Invoked].
    rewrite app_nil_r, EI1, <- app_assoc. done.
Qed.


Lemma foldl_store_Stop (v : AdminFields) q :
  foldl store v ([ALock; AStoreRunning false; AUnlock; ANotifyAll] ++ joins 0 q)
  = mkFields false (fDestroying v) (fNumberOfThreads v) (fSize v).
Proof. unfold joins. by rewrite foldl_app, foldl_store_joins. Qed.

(** When [Start] is called on a stopped pool with at least one handle, no
    thread left, and the queue [items], there is an execution in which the
    thread of the first handle runs all of [items], in order. *)
Lemma restart_drains w :
  Admin w = [] → Running (Q w) = false → Locked (Q w) = false →
  (∀ pos t, Threads (Q w) !! pos = Some t → t = NotJoinable) →
  Threads (Q w) ≠ [] → NumberOfThreads (Q w) = Threads_size (Q w) →
  ∃ ls' w', steps (LCall (CallTask TaskStart) :: ls') w = Some w'
    ∧ Invoked w' = Invoked w ++ InvokerQueue (Q w)
    ∧ InvokerQueue (Q w') = [].
Proof.
  intros HA HR HL Hall Hne HN.
  destruct (Start_run (Q w) HR Hall) as [_ Hrun].
  set (q' := set_Threads ((λ i, Joinable (Z.of_nat i) Ready)
                            <$> seq 0 (length (Threads (Q w))))
               (set_Running true (Q w))) in *.
  set (w1 := mkWorld (Q w) (Start_body (Q w)) (Invoked w)).
  assert (step (LCall (CallTask TaskStart)) w = Some w1) as Hcall.
  { simpl. by rewrite HA. }
  assert (steps (replicate (length (Start_body (Q w))) LAdmin) w1
          = Some (mkWorld q' [] (Invoked w))) as Hstart.
  { apply (steps_run (Start_body (Q w)) [] w1); [done|]. by rewrite app_nil_r. }
  destruct (worker_drains (InvokerQueue (Q w)) (mkWorld q' [] (Invoked w)) 0%nat 0)
    as (w' & Hdrain & EI & EQ); try done.
  { unfold q'. cbn [Q]. rewrite Threads_set_Threads.
    destruct (Threads (Q w)); [done|]. done. }
  { unfold q'. cbn [Q]. simpl. rewrite HN. unfold Threads_size.
    destruct (Threads (Q w)); [done|]. simpl. lia. }
  eexists _, w'. cbn [steps]. rewrite Hcall.
  rewrite steps_app, Hstart. simpl. split; [exact Hdrain|]. done.
Qed.

(** A pool with no thread handle never invokes anything, as long as no
    administrative call is made. *)
Lemma no_threads_no_invocation ls : ∀ w w',
  Admin w = [] → Threads (Q w) = [] → existsb is_call ls = false →
  steps ls w = Some w' → Invoked w' = Invoked w.
Proof.
  induction ls as [|l ls IH]; intros w w' HA HT; simpl.
  - by intros _ [= <-].
  - intros [Hl Hls]%orb_false_iff.
    destruct (step l w) as [w1|] eqn:Hst; [|discriminate]. intros H.
    destruct (step_no_threads _ _ _ HT Hst) as [<- _].
    destruct (step_fields _ _ _ Hl Hst) as [[EA EF]|(a & _ & EA & _)];
      [|by rewrite HA in EA].
    apply (IH w1); try done; [congruence|].
    unfold fields in EF. injection EF as _ _ _ EL. rewrite HT in EL.
    by destruct (Threads (Q w1)).
Qed.

End StopStart.

(** C5, as it is stated, fails on a pool with no thread handle.  The
    number of threads of a new queue is set to 0, the queue is started,
    the invoker 7 is submitted, and the queue is stopped and started again:
    the invoker is still in the queue, the pool is running, and 7 is never
    invoked. *)
Lemma restart_without_threads :
  let ls := [LCall (CallTask (TaskSetNumberOfThreads 0)); LAdmin; LAdmin;
             LCall (CallTask TaskStart); LAdmin;
             LPush 7%nat 0%nat;
             LCall (CallTask TaskStop); LAdmin; LAdmin; LAdmin; LAdmin;
             LCall (CallTask TaskStart); LAdmin] in
  let w := mkWorld {| InvokerQueue := [7%nat]; Locked := false; Empty := false;
                      Destroying := false; Running := true; NumberOfThreads := 0;
                      Threads := [] |} [] [] in
  steps ls (mkWorld initial [] []) = Some w
  ∧ ∀ ls' w', existsb is_call ls' = false → steps ls' w = Some w' → Invoked w' = [].
Proof.
  split; [reflexivity|].
  intros ls' w' Hc Hs.
  eapply no_threads_no_invocation in Hs; [exact Hs|reflexivity|reflexivity|exact Hc].
Qed.

(** ** PrintSelf, and a join that never ends *)

Section Consequences.

Context {Invoker : Type}.
Local Abbreviation Queue := (vtkThreadedCallbackQueue Invoker).
Implicit Types (q : Queue) (w : World Invoker) (l : Label Invoker).

(** C3.  [PrintSelf], once it has the mutex, writes the desired number of
    threads and the length of the queue, and leaves the queue as it is;
    but its last line says that the queue is not running exactly when
    [Running] is true, and that it is running when [Running] is false. *)
Theorem PrintSelf_text (super indent os : string) (q : Queue) :
  Locked q = false →
  PrintSelf super indent os q
  = Some ((((os +:+ super)
            +:+ indent +:+ "Threads: " +:+ pretty (NumberOfThreads q) +:+ endl)
           +:+ indent +:+ "Callback queue size: "
           +:+ pretty (length (InvokerQueue q)) +:+ endl)
          +:+ indent
          +:+ (if Running q then "Queue is not running" else "Queue is running")
          +:+ endl,
          q).
Proof.
  intros HL. unfold PrintSelf. rewrite HL.
  f_equal. f_equal; [|destruct q; simpl in *; by rewrite HL].
  destruct (Running q) eqn:HR; simpl; rewrite HR; reflexivity.
Qed.

(** In a running pool that is not being destroyed, a thread whose id is
    below the desired number never returns. *)
Lemma in_service_stays ThreadId st q st' q' invs :
  Running q = true → Destroying q = false → ThreadId < NumberOfThreads q →
  ThreadWorker_step ThreadId st q = Some (st', q', invs) → st' ≠ Returned.
Proof.
  intros HR HD Hid Hst ->.
  apply ThreadWorker_step_inv in Hst as [(_ & _ & _ & Hret & _)|(inv & _ & [=] & _)].
  destruct (proj1 (leaves_loop_iff _ _) (Hret eq_refl)) as [?|[?|[? _]]];
    [congruence|lia|congruence].
Qed.

(** So a join of such a thread never ends, whatever the other threads do
    and whatever is submitted. *)
Lemma Joins_in_service_step pos l w w' :
  Joins_in_service pos w → is_call l = false → step l w = Some w' →
  Joins_in_service pos w' ∧ Admin w' = Admin w.
Proof.
  intros ((rest & HA) & HR & HD & ThreadId & st & Hpos & Hid & Hst) Hc H.
  destruct l as [p|p|invoker wake| |c]; simpl in H; try discriminate.
  - destruct (Threads (Q w) !! p) as [[|id0 st0]|] eqn:Hp; try discriminate.
    destruct (ThreadWorker_step id0 st0 (Q w)) as [[[st' q'] invs]|] eqn:Hs;
      [|discriminate].
    injection H as <-.
    pose proof (ThreadWorker_step_frame _ _ _ _ _ _ Hs) as (_ & HD' & HR' & HN' & HT').
    split; [|done]. unfold Joins_in_service. cbn [Q Admin].
    split; [eauto|]. split; [by rewrite <- HR|]. split; [by rewrite <- HD|].
    rewrite set_thread_Threads, set_thread_NumberOfThreads, HT', HN'.
    destruct (decide (p = pos)) as [->|Hne].
    + rewrite Hpos in Hp. injection Hp as <- <-.
      exists ThreadId, st'.
      rewrite list_lookup_insert_eq by (by eapply lookup_lt_Some).
      split; [done|]. split; [done|]. by eapply in_service_stays.
    + exists ThreadId, st. by rewrite list_lookup_insert_ne.
  - destruct (Threads (Q w) !! p) as [[|id0 []]|] eqn:Hp; try discriminate.
    injection H as <-. split; [|done]. unfold Joins_in_service. cbn [Q Admin].
    split; [eauto|]. split; [done|]. split; [done|].
    rewrite set_thread_Threads, set_thread_NumberOfThreads.
    destruct (decide (p = pos)) as [->|Hne].
    + rewrite Hpos in Hp. injection Hp as <- _.
      exists ThreadId, Notified.
      by rewrite list_lookup_insert_eq by (by eapply lookup_lt_Some).
    + exists ThreadId, st. by rewrite list_lookup_insert_ne.
  - destruct (Locked (Q w)); [discriminate|].
    destruct (_ && _); [discriminate|]. injection H as <-.
    split; [|done]. unfold Joins_in_service. cbn [Q Admin].
    split; [eauto|]. unfold Push.
    destruct (Threads (Q w) !! wake) as [[|id0 []]|] eqn:Hw; simpl;
      try (repeat split; try done; by exists ThreadId, st).
    repeat split; try done.
    destruct (decide (wake = pos)) as [->|Hne].
    + rewrite Hpos in Hw. injection Hw as <- _.
      exists ThreadId, Notified.
      by rewrite list_lookup_insert_eq by (by eapply lookup_lt_Some).
    + exists ThreadId, st. by rewrite list_lookup_insert_ne.
  - rewrite HA in H. simpl in H. rewrite Hpos in H. by destruct st.
Qed.

Lemma Joins_in_service_steps pos ls : ∀ w w',
  Joins_in_service pos w → existsb is_call ls = false → steps ls w = Some w' →
  Admin w' = Admin w.
Proof.
  induction ls as [|l ls IH]; intros w w' HJ; simpl.
  - by intros _ [= <-].
  - intros [Hl Hls]%orb_false_iff.
    destruct (step l w) as [w1|] eqn:Hst; [|discriminate]. intros H.
    destruct (Joins_in_service_step _ _ _ _ HJ Hl Hst) as [HJ1 <-]. eauto.
Qed.

End Consequences.

(** What follows from C1: a pool is started with one thread, grown to two
    and shrunk to one again.  The thread to join, in the second handle,
    was given the id 0: it is still in service, and the join never ends,
    whatever the threads do and whatever is submitted. *)
Lemma shrink_after_grow_never_returns :
  let ls := [LCall (CallTask TaskStart); LAdmin; LAdmin;
             LCall (CallTask (TaskSetNumberOfThreads 2)); LAdmin; LAdmin;
             LCall (CallTask (TaskSetNumberOfThreads 1));
             LAdmin; LAdmin; LAdmin; LAdmin] in
  let w : World nat :=
    mkWorld {| InvokerQueue := []; Locked := false; Empty := true;
               Destroying := false; Running := true; NumberOfThreads := 1;
               Threads := [Joinable 0 Ready; Joinable 0 Ready] |}
            [AJoin 1; AResize 1] [] in
  steps ls (mkWorld initial [] []) = Some w
  ∧ ∀ ls' w', existsb is_call ls' = false → steps ls' w = Some w' →
      Admin w' = [AJoin 1; AResize 1].
Proof.
  split; [reflexivity|].
  intros ls' w' Hc Hs.
  eapply (Joins_in_service_steps 1) in Hs; [exact Hs| |exact Hc].
  split; [by eexists|]. split; [done|]. split; [done|].
  exists 0, Ready. repeat split; (reflexivity || discriminate).
Qed.

(** * The theorems at concrete queues *)

Lemma Empty_flag_invariant_witness :
  let ls : list (Label nat) :=
    [LCall (CallTask TaskStart); LAdmin; LAdmin; LPush 7%nat 0%nat; LWorker 0] in
  let w := mkWorld {| InvokerQueue := []; Locked := false; Empty := true;
                      Destroying := false; Running := true; NumberOfThreads := 1;
                      Threads := [Joinable 0 (Invoking 7%nat)] |} [] [7%nat] in
  steps ls (mkWorld initial [] []) = Some w
  ∧ (Empty (Q w) = true ↔ InvokerQueue (Q w) = []).
Proof.
  intros ls w. split; [reflexivity|].
  apply (Empty_flag_invariant ls w). reflexivity.
Defined.

Lemma SetNumberOfThreads_grow_witness :
  (Running one_thread = true ∧ Threads_size one_thread < 2 ∧ 2 < 2 ^ 31)
  ∧ SetNumberOfThreads_body 2 one_thread = [AStoreNumberOfThreads 2; APushBack 0].
Proof.
  split; [repeat split; vm_compute; congruence|].
  apply (SetNumberOfThreads_grow 2 one_thread); reflexivity.
Defined.

Lemma PrintSelf_text_witness :
  Locked two_pending = false
  ∧ PrintSelf "" "  " "" two_pending =
      Some ("  Threads: 1" +:+ endl +:+
            "  Callback queue size: 2" +:+ endl +:+
            "  Queue is not running" +:+ endl, two_pending).
Proof.
  split; [reflexivity|].
  apply (PrintSelf_text "" "  " "" two_pending). reflexivity.
Defined.

(** * The administrative thread and the lifetime of a queue *)

Section Ownership.

Context {Invoker : Type}.
Local Abbreviation Queue := (vtkThreadedCallbackQueue Invoker).
Implicit Types (q : Queue) (w : World Invoker) (l : Label Invoker)
  (t : thread Invoker) (o : Owned) (a : Action).

Lemma ident_notify (ts : list (thread Invoker)) :
  ident <$> (notify <$> ts) = ident <$> ts.
Proof.
  rewrite <- list_fmap_compose. apply list_fmap_ext.
  intros ? [|ThreadId []] ?; done.
Qed.

Lemma vacant_joinable (ts : list (thread Invoker)) :
  forallb vacant (ident <$> ts) = forallb (λ t, negb (joinable t)) ts.
Proof. induction ts as [|[|??] ts IH]; simpl; auto. Qed.

(** An action that succeeds does to the owned part what [perform] says. *)
Lemma exec_owned a q q' : exec a q = Steps q' → owned q' = perform a (owned q).
Proof.
  unfold owned.
  destruct a; simpl; intros H; repeat case_match; simplify_eq; simpl;
    unfold set_oThreads; simpl;
    rewrite ?ident_notify, ?list_fmap_insert, ?fmap_app, ?fmap_resize; done.
Qed.

(** An action that is allowed does not fail, and has to wait only when it
    is the join of a thread that has not returned. *)
Lemma exec_allowed a q :
  allowed a (owned q) = true →
  (∃ q', exec a q = Steps q')
  ∨ (∃ pos ThreadId st, a = AJoin pos
       ∧ Threads q !! pos = Some (Joinable ThreadId st) ∧ st ≠ Returned).
Proof.
  destruct a; simpl; try (intros _; left; eauto; fail).
  - intros ->%negb_true_iff. eauto.
  - rewrite list_lookup_fmap.
    destruct (Threads q !! pos) as [[|ThreadId st]|] eqn:Hpos; simpl; try done.
    intros _. destruct st; eauto 10; right; exists pos, ThreadId; eauto.
  - intros [H0%Z.leb_le Hv]%andb_true_iff.
    destruct (Z.ltb_spec n 0); [lia|].
    rewrite <- fmap_drop, vacant_joinable in Hv. rewrite Hv. eauto.
  - rewrite list_lookup_fmap.
    destruct (Threads q !! pos) as [[|ThreadId' st]|] eqn:Hpos; simpl; try done.
    eauto.
  - done.
Qed.

Lemma owned_set_thread pos ThreadId st st' q :
  Threads q !! pos = Some (Joinable ThreadId st) →
  owned (set_thread pos (Joinable ThreadId st') q) = owned q.
Proof.
  intros Hpos. unfold owned, set_thread. simpl. f_equal.
  rewrite list_fmap_insert. apply list_insert_id.
  by rewrite list_lookup_fmap, Hpos.
Qed.

Lemma owned_Push invoker wake q : owned (Push invoker wake q) = owned q.
Proof.
  unfold Push.
  destruct (Threads q !! wake) as [[|ThreadId []]|] eqn:Hw; try done.
  unfold owned. simpl. f_equal.
  rewrite list_fmap_insert. apply list_insert_id.
  by rewrite list_lookup_fmap, Hw.
Qed.

(** The other threads leave the owned part alone. *)
Lemma step_owned l w w' :
  is_call l = false → step l w = Some w' →
  (Admin w' = Admin w ∧ owned (Q w') = owned (Q w))
  ∨ (∃ a, l = LAdmin ∧ Admin w = a :: Admin w' ∧ exec a (Q w) = Steps (Q w')).
Proof.
  destruct l as [pos|pos|invoker wake| |c]; simpl; intros Hc H; try discriminate.
  - destruct (Threads (Q w) !! pos) as [[|ThreadId st]|] eqn:Hpos; try discriminate.
    destruct (ThreadWorker_step ThreadId st (Q w)) as [[[st' q'] invs]|] eqn:Hs;
      [|discriminate].
    injection H as <-. left. simpl. split; [done|].
    apply ThreadWorker_step_frame in Hs as (HL & HD & HR & HN & HT).
    rewrite (owned_set_thread pos ThreadId st) by (by rewrite HT).
    unfold owned. by rewrite HL, HD, HR, HN, HT.
  - destruct (Threads (Q w) !! pos) as [[|ThreadId []]|] eqn:Hpos; try discriminate.
    injection H as <-. left. simpl. split; [done|].
    by apply (owned_set_thread pos ThreadId Waiting).
  - repeat case_match; try discriminate; injection H as <-; left; simpl.
    all: split; [done|]; apply owned_Push.
  - destruct (Admin w) as [|a rest]; [discriminate|].
    destruct (exec a (Q w)) as [q'| |] eqn:He; try discriminate.
    injection H as <-. right. exists a. done.
Qed.

(** So the call in progress ends in the state in which it would end if
    the administrative thread were alone. *)
Lemma step_perform_all l w w' o :
  is_call l = false → step l w = Some w' →
  perform_all (Admin w) (owned (Q w)) = Some o →
  perform_all (Admin w') (owned (Q w')) = Some o.
Proof.
  intros Hc Hs H.
  destruct (step_owned _ _ _ Hc Hs) as [[-> ->]|(a & _ & EA & He)]; [done|].
  rewrite EA in H. simpl in H.
  destruct (allowed a (owned (Q w))); [|discriminate].
  by rewrite (exec_owned _ _ _ He).
Qed.

Lemma steps_perform_all ls : ∀ w w' o,
  existsb is_call ls = false → steps ls w = Some w' →
  perform_all (Admin w) (owned (Q w)) = Some o →
  perform_all (Admin w') (owned (Q w')) = Some o.
Proof.
  induction ls as [|l ls IH]; intros w w' o; simpl.
  - by intros _ [= <-].
  - intros [Hl Hls]%orb_false_iff.
    destruct (step l w) as [w1|] eqn:Hs; [|discriminate]. intros H Hp.
    eapply IH; eauto using step_perform_all.
Qed.

(** A call made on a pool with no call in progress, once it is over. *)
Lemma call_perform_all c ls w w' o :
  perform_all (Call_body c (Q w)) (owned (Q w)) = Some o →
  existsb is_call ls = false → steps (LCall c :: ls) w = Some w' →
  Admin w' = [] → owned (Q w') = o.
Proof.
  intros Hp Hls Hs HA. cbn [steps] in Hs. rewrite step_LCall in Hs.
  destruct (Admin w); [|discriminate].
  eapply steps_perform_all in Hs; [|done|exact Hp].
  rewrite HA in Hs. simpl in Hs. congruence.
Qed.

(** *** The pool at rest *)

Lemma idle_spec o :
  idle o = true ↔
  oLocked o = false ∧ oDestroying o = false
  ∧ oNumberOfThreads o = Z.of_nat (length (oThreads o))
  ∧ Z.of_nat (length (oThreads o)) < 2 ^ 31
  ∧ ∀ pos i, oThreads o !! pos = Some i → in_place (oRunning o) pos i = true.
Proof.
  unfold idle. rewrite !andb_true_iff, !negb_true_iff, Z.eqb_eq, Z.ltb_lt.
  rewrite forallb_forall.
  assert ((∀ p, In p (imap pair (oThreads o)) → in_place (oRunning o) p.1 p.2 = true)
          ↔ ∀ pos i, oThreads o !! pos = Some i → in_place (oRunning o) pos i = true)
    as ->; [|tauto].
  split.
  - intros H pos i Hpos. apply (H (pos, i)). apply list_elem_of_In.
    apply list_elem_of_lookup. exists pos. by rewrite list_lookup_imap, Hpos.
  - intros H [pos i] Hin%list_elem_of_In. simpl.
    apply list_elem_of_lookup in Hin as [k Hk].
    rewrite list_lookup_imap in Hk.
    destruct (oThreads o !! k) eqn:E; simplify_eq/=. eauto.
Qed.

Lemma in_place_stopped pos i : in_place false pos i = true → i = None.
Proof. by destruct i. Qed.

Lemma in_place_running pos i :
  in_place true pos i = true →
  ∃ ThreadId, i = Some ThreadId ∧ Z.of_nat pos - 1 <= ThreadId <= Z.of_nat pos.
Proof.
  destruct i as [ThreadId|]; [|done]. simpl.
  intros [?%Z.leb_le ?%Z.leb_le]%andb_true_iff. eauto.
Qed.

Lemma set_oThreads_same o : set_oThreads (oThreads o) o = o.
Proof. by destruct o. Qed.

(** *** The loops of the administrative functions *)

(** The joins of [Sync]: every handle joined must hold a thread, and
    holds none afterwards. *)
Lemma perform_joins m : ∀ j o rest,
  (∀ pos, (j <= pos < j + m)%nat →
     ∃ ThreadId, oThreads o !! pos = Some (Some ThreadId)) →
  ∃ ts, perform_all ((AJoin <$> seq j m) ++ rest) o
        = perform_all rest (set_oThreads ts o)
    ∧ length ts = length (oThreads o)
    ∧ ∀ pos, ts !! pos = if decide (j <= pos < j + m)%nat then Some None
                         else oThreads o !! pos.
Proof.
  induction m as [|m IH]; intros j o rest Hj.
  - exists (oThreads o). rewrite set_oThreads_same. repeat split.
    intros pos. case_decide; [lia|done].
  - destruct (Hj j) as [ThreadId Hpos]; [lia|].
    cbn [seq fmap list_fmap app perform_all allowed]. rewrite Hpos.
    destruct (IH (S j) (perform (AJoin j) o) rest) as (ts & E & Hlen & Hts).
    { intros pos Hp. simpl. rewrite list_lookup_insert_ne by lia. apply Hj. lia. }
    exists ts. split; [exact E|]. simpl in Hlen, Hts.
    rewrite length_insert in Hlen. split; [done|].
    intros pos. rewrite Hts. repeat case_decide; try lia; try done.
    + assert (pos = j) as -> by lia. apply list_lookup_insert_eq.
      by eapply lookup_lt_Some.
    + rewrite list_lookup_insert_ne by lia. done.
Qed.

(** The [std::generate] of [Start]: every handle assigned must hold no
    thread, and holds the thread with its position as id afterwards. *)
Lemma perform_generate m : ∀ k o,
  (∀ pos, (k <= pos < k + m)%nat → oThreads o !! pos = Some None) →
  ∃ ts, perform_all (generate k m (Z.of_nat k - 1)) o = Some (set_oThreads ts o)
    ∧ length ts = length (oThreads o)
    ∧ ∀ pos, ts !! pos = if decide (k <= pos < k + m)%nat
                         then Some (Some (Z.of_nat pos))
                         else oThreads o !! pos.
Proof.
  induction m as [|m IH]; intros k o Hk.
  - exists (oThreads o). rewrite set_oThreads_same. repeat split.
    intros pos. case_decide; [lia|done].
  - pose proof (Hk k ltac:(lia)) as Hpos.
    cbn [generate perform_all allowed]. rewrite Hpos.
    replace (Z.of_nat k - 1 + 1) with (Z.of_nat (S k) - 1) by lia.
    destruct (IH (S k) (perform (AAssign k (Z.of_nat (S k) - 1)) o))
      as (ts & E & Hlen & Hts).
    { intros pos Hp. simpl. rewrite list_lookup_insert_ne by lia. apply Hk. lia. }
    exists ts. split; [exact E|]. simpl in Hlen, Hts.
    rewrite length_insert in Hlen. split; [done|].
    intros pos. rewrite Hts. repeat case_decide; try lia; try done.
    + assert (pos = k) as -> by lia.
      rewrite list_lookup_insert_eq by (by eapply lookup_lt_Some).
      do 2 f_equal. lia.
    + rewrite list_lookup_insert_ne by lia. done.
Qed.

(** The [std::generate_n] of [SetNumberOfThreads]: the thread appended
    at a position gets that position less one as its id. *)
Lemma perform_generate_n c : ∀ o,
  Z.of_nat (length (oThreads o)) + Z.of_nat c < 2 ^ 31 →
  perform_all (generate_n c (Z.of_nat (length (oThreads o)))) o
  = Some (set_oThreads
            (oThreads o
             ++ ((λ i, Some (Z.of_nat (length (oThreads o)) + Z.of_nat i - 1))
                   <$> seq 0 c)) o).
Proof.
  induction c as [|c IH]; intros o Hlt.
  - simpl. by rewrite app_nil_r, set_oThreads_same.
  - cbn [generate_n perform_all allowed].
    set (o1 := perform _ o).
    assert (Z.of_nat (length (oThreads o)) + 1 = Z.of_nat (length (oThreads o1))) as ->.
    { unfold o1. simpl. rewrite length_app. simpl. lia. }
    rewrite IH by (unfold o1; simpl; rewrite length_app; simpl; lia).
    f_equal. unfold o1, set_oThreads. simpl. f_equal.
    rewrite <- app_assoc. f_equal. cbn [seq fmap list_fmap app]. f_equal.
    + f_equal. destruct (oThreads o) as [|i ts]; [reflexivity|].
      rewrite to_size_t_small by (simpl in *; lia).
      rewrite to_int_small by (simpl in *; lia). lia.
    + rewrite <- fmap_S_seq, <- list_fmap_compose. apply list_fmap_ext.
      intros ? i ?. simpl. rewrite length_app. simpl. f_equal. lia.
Qed.

(** *** The calls on a pool at rest *)

Lemma idle_size q :
  idle (owned q) = true →
  Threads_size q < 2 ^ 31 ∧ to_int (Threads_size q) = Threads_size q
  ∧ NumberOfThreads q = Threads_size q.
Proof.
  intros (_ & _ & HN & Hsz & _)%idle_spec. simpl in *.
  rewrite length_fmap in *. unfold Threads_size.
  split; [done|]. split; [|done]. apply to_int_small. lia.
Qed.

Lemma idle_stopped q pos :
  idle (owned q) = true → Running q = false → (pos < length (Threads q))%nat →
  oThreads (owned q) !! pos = Some None.
Proof.
  intros (_ & _ & _ & _ & Hin)%idle_spec HR Hpos. simpl in *.
  rewrite <- (length_fmap ident) in Hpos.
  destruct (lookup_lt_is_Some_2 _ _ Hpos) as [i Hi]. rewrite Hi.
  apply Hin in Hi. rewrite HR in Hi. by rewrite (in_place_stopped _ _ Hi).
Qed.

Lemma idle_running q pos :
  idle (owned q) = true → Running q = true → (pos < length (Threads q))%nat →
  ∃ ThreadId, oThreads (owned q) !! pos = Some (Some ThreadId)
    ∧ Z.of_nat pos - 1 <= ThreadId <= Z.of_nat pos.
Proof.
  intros (_ & _ & _ & _ & Hin)%idle_spec HR Hpos. simpl in *.
  rewrite <- (length_fmap ident) in Hpos.
  destruct (lookup_lt_is_Some_2 _ _ Hpos) as [i Hi]. rewrite Hi.
  apply Hin in Hi. rewrite HR in Hi.
  destruct (in_place_running _ _ Hi) as (ThreadId & -> & ?). eauto.
Qed.

(** [Start] on a stopped pool at rest: every handle gets a thread, with
    its position as id. *)
Lemma Start_perform q :
  idle (owned q) = true → Running q = false →
  perform_all (Start_body q) (owned q)
  = Some (mkOwned false false true (NumberOfThreads q)
            ((λ i, Some (Z.of_nat i)) <$> seq 0 (length (Threads q)))).
Proof.
  intros Hi HR. pose proof Hi as (HL & HD & _)%idle_spec. simpl in HL, HD.
  unfold Start_body. rewrite HR. cbn [perform_all allowed].
  change (-1) with (Z.of_nat 0 - 1).
  destruct (perform_generate (length (Threads q)) 0 (perform (AStoreRunning true) (owned q)))
    as (ts & -> & Hlen & Hts).
  { intros pos Hpos. simpl. apply idle_stopped; [done..|lia]. }
  simpl in Hlen, Hts. rewrite length_fmap in Hlen.
  unfold set_oThreads. simpl. rewrite HL, HD. do 2 f_equal.
  apply list_eq. intros pos. rewrite Hts, (list_lookup_fmap _ (seq _ _)).
  case_decide.
  - rewrite lookup_seq_lt by lia. done.
  - rewrite lookup_seq_ge by lia. simpl.
    apply lookup_ge_None. rewrite length_fmap. lia.
Qed.

(** A store under the mutex, a notification, and the joins of the handles
    from [from] on, on a running pool at rest. *)
Lemma shutdown_perform s from q rest :
  s = AStoreRunning false ∨ s = AStoreDestroying true
  ∨ s = AStoreNumberOfThreads (Z.of_nat from) →
  idle (owned q) = true → Running q = true → (from <= length (Threads q))%nat →
  perform_all ([ALock; s; AUnlock; ANotifyAll]
               ++ (AJoin <$> seq from (length (Threads q) - from)) ++ rest) (owned q)
  = perform_all rest
      (set_oThreads (take from (oThreads (owned q))
                     ++ replicate (length (Threads q) - from) None)
         (perform s (owned q))).
Proof.
  intros Hs Hi HR Hfrom. pose proof Hi as (HL & HD & _)%idle_spec. simpl in HL, HD.
  assert (allowed s (perform ALock (owned q)) = true) as Ha
    by (destruct Hs as [->|[->| ->]]; done).
  cbn [app perform_all]. rewrite Ha. cbn [allowed]. simpl oLocked. rewrite HL.
  cbn [negb].
  destruct (perform_joins (length (Threads q) - from) from
              (perform ANotifyAll (perform AUnlock (perform s (perform ALock (owned q)))))
              rest) as (ts & -> & Hlen & Hts).
  { intros pos Hpos.
    destruct (idle_running q pos Hi HR) as (ThreadId & E & _); [lia|].
    exists ThreadId. by destruct Hs as [->|[->| ->]]. }
  f_equal.
  assert (oThreads (perform ANotifyAll
            (perform AUnlock (perform s (perform ALock (owned q)))))
          = ident <$> Threads q) as ET
    by (destruct Hs as [->|[->| ->]]; done).
  rewrite ET in Hlen, Hts. rewrite length_fmap in Hlen.
  assert (ts = take from (ident <$> Threads q)
               ++ replicate (length (Threads q) - from) None) as ->.
  { apply list_eq. intros pos. rewrite Hts. case_decide.
    - rewrite lookup_app_r by (rewrite length_take, length_fmap; lia).
      rewrite length_take, length_fmap.
      symmetry. apply lookup_replicate. split; [done|lia].
    - destruct (decide (pos < from)%nat).
      + rewrite lookup_app_l by (rewrite length_take, length_fmap; lia).
        by rewrite lookup_take_lt.
      + rewrite !(proj2 (lookup_ge_None _ _)); [done|..].
        * rewrite length_app, length_take, length_replicate, length_fmap. lia.
        * rewrite length_fmap. lia. }
  destruct Hs as [->|[->| ->]]; unfold set_oThreads; simpl; by rewrite ?HL.
Qed.

(** [Stop] on a pool at rest leaves a stopped pool at rest, with as many
    handles. *)
Lemma Stop_perform q :
  idle (owned q) = true →
  ∃ o, perform_all (Stop_body q) (owned q) = Some o
    ∧ idle o = true ∧ oRunning o = false
    ∧ length (oThreads o) = length (Threads q).
Proof.
  intros Hi. destruct (Running q) eqn:HR.
  - rewrite (Stop_body_running _ HR). unfold joins.
    rewrite <- (app_nil_r (AJoin <$> _)).
    rewrite (shutdown_perform (AStoreRunning false) 0 q []); auto; [|lia].
    eexists. split; [reflexivity|]. rewrite Nat.sub_0_r, take_0. simpl.
    pose proof Hi as (HL & HD & HN & Hsz & _)%idle_spec.
    simpl in HL, HD, HN, Hsz. rewrite length_fmap in *.
    split; [|by rewrite length_replicate].
    apply idle_spec. simpl. rewrite length_replicate. repeat split; try done.
    intros pos i [-> _]%lookup_replicate. done.
  - unfold Stop_body. rewrite HR. simpl. eexists. split; [reflexivity|].
    simpl. rewrite length_fmap. done.
Qed.

(** The destructor on a pool at rest meets no error. *)
Lemma Destructor_perform q :
  idle (owned q) = true →
  ∃ o, perform_all (Destructor_actions q) (owned q) = Some o
    ∧ (oDestroying o = false → idle o = true).
Proof.
  intros Hi. unfold Destructor_actions. destruct (Running q) eqn:HR.
  - rewrite Sync_0. unfold joins. rewrite <- (app_nil_r (AJoin <$> _)).
    rewrite (shutdown_perform (AStoreDestroying true) 0 q []); auto; [|lia].
    eexists. split; [reflexivity|]. done.
  - eexists. split; [reflexivity|]. done.
Qed.

(** [SetNumberOfThreads] with a valid argument on a pool at rest leaves a
    pool at rest, running or not as it was, with that many handles. *)
Lemma SetNumberOfThreads_perform n q :
  idle (owned q) = true → 0 <= n < 2 ^ 31 →
  ∃ o, perform_all (SetNumberOfThreads_body n q) (owned q) = Some o
    ∧ idle o = true ∧ oRunning o = Running q
    ∧ length (oThreads o) = Z.to_nat n.
Proof.
  intros Hi Hn. destruct (idle_size q Hi) as (Hsz & Eint & HN).
  pose proof Hi as (HL & HD & _ & _ & Hin)%idle_spec. simpl in HL, HD, Hin.
  unfold Threads_size in *.
  destruct (decide (Z.of_nat (length (Threads q)) = n)) as [E|Hne].
  { unfold SetNumberOfThreads_body, Threads_size. rewrite Eint.
    destruct (Z.eqb_spec (Z.of_nat (length (Threads q))) n); [|done].
    eexists. split; [reflexivity|]. split; [done|]. split; [done|].
    simpl. rewrite length_fmap. lia. }
  destruct (Running q) eqn:HR.
  - destruct (decide (Z.of_nat (length (Threads q)) < n)) as [Hlt|Hge].
    + (* growing *)
      unfold SetNumberOfThreads_body, Threads_size. rewrite Eint, HR.
      destruct (Z.eqb_spec (Z.of_nat (length (Threads q))) n); [done|].
      destruct (Z.ltb_spec (Z.of_nat (length (Threads q))) n); [|lia].
      cbn [orb negb app perform_all allowed].
      set (o1 := perform _ (owned q)).
      assert (length (oThreads o1) = length (Threads q)) as Hlen
        by (unfold o1; simpl; by rewrite length_fmap).
      rewrite <- Hlen.
      rewrite perform_generate_n by lia.
      eexists. split; [reflexivity|].
      assert (length (oThreads o1
                ++ ((λ i, Some (Z.of_nat (length (oThreads o1)) + Z.of_nat i - 1))
                      <$> seq 0 (Z.to_nat (n - Z.of_nat (length (oThreads o1))))))
              = Z.to_nat n) as Hlen'
        by (rewrite length_app, length_fmap, length_seq; lia).
      split; [|split; [by simpl|exact Hlen']].
      apply idle_spec. unfold set_oThreads.
      cbn [oLocked oDestroying oRunning oNumberOfThreads oThreads].
      rewrite Hlen'. unfold o1 at 1 2 3 4. simpl.
      split; [done|]. split; [done|]. split; [lia|]. split; [lia|].
      intros pos i Hpos. rewrite HR.
      apply lookup_app_Some in Hpos as [Hpos|[Hge Hpos]].
      * by apply Hin in Hpos.
      * rewrite list_lookup_fmap in Hpos.
        destruct (seq _ _ !! _) as [k|] eqn:Hk; [|done].
        apply lookup_seq in Hk as [-> Hk]. injection Hpos as <-. simpl.
        apply andb_true_iff. split; apply Z.leb_le; lia.
    + (* shrinking *)
      rewrite SetNumberOfThreads_shrink by (try done; unfold Threads_size; lia).
      replace (AStoreNumberOfThreads n)
        with (AStoreNumberOfThreads (Z.of_nat (Z.to_nat n))) by (f_equal; lia).
      rewrite (shutdown_perform (AStoreNumberOfThreads (Z.of_nat (Z.to_nat n)))
                 (Z.to_nat n) q); auto; [|lia].
      cbn [perform_all allowed].
      destruct (Z.leb_spec 0 n); [|lia]. unfold set_oThreads. simpl.
      rewrite drop_app_length' by (rewrite length_take, length_fmap; lia).
      assert (forallb vacant (replicate (length (Threads q) - Z.to_nat n) None : list (option Z))
              = true) as ->.
      { apply forallb_forall. intros i Hi'%list_elem_of_In.
        by apply elem_of_replicate in Hi' as [-> _]. }
      eexists. split; [reflexivity|].
      unfold set_oThreads. simpl.
      rewrite resize_app_le by (rewrite length_take, length_fmap; lia).
      rewrite resize_all_alt by (rewrite length_take, length_fmap; lia).
      rewrite HR.
      assert (length (take (Z.to_nat n) (ident <$> Threads q)) = Z.to_nat n) as Hlen'
        by (rewrite length_take, length_fmap; lia).
      split; [|split; [done|exact Hlen']].
      apply idle_spec. simpl. rewrite Hlen'.
      split; [done|]. split; [done|]. split; [lia|]. split; [lia|].
      intros pos i Hpos. apply lookup_take_Some in Hpos as [Hpos _].
      by apply Hin in Hpos.
  - (* a stopped pool *)
    unfold SetNumberOfThreads_body, Threads_size. rewrite Eint, HR.
    destruct (Z.eqb_spec (Z.of_nat (length (Threads q))) n); [done|].
    rewrite orb_true_r. cbn [negb app perform_all allowed].
    destruct (Z.leb_spec 0 n); [|lia]. simpl.
    assert (forallb vacant (drop (Z.to_nat n) (ident <$> Threads q)) = true) as ->.
    { apply forallb_forall. intros i Hi'%list_elem_of_In.
      apply list_elem_of_lookup in Hi' as [pos Hpos].
      rewrite lookup_drop in Hpos. apply Hin in Hpos.
      by rewrite (in_place_stopped _ _ Hpos). }
    eexists. split; [reflexivity|]. unfold set_oThreads. simpl.
    split; [|split; [done|by rewrite length_resize]].
    apply idle_spec. simpl. rewrite length_resize, HR.
    split; [done|]. split; [done|]. split; [lia|]. split; [lia|].
    intros pos i Hpos.
    apply lookup_lt_Some in Hpos as Hlt. rewrite length_resize in Hlt.
    destruct (decide (pos < length (ident <$> Threads q))%nat) as [Hlt'|Hge].
    + rewrite lookup_resize in Hpos by lia.
      by apply Hin in Hpos.
    + rewrite lookup_resize_new in Hpos by lia. by injection Hpos as <-.
Qed.

(** Every member function with a valid argument takes a pool at rest to a
    pool at rest: none of its actions is an error. *)
Lemma Task_perform f q :
  idle (owned q) = true → valid_task f = true →
  ∃ o, perform_all (Task_body f q) (owned q) = Some o ∧ idle o = true.
Proof.
  intros Hi Hv. destruct f as [n| |]; simpl.
  - simpl in Hv. apply andb_true_iff in Hv as [?%Z.leb_le ?%Z.ltb_lt].
    destruct (SetNumberOfThreads_perform n q Hi) as (o & ? & ? & _); eauto.
  - destruct (Stop_perform q Hi) as (o & ? & ? & _); eauto.
  - destruct (Running q) eqn:HR.
    + unfold Start_body. rewrite HR. simpl. eauto.
    + rewrite (Start_perform q Hi HR). eexists. split; [reflexivity|].
      pose proof Hi as (HL & HD & HN & Hsz & _)%idle_spec.
      simpl in HL, HD, HN, Hsz. rewrite length_fmap in *.
      apply idle_spec. simpl. rewrite length_fmap, length_seq.
      repeat split; try done.
      intros pos i Hpos. rewrite list_lookup_fmap in Hpos.
      destruct (seq _ _ !! _) as [k|] eqn:Hk; [|done].
      apply lookup_seq in Hk as [-> Hk]. injection Hpos as <-. simpl.
      apply andb_true_iff. split; apply Z.leb_le; lia.
Qed.

(** *** The lifetime of a queue *)

(** As long as the lifetime goes on with a call, the call in progress
    ends in a pool at rest. *)
Lemma lifetime_goes_on ls : ∀ c ls' w w' o,
  perform_all (Admin w) (owned (Q w)) = Some o → idle o = true →
  lifetime (ls ++ LCall c :: ls') = true → steps ls w = Some w' →
  (∃ o', perform_all (Admin w') (owned (Q w')) = Some o' ∧ idle o' = true)
  ∧ lifetime (LCall c :: ls') = true.
Proof.
  induction ls as [|l ls IH]; intros c ls' w w' o Hp Hi Hlife; simpl.
  - intros [= <-]. eauto.
  - destruct (step l w) as [w1|] eqn:Hs; [|discriminate]. intros Hsteps.
    destruct l as [pos|pos|invoker wake| |[f|]]; simpl in Hlife.
    1-4: eapply (IH c ls' w1 w' o); [eapply step_perform_all; [|exact Hs|exact Hp]; done|done..].
    + apply andb_true_iff in Hlife as [Hv Hlife].
      rewrite step_LCall in Hs. destruct (Admin w) eqn:HA; [|discriminate].
      injection Hs as <-. simpl in Hp. injection Hp as <-.
      destruct (Task_perform f (Q w) Hi Hv) as (o1 & Hp1 & Hi1).
      by eapply (IH c ls' _ w' o1); eauto.
    + rewrite existsb_app in Hlife. simpl in Hlife.
      by rewrite orb_true_r in Hlife.
Qed.

(** Whatever the lifetime, the call in progress meets no error, and ends
    in a pool at rest unless it is the destruction of a running pool. *)
Lemma lifetime_rest ls : ∀ w w' o,
  perform_all (Admin w) (owned (Q w)) = Some o → idle o = true →
  lifetime ls = true → steps ls w = Some w' →
  ∃ o', perform_all (Admin w') (owned (Q w')) = Some o'
    ∧ (oDestroying o' = false → idle o' = true).
Proof.
  induction ls as [|l ls IH]; intros w w' o Hp Hi Hlife; simpl.
  - intros [= <-]. eauto.
  - destruct (step l w) as [w1|] eqn:Hs; [|discriminate]. intros Hsteps.
    destruct l as [pos|pos|invoker wake| |[f|]]; simpl in Hlife.
    1-4: eapply (IH w1 w' o); [eapply step_perform_all; [|exact Hs|exact Hp]; done|done..].
    + apply andb_true_iff in Hlife as [Hv Hlife].
      rewrite step_LCall in Hs. destruct (Admin w) eqn:HA; [|discriminate].
      injection Hs as <-. simpl in Hp. injection Hp as <-.
      destruct (Task_perform f (Q w) Hi Hv) as (o1 & Hp1 & Hi1).
      by eapply (IH _ w' o1); eauto.
    + apply negb_true_iff in Hlife.
      rewrite step_LCall in Hs. destruct (Admin w) eqn:HA; [|discriminate].
      injection Hs as <-. simpl in Hp. injection Hp as <-.
      destruct (Destructor_perform (Q w) Hi) as (o1 & Hp1 & Hi1).
      exists o1. split; [|done].
      by eapply steps_perform_all; [exact Hlife|exact Hsteps|].
Qed.

Lemma initial_idle : idle (owned (@initial Invoker)) = true.
Proof. reflexivity. Qed.

(** X1.  Over the whole lifetime of a queue, whatever the workers do and
    whatever is submitted, with member functions called with thread
    counts that are not negative and the destructor called last, the
    action that the administrative thread has to perform next is never an
    error (the join of a handle that holds no thread, a thread assigned
    over or destroyed while joinable, a position out of range), and never
    a lock of the mutex that this thread holds already: it can be
    performed, unless it is the join of a thread that has not returned
    yet. *)
Theorem lifetime_no_error (ls : list (Label Invoker)) (w : World Invoker)
    (a : Action) (rest : list Action) :
  lifetime ls = true → steps ls (mkWorld initial [] []) = Some w →
  Admin w = a :: rest →
  (∃ w', step LAdmin w = Some w')
  ∨ (∃ pos ThreadId st, a = AJoin pos
       ∧ Threads (Q w) !! pos = Some (Joinable ThreadId st) ∧ st ≠ Returned).
Proof.
  intros Hlife Hsteps HA.
  destruct (lifetime_rest ls (mkWorld initial [] []) w (owned (@initial Invoker)))
    as (o & Hp & _); try done.
  rewrite HA in Hp. simpl in Hp.
  destruct (allowed a (owned (Q w))) eqn:Ha; [|discriminate].
  destruct (exec_allowed _ _ Ha) as [[q' He]|?]; [|by right].
  left. simpl. rewrite HA, He. eauto.
Qed.

(** X2.  Over the lifetime of a queue, whenever no call is in progress
    and the queue is not being destroyed: the mutex is free, the desired
    number of threads is the number of handles, and every handle holds a
    thread if the pool is running and none if it is not.  The id of the
    thread of a handle is the position of the handle or one less, so
    every thread of a running pool is in service. *)
Theorem lifetime_at_rest (ls : list (Label Invoker)) (w : World Invoker) :
  lifetime ls = true → steps ls (mkWorld initial [] []) = Some w →
  Admin w = [] → Destroying (Q w) = false →
  Locked (Q w) = false
  ∧ NumberOfThreads (Q w) = Threads_size (Q w)
  ∧ Threads_size (Q w) < 2 ^ 31
  ∧ ∀ pos t, Threads (Q w) !! pos = Some t →
      if Running (Q w)
      then ∃ ThreadId st, t = Joinable ThreadId st
             ∧ Z.of_nat pos - 1 <= ThreadId <= Z.of_nat pos
             ∧ ThreadId < NumberOfThreads (Q w)
      else t = NotJoinable.
Proof.
  intros Hlife Hsteps HA HD.
  destruct (lifetime_rest ls (mkWorld initial [] []) w (owned (@initial Invoker)))
    as (o & Hp & Hi); try done.
  rewrite HA in Hp. simpl in Hp. injection Hp as <-.
  specialize (Hi HD). destruct (idle_size _ Hi) as (Hsz & _ & HN).
  pose proof Hi as (HL & _ & _ & _ & Hin)%idle_spec. simpl in HL, Hin.
  split; [done|]. split; [done|]. split; [done|].
  intros pos t Hpos.
  assert ((ident <$> Threads (Q w)) !! pos = Some (ident t)) as Hid
    by (by rewrite list_lookup_fmap, Hpos).
  apply Hin in Hid. apply lookup_lt_Some in Hpos.
  destruct (Running (Q w)).
  - apply in_place_running in Hid as (ThreadId & E & Hb).
    destruct t as [|ThreadId' st]; [done|]. injection E as ->.
    exists ThreadId, st. split; [done|]. split; [done|].
    unfold Threads_size in HN. lia.
  - apply in_place_stopped in Hid. by destruct t.
Qed.

(** *** Stopping, resizing and starting again *)

Lemma steps_app_inv ls1 ls2 w w' :
  steps (ls1 ++ ls2) w = Some w' →
  ∃ w1, steps ls1 w = Some w1 ∧ steps ls2 w1 = Some w'.
Proof.
  rewrite steps_app. destruct (steps ls1 w) as [w1|]; [|done]. eauto.
Qed.

(** A call that joins no thread is carried out by the administrative
    thread alone, in as many steps as it has actions. *)
Lemma perform_all_run actions : ∀ w o,
  Admin w = actions → perform_all actions (owned (Q w)) = Some o →
  (∀ pos, AJoin pos ∉ actions) →
  ∃ w', steps (replicate (length actions) LAdmin) w = Some w'
    ∧ Admin w' = [] ∧ owned (Q w') = o.
Proof.
  induction actions as [|a rest IH]; intros w o HA Hp Hnj; simpl.
  - exists w. simpl in Hp. injection Hp as <-. done.
  - simpl in Hp. destruct (allowed a (owned (Q w))) eqn:Ha; [|discriminate].
    destruct (exec_allowed _ _ Ha) as [[q' He]|(pos & ? & ? & -> & _)].
    2: { exfalso. apply (Hnj pos). by left. }
    rewrite HA, He.
    apply (IH (mkWorld q' rest (Invoked w))); simpl; [done| |].
    + by rewrite (exec_owned _ _ _ He).
    + intros pos Hin. apply (Hnj pos). by right.
Qed.

Lemma generate_no_join pos count threadId p :
  AJoin p ∉ generate pos count threadId.
Proof.
  revert pos threadId. induction count as [|count IH]; intros pos threadId; simpl.
  - by intros ?%elem_of_nil.
  - intros [?|?]%elem_of_cons; [done|]. by eapply IH.
Qed.

(** *** A negative number of threads *)

Lemma hopeless_fails a q : hopeless a = true → exec a q = Fails.
Proof.
  destruct a; try done. simpl. by intros ->.
Qed.

Lemma hopeless_stays ls : ∀ w w',
  existsb hopeless (Admin w) = true → existsb is_call ls = false →
  steps ls w = Some w' → existsb hopeless (Admin w') = true.
Proof.
  induction ls as [|l ls IH]; intros w w' Hh; simpl.
  - by intros _ [= <-].
  - intros [Hl Hls]%orb_false_iff.
    destruct (step l w) as [w1|] eqn:Hs; [|discriminate].
    apply IH; [|done].
    destruct (step_owned _ _ _ Hl Hs) as [[-> _]|(a & _ & EA & He)]; [done|].
    rewrite EA in Hh. simpl in Hh.
    destruct (hopeless a) eqn:Ha; [|done].
    by rewrite (hopeless_fails _ _ Ha) in He.
Qed.

(** X3.  [SetNumberOfThreads] does not reject a negative argument.  On a
    pool with fewer than 2^31 handles the call never completes: on a
    stopped pool the negative number is stored in [NumberOfThreads] and
    the [resize] to it fails; on a running pool it is stored under the
    mutex, the threads are notified, and [Sync] forms an iterator before
    the beginning of the vector, which is undefined. *)
Theorem SetNumberOfThreads_negative (n : Z) (w0 : World Invoker) :
  n < 0 → Threads_size (Q w0) < 2 ^ 31 → Locked (Q w0) = false →
  Admin w0 = SetNumberOfThreads_body n (Q w0) →
  (∀ ls w, existsb is_call ls = false → steps ls w0 = Some w → Admin w ≠ [])
  ∧ ∃ k w a rest, steps (replicate k LAdmin) w0 = Some w
      ∧ NumberOfThreads (Q w) = n ∧ Admin w = a :: rest
      ∧ exec a (Q w) = Fails.
Proof.
  intros Hn Hsz HL HA.
  assert (0 <= Threads_size (Q w0)) as H0 by (unfold Threads_size; lia).
  assert (SetNumberOfThreads_body n (Q w0)
          = if Running (Q w0)
            then [ALock; AStoreNumberOfThreads n; AUnlock; ANotifyAll; AUndefined;
                  AResize n]
            else [AStoreNumberOfThreads n; AResize n]) as E.
  { unfold SetNumberOfThreads_body, Sync. rewrite to_int_small by lia.
    destruct (Z.eqb_spec (Threads_size (Q w0)) n); [lia|].
    destruct (Z.ltb_spec (Threads_size (Q w0)) n); [lia|].
    destruct (Running (Q w0)); simpl; [|done].
    destruct (Z.leb_spec 0 n); [lia|]. done. }
  rewrite E in HA. split.
  - intros ls w Hls Hsteps HAw.
    pose proof (hopeless_stays ls w0 w) as Hh.
    rewrite HAw in Hh. simpl in Hh.
    assert (existsb hopeless (Admin w0) = true) as Hh0.
    { rewrite HA. destruct (Running (Q w0)); simpl;
        destruct (Z.ltb_spec n 0); done || lia. }
    by specialize (Hh Hh0 Hls Hsteps).
  - destruct (Running (Q w0)) eqn:HR.
    + exists 4%nat. eexists _, AUndefined, [AResize n].
      cbn [replicate steps step]. rewrite HA. cbn [exec]. rewrite HL.
      cbn [Admin Q exec]. done.
    + exists 1%nat. eexists _, (AResize n), [].
      cbn [replicate steps step]. rewrite HA. cbn [exec Admin Q].
      split; [reflexivity|]. split; [done|]. split; [done|].
      simpl. by destruct (Z.ltb_spec n 0); [|lia].
Qed.

End Ownership.

(** * The workers at work *)

Section Service.

Context {Invoker : Type}.
Local Abbreviation Queue := (vtkThreadedCallbackQueue Invoker).
Implicit Types (q : Queue) (w : World Invoker) (l : Label Invoker)
  (t : thread Invoker).

(** What a step does to the invokers. *)
Lemma step_submitted l w w' :
  step l w = Some w' →
  ∃ popped, Invoked w' = Invoked w ++ popped
    ∧ popped ++ InvokerQueue (Q w') = InvokerQueue (Q w) ++ submitted [l].
Proof.
  intros Hs. destruct l as [pos|pos|invoker wake| |c].
  3: { simpl in Hs. repeat case_match; try discriminate; injection Hs as <-.
       all: exists []; simpl; rewrite app_nil_r;
         by destruct (Push_frame invoker wake (Q w)) as (-> & _). }
  all: apply step_fifo in Hs as (popped & pushed & E1 & E2 & _ & Hp);
    exists popped; split; [done|];
    destruct pushed; [done|]; destruct Hp as (? & ? & ? & _); done.
Qed.

(** X4.  First in, first out, each invoker once: along any execution,
    whatever the workers and the administrative calls ([Stop], [Start],
    [SetNumberOfThreads], the destructor) do, the invokers started so
    far, followed by the queue, are the invokers started before, followed
    by the queue as it was and by the invokers submitted meanwhile, in
    the order of their submission.  No invoker is dropped, started twice,
    or started before one that was queued ahead of it. *)
Theorem first_in_first_out (ls : list (Label Invoker)) (w w' : World Invoker) :
  steps ls w = Some w' →
  Invoked w' ++ InvokerQueue (Q w')
  = Invoked w ++ InvokerQueue (Q w) ++ submitted ls.
Proof.
  revert w. induction ls as [|l ls IH]; intros w; simpl.
  - intros [= <-]. by rewrite app_nil_r.
  - destruct (step l w) as [w1|] eqn:Hs; [|discriminate]. intros H.
    apply IH in H. apply step_submitted in Hs as (popped & E1 & E2).
    rewrite H, E1, <- !app_assoc. f_equal.
    rewrite (app_assoc popped), E2, <- !app_assoc. f_equal.
    by destruct l.
Qed.

(** With a queue that is not empty no thread is put on hold, so a worker
    that moves gets closer to the end of the queue. *)
Lemma ThreadWorker_step_busy ThreadId st q st' q' invs :
  InvokerQueue q ≠ [] →
  ThreadWorker_step ThreadId st q = Some (st', q', invs) →
  (thread_weight (Joinable ThreadId st') + 2 * length (InvokerQueue q')
   < thread_weight (Joinable ThreadId st) + 2 * length (InvokerQueue q))%nat
  ∧ (serving q (Joinable ThreadId st) = true → Running q = true →
     serving q' (Joinable ThreadId st') = true).
Proof.
  intros HQ. unfold ThreadWorker_step, Pop, OnHold, Continue.
  destruct (InvokerQueue q) as [|inv rest] eqn:E; [done|].
  simpl. rewrite andb_false_r. simpl.
  destruct st; try discriminate.
  1,2: destruct (Locked q); [discriminate|];
       destruct (ThreadId <? NumberOfThreads q) eqn:Hid; simpl;
       destruct (Running q) eqn:HR; simpl;
       intros [= <- <- <-]; simpl; rewrite ?E; simpl; split; (lia || done).
  intros [= <- <- <-]. simpl. rewrite E. simpl. split; (lia || done).
Qed.

Lemma serving_frame q q' t :
  NumberOfThreads q' = NumberOfThreads q → serving q' t = serving q t.
Proof. intros E. destruct t as [|? []]; simpl; by rewrite ?E. Qed.

(** A step of a worker of a running pool whose queue is not empty. *)
Lemma busy_step l w w' :
  Admin w = [] → InvokerQueue (Q w) ≠ [] → internal l = true →
  step l w = Some w' →
  Admin w' = [] ∧ Running (Q w') = Running (Q w) ∧ Locked (Q w') = Locked (Q w)
  ∧ (measure w' < measure w)%nat
  ∧ (Running (Q w) = true →
     (∃ pos t, Threads (Q w) !! pos = Some t ∧ serving (Q w) t = true) →
     ∃ pos t, Threads (Q w') !! pos = Some t ∧ serving (Q w') t = true).
Proof.
  intros HA HQ Hint H. unfold measure.
  destruct l as [pos|pos|invoker wake| |c]; simpl in H; try discriminate.
  - destruct (Threads (Q w) !! pos) as [[|ThreadId st]|] eqn:Hpos; try discriminate.
    destruct (ThreadWorker_step ThreadId st (Q w)) as [[[st' q'] invs]|] eqn:Hs;
      [|discriminate].
    injection H as <-. cbn [Q Admin].
    destruct (ThreadWorker_step_busy _ _ _ _ _ _ HQ Hs) as [Hw Hserv].
    apply ThreadWorker_step_frame in Hs as (HL & _ & HR & HN & HT).
    rewrite set_thread_Locked, set_thread_Threads, HT.
    split; [done|]. split; [by unfold set_thread|]. split; [done|]. split.
    { unfold set_thread at 1. simpl.
      pose proof (sum_weight_insert _ _ (Joinable ThreadId st') _ Hpos). lia. }
    intros HRw (pos0 & t0 & Hpos0 & Hs0).
    destruct (decide (pos0 = pos)) as [->|Hne].
    + exists pos, (Joinable ThreadId st'). split.
      * apply list_lookup_insert_eq. by eapply lookup_lt_Some.
      * rewrite Hpos in Hpos0. injection Hpos0 as <-.
        specialize (Hserv Hs0 HRw).
        rewrite (serving_frame q'); [done|apply set_thread_NumberOfThreads].
    + exists pos0, t0. split; [by rewrite list_lookup_insert_ne|].
      rewrite (serving_frame (Q w)); [done|].
      by rewrite set_thread_NumberOfThreads.
  - destruct (Threads (Q w) !! pos) as [[|ThreadId []]|] eqn:Hpos; try discriminate.
    injection H as <-. cbn [Q Admin].
    rewrite set_thread_Locked, set_thread_Threads.
    split; [done|]. split; [by unfold set_thread|]. split; [done|]. split.
    { unfold set_thread at 1. simpl.
      pose proof (sum_weight_insert _ _ (Joinable ThreadId Notified) _ Hpos).
      simpl in *. lia. }
    intros HRw (pos0 & t0 & Hpos0 & Hs0).
    destruct (decide (pos0 = pos)) as [->|Hne].
    + rewrite Hpos in Hpos0. by injection Hpos0 as <-.
    + exists pos0, t0. split; [by rewrite list_lookup_insert_ne|].
      rewrite (serving_frame (Q w)); [done|].
      by rewrite set_thread_NumberOfThreads.
  - by rewrite HA in H.
Qed.

(** Without a submission an empty queue stays empty. *)
Lemma empty_stays ls w w' :
  forallb internal ls = true → steps ls w = Some w' →
  InvokerQueue (Q w) = [] → InvokerQueue (Q w') = [].
Proof.
  intros Hls Hs HQ.
  destruct (steps_fifo _ _ _ Hs) as (pushed & E & Hp).
  rewrite (Hp Hls), HQ, !app_nil_r in E.
  assert (∃ popped, Invoked w' = Invoked w ++ popped) as [popped Ep].
  { clear E Hp HQ. revert w Hs.
    induction ls as [|l ls IH]; intros w; simpl.
    - intros [= <-]. exists []. by rewrite app_nil_r.
    - apply andb_true_iff in Hls as [_ Hls].
      destruct (step l w) as [w1|] eqn:Hs; [|discriminate]. intros H.
      destruct (IH Hls _ H) as [p2 E2].
      apply step_fifo in Hs as (p1 & _ & E1 & _).
      exists (p1 ++ p2). by rewrite E2, E1, app_assoc. }
  rewrite Ep, <- app_assoc in E.
  rewrite <- (app_nil_r (Invoked w)) in E at 2. apply app_inv_head in E.
  by apply app_eq_nil in E as [_ ?].
Qed.

Lemma busy_steps ls : ∀ w w',
  Admin w = [] → Running (Q w) = true → Locked (Q w) = false →
  (∃ pos t, Threads (Q w) !! pos = Some t ∧ serving (Q w) t = true) →
  forallb internal ls = true → steps ls w = Some w' →
  InvokerQueue (Q w') ≠ [] →
  (length ls + measure w' <= measure w)%nat
  ∧ Locked (Q w') = false
  ∧ ∃ pos t, Threads (Q w') !! pos = Some t ∧ serving (Q w') t = true.
Proof.
  induction ls as [|l ls IH]; intros w w' HA HR HL Hserv; simpl.
  - intros _ [= <-] _. split; [lia|]. done.
  - intros [Hl Hls]%andb_true_iff.
    destruct (step l w) as [w1|] eqn:Hs; [|discriminate]. intros H HQ'.
    assert (InvokerQueue (Q w) ≠ []) as HQ.
    { intros E. apply HQ'.
      apply (empty_stays (l :: ls) w w'); simpl; [by rewrite Hl|by rewrite Hs|done]. }
    destruct (busy_step _ _ _ HA HQ Hl Hs) as (HA1 & HR1 & HL1 & Hm & Hserv1).
    destruct (IH w1 w') as (Hlen & HL' & Hserv'); try done; try congruence.
    { by apply Hserv1. }
    split; [lia|]. done.
Qed.

(** X5.  A running pool with a worker in service and awake runs its
    queue: with no call in progress and no further submission, as long as
    the queue is not empty some worker can move, the queue is empty after
    a number of steps of the workers that the measure of the state
    bounds, and when it is empty every invoker that was queued has been
    started, in the order of the queue. *)
Theorem workers_run_queue (w0 : World Invoker) :
  Admin w0 = [] → Running (Q w0) = true → Locked (Q w0) = false →
  (∃ pos t, Threads (Q w0) !! pos = Some t ∧ serving (Q w0) t = true) →
  ∀ ls w, forallb internal ls = true → steps ls w0 = Some w →
    (InvokerQueue (Q w) ≠ [] → ∃ pos w', step (LWorker pos) w = Some w')
    ∧ ((measure w0 <= length ls)%nat → InvokerQueue (Q w) = [])
    ∧ (InvokerQueue (Q w) = [] → Invoked w = Invoked w0 ++ InvokerQueue (Q w0)).
Proof.
  intros HA HR HL Hserv ls w Hls Hsteps. split; [|split].
  - intros HQ.
    destruct (busy_steps ls w0 w) as (_ & HLw & pos & t & Hpos & Hs); try done.
    exists pos. simpl. rewrite Hpos.
    destruct t as [|ThreadId st]; [done|].
    destruct st; try done; simpl; rewrite ?HLw;
      try destruct (Pop ThreadId (Q w)); eauto.
  - intros Hlen. destruct (InvokerQueue (Q w)) as [|inv rest] eqn:E; [done|].
    destruct (busy_steps ls w0 w) as (Hm & _); try done; [by rewrite E|].
    unfold measure in Hm at 1. rewrite E in Hm. simpl in Hm. lia.
  - intros HQ. destruct (steps_fifo _ _ _ Hsteps) as (pushed & E & Hp).
    by rewrite (Hp Hls), HQ, !app_nil_r in E.
Qed.

End Service.

(** * Stop and the destructor return *)

Section Return.

Context {Invoker : Type}.
Local Abbreviation Queue := (vtkThreadedCallbackQueue Invoker).
Implicit Types (q : Queue) (w : World Invoker) (l : Label Invoker)
  (t : thread Invoker).

(** From a halted pool that is shutting down, some execution of its
    threads carries the call to its end. *)
Lemma halting_completes s (m : nat) : ∀ w,
  (measure w <= m)%nat → halting_store s → Shutdown s 0 [] w →
  halted (Q w) = true →
  ∃ ls w', forallb internal ls = true ∧ steps ls w = Some w' ∧ Admin w' = [].
Proof.
  induction m as [|m IH]; intros w Hm Hs HS Hh.
  - destruct (Shutdown_progress _ _ _ _ HS) as [(l & w1 & Hst & Hl)|(HA & _)];
      [|by exists [], w].
    assert (internal l = true) as Hint
      by (destruct Hl as [->|(? & ? & _ & ->)]; done).
    pose proof (measure_decreases _ _ _ Hh Hint Hst). lia.
  - destruct (Shutdown_progress _ _ _ _ HS) as [(l & w1 & Hst & Hl)|(HA & _)];
      [|by exists [], w].
    assert (internal l = true) as Hint
      by (destruct Hl as [->|(? & ? & _ & ->)]; done).
    pose proof (measure_decreases _ _ _ Hh Hint Hst).
    pose proof (Shutdown_halted _ _ _ _ _ Hs HS Hh Hint Hst) as Hh1.
    destruct (Shutdown_step _ _ _ _ _ _ HS (internal_not_call _ Hint) Hst)
      as [HS1|[a E]]; [|done].
    destruct (IH w1) as (ls & w' & Hls & Hsteps & HA'); try done; [lia|].
    exists (l :: ls), w'. simpl. rewrite Hint, Hls, Hst. done.
Qed.

(** The lock and the store, and then the pool is halted. *)
Lemma halting_call_completes s w :
  halting_store s → Shutdown s 0 [] w →
  Admin w = [ALock; s; AUnlock; ANotifyAll] ++ joins 0 (Q w) →
  Locked (Q w) = false →
  ∃ ls1 w1, forallb internal ls1 = true ∧ steps ls1 w = Some w1 ∧ Admin w1 = [].
Proof.
  intros Hs HS HA HL.
  assert (∃ w2, steps [LAdmin; LAdmin] w = Some w2 ∧ halted (Q w2) = true)
    as (w2 & Hs2 & Hh2).
  { cbn [steps step]. rewrite HA. cbn [app exec Q Admin]. rewrite HL.
    destruct Hs as [-> | ->]; cbn [exec Q Admin]; eexists; split;
      try reflexivity; unfold halted; simpl; by rewrite ?orb_true_r. }
  pose proof (Shutdown_steps s 0%nat [LAdmin; LAdmin] w w2 HS eq_refl Hs2) as HS2.
  destruct (halting_completes s (measure w2) w2) as (ls2 & w3 & Hls2 & Hs3 & HA3);
    try done.
  exists ([LAdmin; LAdmin] ++ ls2), w3. split; [done|]. split; [|done].
  by rewrite steps_app, Hs2.
Qed.

(** X6.  Over the lifetime of a queue, [Stop] and the destructor return
    once they have begun on a running pool.  They begin when no call is
    in progress, and not before: the worker thread of the controller
    takes up [Stop] when the call before has returned, and the thread
    that destroys the queue gets past the release of the controller when
    the call in progress has returned.  Once the call has begun: in every
    state that it can reach, the administrative thread can perform its
    next action or the thread that it waits for can move; once the flag
    is stored, every execution of the threads of the pool is finite; some
    execution carries the call to its end; and when the call is over the
    flag is stored and no handle holds a thread. *)
Theorem Stop_and_destructor_return (ls : list (Label Invoker)) (c : Call)
    (w0 : World Invoker) :
  c = CallTask TaskStop ∨ c = CallDestructor →
  lifetime (ls ++ [LCall c]) = true →
  steps ls (mkWorld initial [] []) = Some w0 →
  Running (Q w0) = true →
  (step (LCall c) w0 = None ↔ Admin w0 ≠ [])
  ∧ ∀ w, step (LCall c) w0 = Some w →
      (∀ ls1 w1, existsb is_call ls1 = false → steps ls1 w = Some w1 →
         (Admin w1 ≠ [] → Progress w1)
         ∧ (halted (Q w1) = true → ∀ ls2 w2,
              forallb internal ls2 = true → steps ls2 w1 = Some w2 →
              (length ls2 <= measure w1)%nat)
         ∧ (Admin w1 = [] →
              halted (Q w1) = true
              ∧ ∀ pos t, Threads (Q w1) !! pos = Some t → t = NotJoinable))
      ∧ ∃ ls1 w1, forallb internal ls1 = true ∧ steps ls1 w = Some w1
          ∧ Admin w1 = [].
Proof.
  intros Hc Hlife Hs0 HR. split.
  { rewrite step_LCall. by destruct (Admin w0). }
  intros w' Hcall.
  destruct (lifetime_goes_on ls c [] (mkWorld initial [] []) w0 (owned (@initial Invoker)))
    as [(o & Hp & Hi) _]; try done.
  rewrite step_LCall in Hcall. destruct (Admin w0) eqn:HA0; [|discriminate].
  injection Hcall as <-. simpl in Hp. injection Hp as <-.
  set (w := mkWorld (Q w0) (Call_body c (Q w0)) (Invoked w0)).
  pose proof Hi as (HL & _)%idle_spec. simpl in HL.
  assert (∀ pos t, Threads (Q w0) !! pos = Some t → joinable t = true) as Hj.
  { intros pos t Hpos.
    destruct (idle_running (Q w0) pos Hi HR) as (ThreadId & E & _);
      [by eapply lookup_lt_Some|].
    simpl in E. rewrite list_lookup_fmap, Hpos in E. by destruct t. }
  assert (∃ s, halting_store s ∧ Shutdown s 0 [] w
            ∧ Admin w = [ALock; s; AUnlock; ANotifyAll] ++ joins 0 (Q w0))
    as (s & Hs & HS & HA).
  { destruct Hc as [-> | ->].
    - exists (AStoreRunning false). split; [by left|]. split.
      + by apply Stop_Shutdown.
      + simpl. by rewrite Stop_body_running.
    - exists (AStoreDestroying true). split; [by right|]. split.
      + by apply Destructor_Shutdown.
      + simpl. unfold Destructor_actions. by rewrite HR, Sync_0. }
  split.
  - intros ls1 w1 Hls1 Hsteps1.
    pose proof (Shutdown_steps _ _ _ _ _ HS Hls1 Hsteps1) as HS1.
    split; [|split].
    + intros HA1. destruct (Shutdown_progress _ _ _ _ HS1) as [?|(E & _)]; done.
    + intros Hh ls2 w2 Hls2 Hsteps2.
      pose proof (Shutdown_bounded _ _ _ _ _ Hs HS1 Hh Hls2 Hsteps2). lia.
    + intros HA1. split; [|intros pos t Hpos;
        apply (proj2 (Shutdown_done _ _ _ HS1 HA1) pos t); [lia|done]].
      assert (perform_all (Admin w) (owned (Q w))
              = Some (set_oThreads
                        (take 0 (oThreads (owned (Q w0)))
                         ++ replicate (length (Threads (Q w0)) - 0) None)
                        (perform s (owned (Q w0))))) as Hp.
      { rewrite HA. change (Q w) with (Q w0).
        unfold joins. rewrite <- (app_nil_r (AJoin <$> _)).
        rewrite (shutdown_perform s 0 (Q w0) []); try done; [|lia].
        destruct Hs as [-> | ->]; auto. }
      eapply steps_perform_all in Hp; [|exact Hls1|exact Hsteps1].
      rewrite HA1 in Hp. cbn [perform_all] in Hp. apply (inj Some) in Hp.
      assert (oRunning (owned (Q w1)) = oRunning (perform s (owned (Q w0)))
              ∧ oDestroying (owned (Q w1)) = oDestroying (perform s (owned (Q w0))))
        as [HR' HD'] by (by rewrite Hp).
      unfold halted.
      destruct Hs as [-> | ->]; simpl in HR', HD'; rewrite ?HD', ?HR';
        by rewrite ?orb_true_r.
  - by apply (halting_call_completes s w).
Qed.

(** [Stop] on a pool at rest can be carried out. *)
Lemma Stop_completes w0 :
  idle (owned (Q w0)) = true → Admin w0 = [] →
  ∃ ls w, existsb is_call ls = false
    ∧ steps (LCall (CallTask TaskStop) :: ls) w0 = Some w ∧ Admin w = [].
Proof.
  intros Hi HA0. cbn [steps step]. rewrite HA0. cbn [Call_body Task_body].
  destruct (Running (Q w0)) eqn:HR.
  - pose proof Hi as (HL & _)%idle_spec. simpl in HL.
    set (w := mkWorld (Q w0) (Stop_body (Q w0)) (Invoked w0)).
    destruct (halting_call_completes (AStoreRunning false) w)
      as (ls & w1 & Hls & Hs & HA1); try done.
    + by left.
    + apply Stop_Shutdown; try done.
      intros pos t Hpos. change (Threads (Q w0) !! pos = Some t) in Hpos.
      destruct (idle_running (Q w0) pos Hi HR) as (ThreadId & E & _);
        [by eapply lookup_lt_Some|].
      simpl in E. rewrite list_lookup_fmap, Hpos in E. by destruct t.
    + unfold w. simpl. by rewrite Stop_body_running.
    + exists ls, w1. split; [by apply internal_no_call|]. done.
  - exists [], (mkWorld (Q w0) (Stop_body (Q w0)) (Invoked w0)).
    split; [done|]. split; [done|]. unfold Stop_body. by rewrite HR.
Qed.

(** Stopping, resizing and starting again, on a pool at rest. *)
Lemma restart_with_fresh_ids (n : Z) (w0 : World Invoker) :
  idle (owned (Q w0)) = true → Admin w0 = [] → 0 <= n < 2 ^ 31 →
  (∃ ls1 ls2 ls3 w,
     existsb is_call ls1 = false ∧ existsb is_call ls2 = false
     ∧ existsb is_call ls3 = false
     ∧ steps (LCall (CallTask TaskStop) :: ls1
              ++ LCall (CallTask (TaskSetNumberOfThreads n)) :: ls2
              ++ LCall (CallTask TaskStart) :: ls3) w0 = Some w
     ∧ Admin w = [])
  ∧ ∀ ls1 ls2 ls3 w,
      existsb is_call ls1 = false → existsb is_call ls2 = false →
      existsb is_call ls3 = false →
      steps (LCall (CallTask TaskStop) :: ls1
             ++ LCall (CallTask (TaskSetNumberOfThreads n)) :: ls2
             ++ LCall (CallTask TaskStart) :: ls3) w0 = Some w →
      Admin w = [] →
      Running (Q w) = true ∧ NumberOfThreads (Q w) = n
      ∧ ident <$> Threads (Q w) = (λ i, Some (Z.of_nat i)) <$> seq 0 (Z.to_nat n).
Proof.
  intros Hi0 HA0 Hn.
  destruct (Stop_perform (Q w0) Hi0) as (o1 & Hp1 & Hi1 & HR1 & _).
  split.
  - destruct (Stop_completes w0 Hi0 HA0) as (ls1 & w1 & Hc1 & Hs1 & HA1).
    pose proof (call_perform_all (CallTask TaskStop) ls1 w0 w1 o1 Hp1 Hc1 Hs1 HA1) as E1.
    subst o1.
    destruct (SetNumberOfThreads_perform n (Q w1) Hi1 Hn) as (o2 & Hp2 & Hi2 & HR2 & _).
    destruct (perform_all_run _ (mkWorld (Q w1) (SetNumberOfThreads_body n (Q w1))
                                   (Invoked w1)) o2 eq_refl Hp2)
      as (w2 & Hs2 & HA2 & E2).
    { intros pos. unfold SetNumberOfThreads_body. simpl in HR1, HR2. rewrite HR1.
      destruct (_ =? _); [by intros ?%elem_of_nil|].
      rewrite orb_true_r. simpl. rewrite !elem_of_cons, elem_of_nil.
      intuition discriminate. }
    subst o2. simpl in HR1, HR2. rewrite HR1 in HR2.
    pose proof (Start_perform (Q w2) Hi2 HR2) as Hp3.
    destruct (perform_all_run _ (mkWorld (Q w2) (Start_body (Q w2)) (Invoked w2))
                _ eq_refl Hp3) as (w3 & Hs3 & HA3 & _).
    { intros pos. unfold Start_body. rewrite HR2.
      intros [?|?]%elem_of_cons; [done|]. by eapply generate_no_join. }
    eexists ls1, _, _, w3. split; [done|].
    assert (∀ k, existsb is_call (replicate k (@LAdmin Invoker)) = false) as Hrep
      by (induction k; simpl; auto).
    split; [apply Hrep|]. split; [apply Hrep|]. split; [|done].
    rewrite app_comm_cons, steps_app, Hs1. simpl.
    rewrite HA1. rewrite steps_app. simpl in Hs2. rewrite Hs2. simpl.
    rewrite HA2. exact Hs3.
  - intros ls1 ls2 ls3 w Hc1 Hc2 Hc3 Hsteps HA.
    rewrite app_comm_cons in Hsteps.
    apply steps_app_inv in Hsteps as (w1 & Hs1 & Hsteps).
    rewrite app_comm_cons in Hsteps.
    apply steps_app_inv in Hsteps as (w2 & Hs2 & Hsteps).
    assert (Admin w1 = []) as HA1
      by (simpl in Hs2; destruct (Admin w1); [done|discriminate]).
    assert (Admin w2 = []) as HA2
      by (cbn [steps step] in Hsteps; destruct (Admin w2); [done|discriminate]).
    pose proof (call_perform_all (CallTask TaskStop) ls1 w0 w1 o1 Hp1 Hc1 Hs1 HA1) as E1.
    subst o1.
    destruct (SetNumberOfThreads_perform n (Q w1) Hi1 Hn)
      as (o2 & Hp2 & Hi2 & HR2 & Hlen2).
    pose proof (call_perform_all (CallTask (TaskSetNumberOfThreads n)) ls2 w1 w2 o2
                  Hp2 Hc2 Hs2 HA2) as E2.
    subst o2. simpl in HR1, HR2, Hlen2. rewrite HR1 in HR2.
    rewrite length_fmap in Hlen2.
    destruct (idle_size _ Hi2) as (_ & _ & HN2). unfold Threads_size in HN2.
    pose proof (call_perform_all (CallTask TaskStart) ls3 w2 w _
                  (Start_perform (Q w2) Hi2 HR2) Hc3 Hsteps HA) as E3.
    unfold owned in E3. injection E3 as _ _ -> -> ->.
    rewrite Hlen2. split; [done|]. split; [lia|done].
Qed.

(** X7.  Over the lifetime of a queue, at any moment when no call is in
    progress, [Stop()], then [SetNumberOfThreads(n)], then [Start()],
    each called when the one before is over.  The three calls can be
    carried out; and once [Start] is over, whatever the other threads did
    meanwhile, the pool is running, the desired number of threads and
    the number of handles are [n], and the thread of the handle at each
    position has that position as its id: the ids are 0 to [n - 1], each
    once, whatever they were before. *)
Theorem Stop_resize_Start (n : Z) (ls0 : list (Label Invoker))
    (w0 : World Invoker) :
  lifetime ls0 = true → steps ls0 (mkWorld initial [] []) = Some w0 →
  Admin w0 = [] → Destroying (Q w0) = false → 0 <= n < 2 ^ 31 →
  (∃ ls1 ls2 ls3 w,
     existsb is_call ls1 = false ∧ existsb is_call ls2 = false
     ∧ existsb is_call ls3 = false
     ∧ steps (LCall (CallTask TaskStop) :: ls1
              ++ LCall (CallTask (TaskSetNumberOfThreads n)) :: ls2
              ++ LCall (CallTask TaskStart) :: ls3) w0 = Some w
     ∧ Admin w = [])
  ∧ ∀ ls1 ls2 ls3 w,
      existsb is_call ls1 = false → existsb is_call ls2 = false →
      existsb is_call ls3 = false →
      steps (LCall (CallTask TaskStop) :: ls1
             ++ LCall (CallTask (TaskSetNumberOfThreads n)) :: ls2
             ++ LCall (CallTask TaskStart) :: ls3) w0 = Some w →
      Admin w = [] →
      Running (Q w) = true ∧ NumberOfThreads (Q w) = n
      ∧ Threads_size (Q w) = n
      ∧ ∀ pos t, Threads (Q w) !! pos = Some t →
          ∃ st, t = Joinable (Z.of_nat pos) st.
Proof.
  intros Hlife Hs0 HA0 HD0 Hn.
  destruct (lifetime_rest ls0 (mkWorld initial [] []) w0 (owned (@initial Invoker)))
    as (o & Hp & Hi); try done.
  rewrite HA0 in Hp. simpl in Hp. injection Hp as <-. specialize (Hi HD0).
  destruct (restart_with_fresh_ids n w0 Hi HA0 Hn) as [Hex Hall].
  split; [exact Hex|].
  intros ls1 ls2 ls3 w Hc1 Hc2 Hc3 Hsteps HA.
  destruct (Hall ls1 ls2 ls3 w Hc1 Hc2 Hc3 Hsteps HA) as (HR & HN & Hids).
  split; [done|]. split; [done|]. split.
  - apply (f_equal length) in Hids.
    rewrite !length_fmap, length_seq in Hids. unfold Threads_size. lia.
  - intros pos t Hpos.
    assert ((ident <$> Threads (Q w)) !! pos = Some (ident t)) as Hid
      by (by rewrite list_lookup_fmap, Hpos).
    rewrite Hids, list_lookup_fmap in Hid.
    destruct (seq _ _ !! _) as [k|] eqn:Hk; [|done].
    apply lookup_seq in Hk as [-> _]. simpl in Hid.
    destruct t as [|ThreadId st]; [done|]. injection Hid as <-. eauto.
Qed.

End Return.

(** * The end of the lifetime, and a join that cannot end *)

Section Ends.

Context {Invoker : Type}.
Local Abbreviation Queue := (vtkThreadedCallbackQueue Invoker).
Implicit Types (q : Queue) (w : World Invoker) (l : Label Invoker)
  (t : thread Invoker).

(** X8.  Over the lifetime of a queue, once the destructor has performed
    its actions no handle holds a thread, whether the pool was running or
    not when it was called: the destruction of the vector of handles that
    follows finds no joinable thread. *)
Theorem destructor_leaves_no_thread (ls ls' : list (Label Invoker))
    (w : World Invoker) :
  lifetime (ls ++ LCall CallDestructor :: ls') = true →
  steps (ls ++ LCall CallDestructor :: ls') (mkWorld initial [] []) = Some w →
  Admin w = [] →
  ∀ pos t, Threads (Q w) !! pos = Some t → t = NotJoinable.
Proof.
  intros Hlife Hsteps HA.
  apply steps_app_inv in Hsteps as (w0 & Hs0 & Hsteps).
  destruct (lifetime_goes_on ls CallDestructor ls' (mkWorld initial [] []) w0
              (owned (@initial Invoker))) as [(o & Hp & Hi) Hlife']; try done.
  simpl in Hlife'. apply negb_true_iff in Hlife'.
  assert (Admin w0 = []) as HA0
    by (cbn [steps] in Hsteps; rewrite step_LCall in Hsteps;
        destruct (Admin w0); [done|discriminate]).
  rewrite HA0 in Hp. simpl in Hp. injection Hp as <-.
  assert (∃ o, perform_all (Destructor_actions (Q w0)) (owned (Q w0)) = Some o
            ∧ oThreads o = replicate (length (Threads (Q w0))) None)
    as (o & Hp & Ho).
  { unfold Destructor_actions. destruct (Running (Q w0)) eqn:HR.
    - rewrite Sync_0. unfold joins. rewrite <- (app_nil_r (AJoin <$> _)).
      rewrite (shutdown_perform (AStoreDestroying true) 0 (Q w0) []); auto; [|lia].
      eexists. split; [reflexivity|]. simpl. by rewrite Nat.sub_0_r.
    - eexists. split; [reflexivity|]. simpl.
      apply list_eq. intros pos.
      destruct (decide (pos < length (Threads (Q w0)))%nat) as [Hlt|Hge].
      + pose proof (idle_stopped _ pos Hi HR Hlt) as E1. simpl in E1.
        rewrite E1. symmetry. by apply lookup_replicate.
      + rewrite !(proj2 (lookup_ge_None _ _)); [done|..].
        * rewrite length_replicate. lia.
        * rewrite length_fmap. lia. }
  pose proof (call_perform_all CallDestructor ls' w0 w o Hp Hlife' Hsteps HA) as E.
  intros pos t Hpos.
  assert (oThreads (owned (Q w)) !! pos = Some (ident t)) as Hid
    by (simpl; by rewrite list_lookup_fmap, Hpos).
  rewrite E, Ho in Hid. apply lookup_replicate in Hid as [Hid _].
  by destruct t.
Qed.

(** The thread stays in service, and the administrative thread gets no
    further than the join. *)
Lemma Joins_ahead_step pos ThreadId l w w' :
  Joins_ahead pos ThreadId w → is_call l = false → step l w = Some w' →
  Joins_ahead pos ThreadId w'.
Proof.
  intros (HR & HD & (pre & rest & HA & Hpre) & st & Hpos & Hst & Hid) Hc H.
  destruct l as [p|p|invoker wake| |c]; simpl in H; try discriminate.
  - destruct (Threads (Q w) !! p) as [[|id0 st0]|] eqn:Hp; try discriminate.
    destruct (ThreadWorker_step id0 st0 (Q w)) as [[[st' q'] invs]|] eqn:Hs;
      [|discriminate].
    injection H as <-.
    pose proof (ThreadWorker_step_frame _ _ _ _ _ _ Hs) as (_ & HD' & HR' & HN' & HT').
    unfold Joins_ahead. cbn [Q Admin].
    split; [by rewrite <- HR|]. split; [by rewrite <- HD|]. split; [eauto|].
    rewrite set_thread_Threads, set_thread_NumberOfThreads, HT', HN'.
    destruct (decide (p = pos)) as [->|Hne].
    + rewrite Hpos in Hp. injection Hp as <- <-.
      exists st'. rewrite list_lookup_insert_eq by (by eapply lookup_lt_Some).
      split; [done|]. split; [by eapply in_service_stays|done].
    + exists st. by rewrite list_lookup_insert_ne.
  - destruct (Threads (Q w) !! p) as [[|id0 []]|] eqn:Hp; try discriminate.
    injection H as <-. unfold Joins_ahead. cbn [Q Admin].
    split; [done|]. split; [done|]. split; [eauto|].
    rewrite set_thread_Threads, set_thread_NumberOfThreads.
    destruct (decide (p = pos)) as [->|Hne].
    + rewrite Hpos in Hp. injection Hp as <- _.
      exists Notified.
      by rewrite list_lookup_insert_eq by (by eapply lookup_lt_Some).
    + exists st. by rewrite list_lookup_insert_ne.
  - destruct (Locked (Q w)); [discriminate|].
    destruct (_ && _); [discriminate|]. injection H as <-.
    unfold Joins_ahead. cbn [Q Admin].
    destruct (Push_frame invoker wake (Q w)) as (_ & _ & _ & -> & -> & -> & _).
    split; [done|]. split; [done|]. split; [eauto|].
    unfold Push.
    destruct (Threads (Q w) !! wake) as [[|id0 []]|] eqn:Hw; simpl;
      try (by exists st).
    destruct (decide (wake = pos)) as [->|Hne].
    + rewrite Hpos in Hw. injection Hw as <- _.
      exists Notified.
      by rewrite list_lookup_insert_eq by (by eapply lookup_lt_Some).
    + exists st. by rewrite list_lookup_insert_ne.
  - rewrite HA in H. destruct pre as [|a pre]; simpl in H.
    { rewrite Hpos in H. by destruct st. }
    simpl in Hpre. apply andb_true_iff in Hpre as [Ha Hpre].
    destruct (exec a (Q w)) as [q'| |] eqn:He; try discriminate.
    injection H as <-. unfold Joins_ahead. cbn [Q Admin].
    destruct a; try discriminate; simpl in He.
    + destruct (Locked (Q w)); [discriminate|]. injection He as <-. simpl.
      repeat split; eauto.
    + injection He as <-. simpl. repeat split; eauto.
    + injection He as <-. simpl. apply Z.ltb_lt in Ha. repeat split; eauto.
    + injection He as <-. simpl. split; [done|]. split; [done|]. split; [eauto|].
      rewrite list_lookup_fmap, Hpos. simpl.
      destruct st; simpl; eauto.
Qed.

Lemma Joins_ahead_steps pos ThreadId ls : ∀ w w',
  Joins_ahead pos ThreadId w → existsb is_call ls = false →
  steps ls w = Some w' → Joins_ahead pos ThreadId w'.
Proof.
  induction ls as [|l ls IH]; intros w w' HJ; simpl.
  - by intros _ [= <-].
  - intros [Hl Hls]%orb_false_iff.
    destruct (step l w) as [w1|] eqn:Hst; [|discriminate].
    eauto using Joins_ahead_step.
Qed.

(** When the thread of the first handle that the shrinking call joins has
    an id below the new desired number, it is in service all along. *)
Lemma shrink_Joins_ahead (n ThreadId : Z) (st : WorkerState Invoker) w0 :
  Running (Q w0) = true → Destroying (Q w0) = false →
  0 <= n < Threads_size (Q w0) → Threads_size (Q w0) < 2 ^ 31 →
  Threads (Q w0) !! Z.to_nat n = Some (Joinable ThreadId st) → st ≠ Returned →
  ThreadId < n → ThreadId < NumberOfThreads (Q w0) →
  Admin w0 = SetNumberOfThreads_body n (Q w0) →
  Joins_ahead (Z.to_nat n) ThreadId w0.
Proof.
  intros HR HD Hn Hsz Hpos Hst Hid HN HA.
  split; [done|]. split; [done|]. split; [|eauto].
  rewrite HA, SetNumberOfThreads_shrink by done.
  exists [ALock; AStoreNumberOfThreads n; AUnlock; ANotifyAll].
  assert (Z.to_nat n < length (Threads (Q w0)))%nat as Hlt
    by (unfold Threads_size in Hn; lia).
  replace (length (Threads (Q w0)) - Z.to_nat n)%nat
    with (S (length (Threads (Q w0)) - S (Z.to_nat n))) by lia.
  eexists. split; [reflexivity|]. simpl.
  destruct (Z.ltb_spec ThreadId n); [done|lia].
Qed.

(** X9.  The shrinking [SetNumberOfThreads(n)] on a running pool never
    returns when the thread of the handle at position [n], the first it
    joins, has an id below [n]: this thread stays in service, so it never
    returns, and the join waits for it for ever, whatever the threads do
    and whatever is submitted. *)
Theorem shrink_waits_for_ever (n ThreadId : Z) (st : WorkerState Invoker)
    (w0 : World Invoker) :
  Running (Q w0) = true → Destroying (Q w0) = false →
  0 <= n < Threads_size (Q w0) → Threads_size (Q w0) < 2 ^ 31 →
  Threads (Q w0) !! Z.to_nat n = Some (Joinable ThreadId st) → st ≠ Returned →
  ThreadId < n → ThreadId < NumberOfThreads (Q w0) →
  Admin w0 = SetNumberOfThreads_body n (Q w0) →
  ∀ ls w, existsb is_call ls = false → steps ls w0 = Some w →
    AJoin (Z.to_nat n) ∈ Admin w
    ∧ ∃ st', Threads (Q w) !! Z.to_nat n = Some (Joinable ThreadId st')
        ∧ st' ≠ Returned.
Proof.
  intros HR HD Hn Hsz Hpos Hst Hid HN HA ls w Hls Hsteps.
  pose proof (shrink_Joins_ahead n ThreadId st w0 HR HD Hn Hsz Hpos Hst Hid HN HA)
    as HJ.
  destruct (Joins_ahead_steps _ _ _ _ _ HJ Hls Hsteps)
    as (_ & _ & (pre & rest & E & _) & st' & Hpos' & Hst' & _).
  split; [|eauto].
  rewrite E, elem_of_app, elem_of_cons. auto.
Qed.

End Ends.

(** * No worker in service is lost *)

Section Living.

Context {Invoker : Type}.
Local Abbreviation Queue := (vtkThreadedCallbackQueue Invoker).
Implicit Types (q : Queue) (w : World Invoker) (l : Label Invoker)
  (t : thread Invoker) (a : Action).

Lemma existsb_tail {A} (P : A → bool) (xs : list A) :
  existsb P xs = false → existsb P (tail xs) = false.
Proof. destruct xs; simpl; [done|]. by intros [_ ?]%orb_false_iff. Qed.

Lemma existsb_raises_frame q q' (actions : list Action) :
  NumberOfThreads q' = NumberOfThreads q →
  existsb (raises q') actions = existsb (raises q) actions.
Proof.
  intros E. induction actions as [|a rest IH]; simpl; [done|].
  rewrite IH. f_equal. destruct a; simpl; by rewrite ?E.
Qed.

Lemma no_store_no_raise q (actions : list Action) :
  existsb stores_number actions = false → existsb (raises q) actions = false.
Proof.
  induction actions as [|a rest IH]; simpl; [done|].
  intros [Ha Hrest]%orb_false_iff. rewrite (IH Hrest).
  by destruct a.
Qed.

Lemma no_store_single (actions : list Action) :
  existsb stores_number actions = false → single_store actions = true.
Proof.
  induction actions as [|a rest IH]; simpl; [done|].
  intros [-> Hrest]%orb_false_iff. auto.
Qed.

Lemma single_store_tail a (rest : list Action) :
  single_store (a :: rest) = true →
  single_store rest = true
  ∧ (stores_number a = true → existsb stores_number rest = false).
Proof.
  simpl. destruct (stores_number a).
  - intros H%negb_true_iff. split; [by apply no_store_single|done].
  - done.
Qed.

(** A step that leaves the flags, the desired number and the actions to
    perform as they are, and that lets a thread return only when it is
    out of service or the pool is halted. *)
Lemma Alive_ext w w' :
  Admin w' = Admin w → halted (Q w') = halted (Q w) →
  NumberOfThreads (Q w') = NumberOfThreads (Q w) →
  Running (Q w') = Running (Q w) →
  (∀ pos t', Threads (Q w') !! pos = Some t' →
     ∃ t, Threads (Q w) !! pos = Some t ∧ ident t' = ident t
       ∧ (returned t' = true →
          returned t = true ∨ halted (Q w) = true
          ∨ ∀ ThreadId, ident t = Some ThreadId → NumberOfThreads (Q w) <= ThreadId)) →
  Alive w → Alive w'.
Proof.
  intros EA Eh EN ER Hts (A1 & A2 & A3 & A4 & A5 & A6).
  unfold Alive. rewrite EA, Eh, EN, ER.
  rewrite !(existsb_raises_frame (Q w) (Q w')) by done.
  split; [|split; [done|split; [|split; [done|split; [done|]]]]].
  - intros pos ThreadId Hpos.
    destruct (Hts _ _ Hpos) as (t & Ht & Hid & Hret).
    destruct t as [|id st]; [done|]. injection Hid as <-.
    destruct (Hret eq_refl) as [Hr|[?|Hout]]; [|by left|right; by apply Hout].
    destruct st; try done. by apply (A1 pos).
  - intros Hrev pos t' Hpos.
    destruct (Hts _ _ Hpos) as (t & Ht & Hid & _).
    rewrite (A3 Hrev _ _ Ht) in Hid. by destruct t'.
  - intros Hra HR pos ThreadId st Hpos.
    destruct (Hts _ _ Hpos) as (t & Ht & Hid & _).
    destruct t as [|id st0]; [done|]. injection Hid as <-.
    by apply (A6 Hra HR pos ThreadId st0).
Qed.

(** The steps of the workers and the submissions. *)
Lemma Alive_step_other l w w' :
  Alive w → is_call l = false → l ≠ LAdmin → step l w = Some w' → Alive w'.
Proof.
  intros HA Hc Hl H.
  destruct l as [p|p|invoker wake| |c]; simpl in H; try done.
  - destruct (Threads (Q w) !! p) as [[|id st]|] eqn:Hp; try discriminate.
    destruct (ThreadWorker_step id st (Q w)) as [[[st' q'] invs]|] eqn:Hs;
      [|discriminate].
    injection H as <-.
    pose proof (ThreadWorker_step_frame _ _ _ _ _ _ Hs) as (_ & HD & HR & HN & HT).
    apply (Alive_ext w); cbn [Q Admin]; try done.
    + rewrite set_thread_halted. by eapply ThreadWorker_step_halted.
    + intros pos t'. rewrite set_thread_Threads, HT.
      intros [[-> [<- _]]|[Hne Hpos]]%list_lookup_insert_Some.
      * exists (Joinable id st). split; [done|]. split; [done|].
        simpl. destruct st'; try done. intros _.
        apply ThreadWorker_step_inv in Hs
          as [(_ & _ & _ & Hret & _)|(inv & _ & [=] & _)].
        destruct (proj1 (leaves_loop_iff _ _) (Hret eq_refl)) as [E|[E|[E _]]].
        -- right. left. unfold halted. by rewrite E.
        -- right. right. by intros ? [= <-].
        -- right. left. unfold halted. by rewrite E, orb_true_r.
      * exists t'. auto.
  - destruct (Threads (Q w) !! p) as [[|id []]|] eqn:Hp; try discriminate.
    injection H as <-.
    apply (Alive_ext w); cbn [Q Admin]; try done.
    intros pos t'. rewrite set_thread_Threads.
    intros [[-> [<- _]]|[Hne Hpos]]%list_lookup_insert_Some.
    + exists (Joinable id Waiting). done.
    + exists t'. auto.
  - destruct (Locked (Q w)); [discriminate|].
    destruct (_ && _); [discriminate|]. injection H as <-.
    destruct (Push_frame invoker wake (Q w)) as (_ & _ & _ & ED & ER & EN & _).
    apply (Alive_ext w); cbn [Q Admin]; try done.
    + unfold halted. by rewrite ED, ER.
    + intros pos t'. unfold Push.
      destruct (Threads (Q w) !! wake) as [[|id []]|] eqn:Hw; simpl;
        try (intros Hpos; exists t'; by auto).
      intros [[-> [<- _]]|[Hne Hpos]]%list_lookup_insert_Some.
      * exists (Joinable id Waiting). done.
      * exists t'. auto.
Qed.

(** The actions of the administrative thread. *)
Lemma Alive_admin w a (rest : list Action) q' (invoked : list Invoker) :
  Alive w → Admin w = a :: rest → exec a (Q w) = Steps q' →
  Alive (mkWorld q' rest invoked).
Proof.
  intros (A1 & A2 & A3 & A4 & A5 & A6) HA He.
  rewrite HA in A2, A3, A4, A5, A6. simpl in A2, A5.
  destruct (single_store_tail _ _ A4) as [A4' Hone].
  assert (existsb (raises q') rest = false) as Hnr.
  { destruct (stores_number a) eqn:Hsn.
    - apply no_store_no_raise. by apply Hone.
    - rewrite (existsb_raises_frame (Q w) q'); [done|].
      apply exec_fields in He.
      assert (NumberOfThreads q' = fNumberOfThreads (store (fields (Q w)) a)) as ->
        by (by rewrite <- He).
      by destruct a. }
  unfold Alive. cbn [Q Admin].
  split; [|split; [by apply existsb_tail|split; [by rewrite A2|
    split; [done|split; [by apply existsb_tail|by rewrite Hnr]]]]].
  intros pos ThreadId Hpos.
  destruct a; simpl in He.
  - destruct (Locked (Q w)); [discriminate|]. injection He as <-. by apply (A1 pos).
  - injection He as <-. by apply (A1 pos).
  - injection He as <-. simpl in Hpos. destruct b.
    + discriminate (A3 eq_refl _ _ Hpos).
    + by left.
  - injection He as <-. simpl in Hpos. destruct b.
    + left. unfold halted. simpl. by rewrite orb_true_r.
    + discriminate (A3 eq_refl _ _ Hpos).
  - injection He as <-. simpl in Hpos. simpl in A6. unfold halted. simpl.
    destruct (A1 _ _ Hpos) as [Hh|Hout]; [by left|].
    destruct (Z.ltb_spec (NumberOfThreads (Q w)) n) as [Hlt|Hge]; [|right; lia].
    destruct (Running (Q w)) eqn:HR; [|by left].
    specialize (A6 eq_refl eq_refl _ _ _ Hpos). lia.
  - injection He as <-. simpl in Hpos. rewrite list_lookup_fmap in Hpos.
    destruct (Threads (Q w) !! pos) as [[|id []]|] eqn:Ht; simplify_eq/=.
    by apply (A1 pos).
  - destruct (Threads (Q w) !! pos0) as [[|id []]|] eqn:Ht; try discriminate.
    injection He as <-. simpl in Hpos.
    apply list_lookup_insert_Some in Hpos as [[_ [? _]]|[_ Hpos]]; [done|].
    by apply (A1 pos).
  - destruct (n <? 0); [discriminate|].
    destruct (forallb _ _); [|discriminate]. injection He as <-. simpl in Hpos.
    apply lookup_lt_Some in Hpos as Hlt. rewrite length_resize in Hlt.
    destruct (decide (pos < length (Threads (Q w)))%nat).
    + rewrite lookup_resize in Hpos by lia. by apply (A1 pos).
    + by rewrite lookup_resize_new in Hpos by lia.
  - injection He as <-. simpl in Hpos.
    apply lookup_app_Some in Hpos as [Hpos|[_ Hpos]]; [by apply (A1 pos)|].
    by destruct (pos - _)%nat as [|[|?]].
  - destruct (Threads (Q w) !! pos0) as [[|id st]|] eqn:Ht; try discriminate.
    injection He as <-. simpl in Hpos.
    apply list_lookup_insert_Some in Hpos as [[_ [? _]]|[_ Hpos]]; [done|].
    by apply (A1 pos).
  - discriminate.
Qed.

Lemma Alive_step l w w' :
  Alive w → is_call l = false → step l w = Some w' → Alive w'.
Proof.
  intros HA Hc H.
  destruct l as [p|p|invoker wake| |c];
    try (by eapply Alive_step_other; [exact HA|exact Hc| |exact H]).
  simpl in H. destruct (Admin w) as [|a rest] eqn:E; [discriminate|].
  destruct (exec a (Q w)) as [q'| |] eqn:He; try discriminate.
  injection H as <-. by eapply Alive_admin.
Qed.

Lemma Alive_steps ls : ∀ w w',
  Alive w → existsb is_call ls = false → steps ls w = Some w' → Alive w'.
Proof.
  induction ls as [|l ls IH]; intros w w' HA; simpl.
  - by intros _ [= <-].
  - intros [Hl Hls]%orb_false_iff.
    destruct (step l w) as [w1|] eqn:Hst; [|discriminate].
    eauto using Alive_step.
Qed.

(** The bodies of the calls: lists of actions made by the loops. *)
Lemma existsb_joins (P : Action → bool) (positions : list nat) :
  (∀ pos, P (AJoin pos) = false) → existsb P (AJoin <$> positions) = false.
Proof. intros HP. induction positions; simpl; [done|]. by rewrite HP. Qed.

Lemma existsb_generate (P : Action → bool) pos count threadId :
  (∀ p ThreadId, P (AAssign p ThreadId) = false) →
  existsb P (generate pos count threadId) = false.
Proof.
  intros HP. revert pos threadId.
  induction count as [|count IH]; intros pos threadId; simpl; [done|].
  rewrite HP. apply IH.
Qed.

Lemma existsb_generate_n (P : Action → bool) count cur :
  (∀ ThreadId, P (APushBack ThreadId) = false) →
  existsb P (generate_n count cur) = false.
Proof.
  intros HP. revert cur.
  induction count as [|count IH]; intros cur; simpl; [done|].
  rewrite HP. apply IH.
Qed.

(** A call on a pool at rest. *)
Lemma Alive_call c w :
  Alive w → Admin w = [] → idle (owned (Q w)) = true →
  Alive (mkWorld (Q w) (Call_body c (Q w)) (Invoked w)).
Proof.
  intros (A1 & _) HA Hi.
  destruct (idle_size _ Hi) as (Hsz & Eint & HN).
  assert (Running (Q w) = true →
          ∀ pos ThreadId st, Threads (Q w) !! pos = Some (Joinable ThreadId st) →
            ThreadId < NumberOfThreads (Q w)) as Hserv.
  { intros HR pos ThreadId st Hpos.
    destruct (idle_running _ pos Hi HR) as (id & E & Hb);
      [by eapply lookup_lt_Some|].
    simpl in E. rewrite list_lookup_fmap, Hpos in E. injection E as ->.
    apply lookup_lt_Some in Hpos. unfold Threads_size in HN. lia. }
  assert (Running (Q w) = false →
          ∀ pos t, Threads (Q w) !! pos = Some t → t = NotJoinable) as Hvac.
  { intros HR pos t Hpos.
    pose proof (idle_stopped _ pos Hi HR) as E. simpl in E.
    rewrite list_lookup_fmap, Hpos in E.
    specialize (E ltac:(by eapply lookup_lt_Some)). by destruct t. }
  unfold Alive. cbn [Q Admin]. split; [exact A1|].
  assert (∀ B : list Action,
            existsb revives (tail B) = false →
            (existsb revives B = true → Running (Q w) = false) →
            single_store B = true →
            existsb (raises (Q w)) (tail B) = false →
            existsb revives (tail B) = false
            ∧ (existsb revives B = true →
               ∀ pos t, Threads (Q w) !! pos = Some t → t = NotJoinable)
            ∧ single_store B = true
            ∧ existsb (raises (Q w)) (tail B) = false
            ∧ (existsb (raises (Q w)) B = true → Running (Q w) = true →
               ∀ pos ThreadId st,
                 Threads (Q w) !! pos = Some (Joinable ThreadId st) →
                 ThreadId < NumberOfThreads (Q w))) as Hbody.
  { intros B H2 H3 H4 H5. split; [done|]. split; [|split; [done|split; [done|]]].
    - intros Hrev. apply Hvac. by apply H3.
    - intros _. apply Hserv. }
  apply Hbody; clear Hbody.
  - (* nothing revives the pool after the first action *)
    destruct c as [[n| |]|]; simpl.
    + unfold SetNumberOfThreads_body, Sync.
      repeat case_match; simpl;
        rewrite ?existsb_app, ?existsb_generate_n, ?existsb_joins; done.
    + unfold Stop_body. rewrite Sync_0. unfold joins.
      case_match; simpl; rewrite ?existsb_joins; done.
    + unfold Start_body. case_match; simpl; rewrite ?existsb_generate; done.
    + unfold Destructor_actions. rewrite Sync_0. unfold joins.
      case_match; simpl; rewrite ?existsb_joins; done.
  - (* and the first action revives it only when it is stopped *)
    destruct c as [[n| |]|]; simpl.
    + unfold SetNumberOfThreads_body, Sync.
      repeat case_match; simpl;
        rewrite ?existsb_app, ?existsb_generate_n, ?existsb_joins; done.
    + unfold Stop_body. rewrite Sync_0. unfold joins.
      case_match; simpl; rewrite ?existsb_joins; done.
    + unfold Start_body. by destruct (Running (Q w)).
    + unfold Destructor_actions. rewrite Sync_0. unfold joins.
      case_match; simpl; rewrite ?existsb_joins; done.
  - (* one store to the desired number at most *)
    destruct c as [[n| |]|]; simpl.
    + unfold SetNumberOfThreads_body, Sync.
      repeat case_match; simpl;
        rewrite ?existsb_app, ?existsb_generate_n, ?existsb_joins; done.
    + unfold Stop_body. rewrite Sync_0. unfold joins.
      case_match; simpl; [done|]. apply no_store_single. by apply existsb_joins.
    + unfold Start_body. case_match; simpl; [done|].
      apply no_store_single. by apply existsb_generate.
    + unfold Destructor_actions. rewrite Sync_0. unfold joins.
      case_match; simpl; [|done]. apply no_store_single. by apply existsb_joins.
  - (* and it does not raise it, unless it is the first action *)
    destruct c as [[n| |]|]; simpl.
    + unfold SetNumberOfThreads_body. rewrite Eint.
      destruct (Z.eqb_spec (Threads_size (Q w)) n); [done|].
      destruct (Z.ltb_spec (Threads_size (Q w)) n); simpl.
      * destruct (Running (Q w)); simpl; [|done].
        by apply existsb_generate_n.
      * destruct (Running (Q w)); simpl; [|done].
        destruct (Z.ltb_spec (NumberOfThreads (Q w)) n); [lia|]. simpl.
        unfold Sync. case_match; simpl; rewrite ?existsb_app, ?existsb_joins; done.
    + unfold Stop_body. rewrite Sync_0. unfold joins.
      case_match; simpl; rewrite ?existsb_joins; done.
    + unfold Start_body. case_match; simpl; rewrite ?existsb_generate; done.
    + unfold Destructor_actions. rewrite Sync_0. unfold joins.
      case_match; simpl; rewrite ?existsb_joins; done.
Qed.

(** Over the lifetime of a queue no worker in service is lost. *)
Lemma lifetime_alive ls : ∀ w w' o,
  perform_all (Admin w) (owned (Q w)) = Some o → idle o = true → Alive w →
  lifetime ls = true → steps ls w = Some w' → Alive w'.
Proof.
  induction ls as [|l ls IH]; intros w w' o Hp Hi HAl Hlife; simpl.
  - by intros [= <-].
  - destruct (step l w) as [w1|] eqn:Hs; [|discriminate]. intros Hsteps.
    destruct l as [pos|pos|invoker wake| |[f|]]; simpl in Hlife.
    1-4: eapply (IH w1 w' o);
           [eapply step_perform_all; [|exact Hs|exact Hp]; done
           |done|eapply Alive_step; [exact HAl| |exact Hs]; done|done..].
    + apply andb_true_iff in Hlife as [Hv Hlife].
      rewrite step_LCall in Hs. destruct (Admin w) eqn:HA; [|discriminate].
      injection Hs as <-. simpl in Hp. injection Hp as <-.
      destruct (Task_perform f (Q w) Hi Hv) as (o1 & Hp1 & Hi1).
      apply (IH (mkWorld (Q w) (Task_body f (Q w)) (Invoked w)) w' o1); try done.
      by apply (Alive_call (CallTask f) w).
    + apply negb_true_iff in Hlife.
      rewrite step_LCall in Hs. destruct (Admin w) eqn:HA; [|discriminate].
      injection Hs as <-. simpl in Hp. injection Hp as <-.
      eapply Alive_steps; [|exact Hlife|exact Hsteps].
      by apply (Alive_call CallDestructor w).
Qed.

Lemma initial_Alive : Alive (mkWorld (@initial Invoker) [] []).
Proof.
  split; [|done]. intros [|[|pos]] ThreadId; simpl; discriminate.
Qed.

(** In a running pool at rest every handle holds a thread that is in
    service and has not returned. *)
Lemma Alive_at_rest w pos t :
  Alive w → idle (owned (Q w)) = true → Running (Q w) = true →
  Threads (Q w) !! pos = Some t →
  ∃ ThreadId st, t = Joinable ThreadId st ∧ st ≠ Returned
    ∧ Z.of_nat pos - 1 <= ThreadId <= Z.of_nat pos
    ∧ ThreadId < NumberOfThreads (Q w).
Proof.
  intros (A1 & _) Hi HR Hpos.
  pose proof Hi as (_ & HD & _)%idle_spec. simpl in HD.
  destruct (idle_running _ pos Hi HR) as (ThreadId & E & Hb);
    [by eapply lookup_lt_Some|].
  simpl in E. rewrite list_lookup_fmap, Hpos in E.
  destruct t as [|id st]; [done|]. injection E as ->.
  destruct (idle_size _ Hi) as (_ & _ & HN). unfold Threads_size in HN.
  apply lookup_lt_Some in Hpos as Hlt.
  exists ThreadId, st. split; [done|]. split; [|split; [done|lia]].
  intros ->. destruct (A1 _ _ Hpos) as [Hh|?]; [|lia].
  unfold halted in Hh. by rewrite HR, HD in Hh.
Qed.

(** X10.  Over the lifetime of a queue a thread returns from the loop of
    the worker only when it is out of service or when the pool is stopped
    or being destroyed, and stays so until it is joined: in every state,
    a thread that has returned has an id that is not below the desired
    number of threads, unless the pool is halted.  So a running pool
    never loses a worker in service: between calls, every handle of a
    running pool holds a thread that is in service and has not
    returned. *)
Theorem lifetime_threads_alive (ls : list (Label Invoker)) (w : World Invoker) :
  lifetime ls = true → steps ls (mkWorld initial [] []) = Some w →
  (∀ pos ThreadId, Threads (Q w) !! pos = Some (Joinable ThreadId Returned) →
     Running (Q w) = false ∨ Destroying (Q w) = true
     ∨ NumberOfThreads (Q w) <= ThreadId)
  ∧ (Admin w = [] → Running (Q w) = true → Destroying (Q w) = false →
     ∀ pos t, Threads (Q w) !! pos = Some t →
       ∃ ThreadId st, t = Joinable ThreadId st ∧ st ≠ Returned
         ∧ ThreadId < NumberOfThreads (Q w)).
Proof.
  intros Hlife Hsteps.
  pose proof (lifetime_alive ls (mkWorld initial [] []) w (owned (@initial Invoker))
                eq_refl eq_refl initial_Alive Hlife Hsteps) as HAl.
  split.
  - intros pos ThreadId Hpos. destruct HAl as (A1 & _).
    destruct (A1 _ _ Hpos) as [Hh|?]; [|auto].
    unfold halted in Hh. apply orb_true_iff in Hh as [?%negb_true_iff|?]; auto.
  - intros HA HR HD pos t Hpos.
    destruct (lifetime_rest ls (mkWorld initial [] []) w (owned (@initial Invoker)))
      as (o & Hp & Hi); try done.
    rewrite HA in Hp. simpl in Hp. injection Hp as <-. specialize (Hi HD).
    destruct (Alive_at_rest w pos t HAl Hi HR Hpos) as (ThreadId & st & ? & ? & _ & ?).
    eauto.
Qed.

(** X11.  Over the lifetime of a queue, a shrinking [SetNumberOfThreads(n)]
    called on a running pool returns exactly when the thread of the
    handle at position [n] has the id [n].  That thread has the id [n]
    or [n - 1].  With [n] the call cannot deadlock and some execution
    carries it to its end; with [n - 1], the id that the growing branch
    gives to the thread that it appends at position [n], the call never
    returns, whatever the threads do and whatever is submitted. *)
Theorem lifetime_shrink (ls : list (Label Invoker)) (n : Z)
    (w0 w : World Invoker) :
  lifetime ls = true → steps ls (mkWorld initial [] []) = Some w0 →
  Destroying (Q w0) = false → Running (Q w0) = true →
  0 <= n < Threads_size (Q w0) →
  step (LCall (CallTask (TaskSetNumberOfThreads n))) w0 = Some w →
  ∃ ThreadId st, Threads (Q w0) !! Z.to_nat n = Some (Joinable ThreadId st)
    ∧ (ThreadId = n ∨ ThreadId = n - 1)
    ∧ (ThreadId = n →
         (∀ ls' w', existsb is_call ls' = false → steps ls' w = Some w' →
            Admin w' ≠ [] → Progress w')
         ∧ ∃ ls' w', forallb internal ls' = true ∧ steps ls' w = Some w'
             ∧ Admin w' = [])
    ∧ (ThreadId = n - 1 →
         ∀ ls' w', existsb is_call ls' = false → steps ls' w = Some w' →
           Admin w' ≠ []).
Proof.
  intros Hlife Hsteps HD HR Hn Hcall.
  simpl in Hcall. destruct (Admin w0) eqn:HA0; [|discriminate].
  injection Hcall as <-.
  pose proof (lifetime_alive ls (mkWorld initial [] []) w0 (owned (@initial Invoker))
                eq_refl eq_refl initial_Alive Hlife Hsteps) as HAl.
  destruct (lifetime_rest ls (mkWorld initial [] []) w0 (owned (@initial Invoker)))
    as (o & Hp & Hi); try done.
  rewrite HA0 in Hp. simpl in Hp. injection Hp as <-. specialize (Hi HD).
  destruct (idle_size _ Hi) as (Hsz & _ & HN).
  pose proof Hi as (HL & _)%idle_spec. simpl in HL.
  assert (Z.to_nat n < length (Threads (Q w0)))%nat as Hlt
    by (unfold Threads_size in Hn; lia).
  destruct (lookup_lt_is_Some_2 _ _ Hlt) as [t Hpos].
  destruct (Alive_at_rest w0 _ t HAl Hi HR Hpos)
    as (ThreadId & st & -> & Hst & Hb & Hserv).
  exists ThreadId, st. split; [done|]. split; [lia|]. split.
  - intros ->.
    apply (shrink_returns n (mkWorld (Q w0) (SetNumberOfThreads_body n (Q w0))
                               (Invoked w0))); try done.
    intros pos t Hle Hp. cbn [Q] in Hp.
    destruct (Alive_at_rest w0 pos t HAl Hi HR Hp) as (id & st' & -> & _ & Hb' & _).
    exists id, st'. split; [done|].
    destruct (decide (pos = Z.to_nat n)) as [->|Hne]; [|lia].
    rewrite Hpos in Hp. by injection Hp as ->.
  - intros -> ls' w' Hls' Hsteps' HA'.
    assert (Joins_ahead (Z.to_nat n) (n - 1)
              (mkWorld (Q w0) (SetNumberOfThreads_body n (Q w0)) (Invoked w0))) as HJ
      by (apply (shrink_Joins_ahead n (n - 1) st); try done; lia).
    destruct (Joins_ahead_steps _ _ _ _ _ HJ Hls' Hsteps')
      as (_ & _ & (pre & rest & E & _) & _).
    rewrite HA' in E. by destruct pre.
Qed.

End Living.

(** * The theorems of the lifetime at concrete queues *)

Lemma lifetime_no_error_witness :
  let ls : list (Label nat) :=
    [LCall (CallTask TaskStart); LAdmin; LAdmin; LPush 7%nat 0%nat;
     LCall (CallTask TaskStop); LAdmin; LAdmin] in
  let w := mkWorld {| InvokerQueue := [7%nat]; Locked := true; Empty := false;
                      Destroying := false; Running := false; NumberOfThreads := 1;
                      Threads := [Joinable 0 Ready] |}
                   [AUnlock; ANotifyAll; AJoin 0] [] in
  (lifetime ls = true ∧ steps ls (mkWorld initial [] []) = Some w
   ∧ Admin w = [AUnlock; ANotifyAll; AJoin 0])
  ∧ ((∃ w', step LAdmin w = Some w')
     ∨ (∃ pos ThreadId st, AUnlock = AJoin pos
          ∧ Threads (Q w) !! pos = Some (Joinable ThreadId st) ∧ st ≠ Returned)).
Proof.
  intros ls w. split; [repeat split|].
  apply (lifetime_no_error ls w AUnlock [ANotifyAll; AJoin 0]); reflexivity.
Defined.

Lemma lifetime_at_rest_witness :
  let ls : list (Label nat) :=
    [LCall (CallTask TaskStart); LAdmin; LAdmin;
     LCall (CallTask (TaskSetNumberOfThreads 3)); LAdmin; LAdmin; LWorker 1;
     LAdmin] in
  let w := mkWorld {| InvokerQueue := []; Locked := false; Empty := true;
                      Destroying := false; Running := true; NumberOfThreads := 3;
                      Threads := [Joinable 0 Ready; Joinable 0 Waiting;
                                  Joinable 1 Ready] |} [] [] in
  (lifetime ls = true ∧ steps ls (mkWorld initial [] []) = Some w
   ∧ Admin w = [] ∧ Destroying (Q w) = false)
  ∧ Locked (Q w) = false.
Proof.
  intros ls w. split; [repeat split|].
  apply (lifetime_at_rest ls w); reflexivity.
Defined.

Lemma SetNumberOfThreads_negative_witness :
  let w0 : World nat :=
    mkWorld one_thread (SetNumberOfThreads_body (-1) one_thread) [] in
  (-1 < 0 ∧ Threads_size (Q w0) < 2 ^ 31 ∧ Locked (Q w0) = false
   ∧ Admin w0 = SetNumberOfThreads_body (-1) (Q w0))
  ∧ ∀ ls w, existsb is_call ls = false → steps ls w0 = Some w → Admin w ≠ [].
Proof.
  intros w0. split; [repeat split|].
  apply (SetNumberOfThreads_negative (-1) w0); reflexivity.
Defined.

Lemma first_in_first_out_witness :
  let ls : list (Label nat) :=
    [LCall (CallTask TaskStart); LAdmin; LPush 7%nat 0%nat; LAdmin;
     LPush 8%nat 0%nat; LWorker 0; LPush 9%nat 0%nat;
     LCall (CallTask TaskStop); LAdmin; LAdmin] in
  let w := mkWorld {| InvokerQueue := [8%nat; 9%nat]; Locked := true;
                      Empty := false; Destroying := false; Running := false;
                      NumberOfThreads := 1;
                      Threads := [Joinable 0 (Invoking 7%nat)] |}
                   [AUnlock; ANotifyAll; AJoin 0] [7%nat] in
  steps ls (mkWorld initial [] []) = Some w
  ∧ Invoked w ++ InvokerQueue (Q w) = [7%nat; 8%nat; 9%nat].
Proof.
  intros ls w. split; [reflexivity|].
  apply (first_in_first_out ls (mkWorld initial [] []) w). reflexivity.
Defined.

Lemma workers_run_queue_witness :
  let w0 : World nat := mkWorld two_pending [] [] in
  let ls : list (Label nat) := [LWorker 0; LWorker 0; LWorker 0; LWorker 0; LWorker 0] in
  let w := mkWorld {| InvokerQueue := []; Locked := false; Empty := true;
                      Destroying := false; Running := true; NumberOfThreads := 1;
                      Threads := [Joinable 0 Waiting] |} [] [7%nat; 8%nat] in
  (Admin w0 = [] ∧ Running (Q w0) = true ∧ Locked (Q w0) = false
   ∧ (∃ pos t, Threads (Q w0) !! pos = Some t ∧ serving (Q w0) t = true)
   ∧ forallb internal ls = true ∧ steps ls w0 = Some w)
  ∧ ((measure w0 <= length ls)%nat → InvokerQueue (Q w) = []).
Proof.
  intros w0 ls w.
  assert (∃ pos t, Threads (Q w0) !! pos = Some t ∧ serving (Q w0) t = true) as Hs
    by (exists 0%nat, (Joinable 0 Ready); split; reflexivity).
  split; [repeat split; try reflexivity; exact Hs|].
  apply (workers_run_queue w0 eq_refl eq_refl eq_refl Hs ls w eq_refl eq_refl).
Defined.

Lemma Stop_and_destructor_return_witness :
  let ls : list (Label nat) :=
    [LCall (CallTask TaskStart); LAdmin; LAdmin; LPush 7%nat 0%nat] in
  let q : vtkThreadedCallbackQueue nat :=
    {| InvokerQueue := [7%nat]; Locked := false; Empty := false;
       Destroying := false; Running := true; NumberOfThreads := 1;
       Threads := [Joinable 0 Ready] |} in
  let w0 := mkWorld q [] [] in
  let w := mkWorld q [ALock; AStoreRunning false; AUnlock; ANotifyAll; AJoin 0] [] in
  (lifetime (ls ++ [LCall (CallTask TaskStop)]) = true
   ∧ steps ls (mkWorld initial [] []) = Some w0
   ∧ Running (Q w0) = true
   ∧ step (LCall (CallTask TaskStop)) w0 = Some w)
  ∧ ∃ ls1 w1, forallb internal ls1 = true ∧ steps ls1 w = Some w1 ∧ Admin w1 = [].
Proof.
  intros ls q w0 w. split; [repeat split|].
  apply (proj2 (Stop_and_destructor_return ls (CallTask TaskStop) w0
                  (or_introl eq_refl) eq_refl eq_refl eq_refl) w eq_refl).
Defined.

Lemma Stop_resize_Start_witness :
  let ls0 : list (Label nat) :=
    [LCall (CallTask TaskStart); LAdmin; LAdmin;
     LCall (CallTask (TaskSetNumberOfThreads 3)); LAdmin; LAdmin; LAdmin] in
  let w0 := mkWorld {| InvokerQueue := []; Locked := false; Empty := true;
                       Destroying := false; Running := true; NumberOfThreads := 3;
                       Threads := [Joinable 0 Ready; Joinable 0 Ready;
                                   Joinable 1 Ready] |} [] [] in
  let ls1 : list (Label nat) :=
    [LAdmin; LAdmin; LAdmin; LAdmin; LWorker 0; LWorker 1; LWorker 2;
     LAdmin; LAdmin; LAdmin] in
  let ls2 : list (Label nat) := [LAdmin; LAdmin] in
  let ls3 : list (Label nat) := [LAdmin; LAdmin; LWorker 0; LAdmin] in
  let w := mkWorld {| InvokerQueue := []; Locked := false; Empty := true;
                      Destroying := false; Running := true; NumberOfThreads := 2;
                      Threads := [Joinable 0 Waiting; Joinable 1 Ready] |} [] [] in
  (lifetime ls0 = true ∧ steps ls0 (mkWorld initial [] []) = Some w0
   ∧ Admin w0 = [] ∧ Destroying (Q w0) = false ∧ 0 <= 2 < 2 ^ 31
   ∧ steps (LCall (CallTask TaskStop) :: ls1
            ++ LCall (CallTask (TaskSetNumberOfThreads 2)) :: ls2
            ++ LCall (CallTask TaskStart) :: ls3) w0 = Some w)
  ∧ Running (Q w) = true ∧ NumberOfThreads (Q w) = 2
  ∧ Threads_size (Q w) = 2
  ∧ ∀ pos t, Threads (Q w) !! pos = Some t → ∃ st, t = Joinable (Z.of_nat pos) st.
Proof.
  intros ls0 w0 ls1 ls2 ls3 w.
  assert (0 <= 2 < 2 ^ 31) as Hn by lia.
  split; [repeat split; (reflexivity || lia)|].
  apply (proj2 (Stop_resize_Start 2 ls0 w0 eq_refl eq_refl eq_refl eq_refl Hn)
           ls1 ls2 ls3 w); reflexivity.
Defined.

Lemma destructor_leaves_no_thread_witness :
  let ls : list (Label nat) :=
    [LCall (CallTask TaskStart); LAdmin; LAdmin; LPush 7%nat 0%nat] in
  let ls' : list (Label nat) :=
    [LAdmin; LAdmin; LAdmin; LAdmin; LWorker 0; LWorker 0; LWorker 0; LAdmin] in
  let w := mkWorld {| InvokerQueue := []; Locked := false; Empty := true;
                      Destroying := true; Running := true; NumberOfThreads := 1;
                      Threads := [NotJoinable] |} [] [7%nat] in
  (lifetime (ls ++ LCall CallDestructor :: ls') = true
   ∧ steps (ls ++ LCall CallDestructor :: ls') (mkWorld initial [] []) = Some w
   ∧ Admin w = [])
  ∧ ∀ pos t, Threads (Q w) !! pos = Some t → t = NotJoinable.
Proof.
  intros ls ls' w. split; [repeat split|].
  apply (destructor_leaves_no_thread ls ls' w); reflexivity.
Defined.

Lemma shrink_waits_for_ever_witness :
  let q : vtkThreadedCallbackQueue nat :=
    {| InvokerQueue := []; Locked := false; Empty := true; Destroying := false;
       Running := true; NumberOfThreads := 2;
       Threads := [Joinable 0 Ready; Joinable 0 Ready] |} in
  let w0 := mkWorld q (SetNumberOfThreads_body 1 q) [] in
  (Running (Q w0) = true ∧ Destroying (Q w0) = false
   ∧ 0 <= 1 < Threads_size (Q w0) ∧ Threads_size (Q w0) < 2 ^ 31
   ∧ Threads (Q w0) !! Z.to_nat 1 = Some (Joinable 0 Ready)
   ∧ 0 < 1 ∧ 0 < NumberOfThreads (Q w0)
   ∧ Admin w0 = SetNumberOfThreads_body 1 (Q w0))
  ∧ ∀ ls w, existsb is_call ls = false → steps ls w0 = Some w →
      AJoin (Z.to_nat 1) ∈ Admin w
      ∧ ∃ st', Threads (Q w) !! Z.to_nat 1 = Some (Joinable 0 st')
          ∧ st' ≠ Returned.
Proof.
  intros q w0. split; [repeat split; (reflexivity || lia)|].
  apply (shrink_waits_for_ever 1 0 Ready w0); try reflexivity;
    [split; [lia|reflexivity]|discriminate].
Defined.

Lemma lifetime_threads_alive_witness :
  let ls : list (Label nat) :=
    [LCall (CallTask TaskStart); LAdmin; LAdmin;
     LCall (CallTask (TaskSetNumberOfThreads 3)); LAdmin; LAdmin; LWorker 1;
     LAdmin] in
  let w := mkWorld {| InvokerQueue := []; Locked := false; Empty := true;
                      Destroying := false; Running := true; NumberOfThreads := 3;
                      Threads := [Joinable 0 Ready; Joinable 0 Waiting;
                                  Joinable 1 Ready] |} [] [] in
  (lifetime ls = true ∧ steps ls (mkWorld initial [] []) = Some w)
  ∧ ∀ pos ThreadId, Threads (Q w) !! pos = Some (Joinable ThreadId Returned) →
      Running (Q w) = false ∨ Destroying (Q w) = true
      ∨ NumberOfThreads (Q w) <= ThreadId.
Proof.
  intros ls w. split; [repeat split|].
  apply (lifetime_threads_alive ls w); reflexivity.
Defined.

Lemma lifetime_shrink_witness :
  let ls : list (Label nat) :=
    [LCall (CallTask TaskStart); LAdmin; LAdmin;
     LCall (CallTask (TaskSetNumberOfThreads 2)); LAdmin; LAdmin] in
  let q : vtkThreadedCallbackQueue nat :=
    {| InvokerQueue := []; Locked := false; Empty := true; Destroying := false;
       Running := true; NumberOfThreads := 2;
       Threads := [Joinable 0 Ready; Joinable 0 Ready] |} in
  let w0 := mkWorld q [] [] in
  let w := mkWorld q (SetNumberOfThreads_body 1 q) [] in
  (lifetime ls = true ∧ steps ls (mkWorld initial [] []) = Some w0
   ∧ Destroying (Q w0) = false ∧ Running (Q w0) = true
   ∧ 0 <= 1 < Threads_size (Q w0)
   ∧ step (LCall (CallTask (TaskSetNumberOfThreads 1))) w0 = Some w)
  ∧ ∃ ThreadId st, Threads (Q w0) !! Z.to_nat 1 = Some (Joinable ThreadId st)
      ∧ (ThreadId = 1 ∨ ThreadId = 1 - 1)
      ∧ (ThreadId = 1 →
           (∀ ls' w', existsb is_call ls' = false → steps ls' w = Some w' →
              Admin w' ≠ [] → Progress w')
           ∧ ∃ ls' w', forallb internal ls' = true ∧ steps ls' w = Some w'
               ∧ Admin w' = [])
      ∧ (ThreadId = 1 - 1 →
           ∀ ls' w', existsb is_call ls' = false → steps ls' w = Some w' →
             Admin w' ≠ []).
Proof.
  intros ls q w0 w.
  assert (0 <= 1 < Threads_size (Q w0)) as Hn by (split; [lia|reflexivity]).
  split; [repeat split; (reflexivity || lia)|].
  apply (lifetime_shrink ls 1 w0 w eq_refl eq_refl eq_refl eq_refl Hn eq_refl).
Defined.

(** * Stop and restart, the shrinking call and the destructor *)

Section Restarting.

Context {Invoker : Type}.
Local Abbreviation Queue := (vtkThreadedCallbackQueue Invoker).
Implicit Types (q : Queue) (w : World Invoker) (l : Label Invoker)
  (t : thread Invoker).

(** With a queue that is not empty, every step of a thread of the pool
    lowers the measure. *)
Lemma busy_measure_decreases l w w' :
  InvokerQueue (Q w) ≠ [] → internal l = true → step l w = Some w' →
  (measure w' < measure w)%nat.
Proof.
  unfold measure. intros HQ Hint H.
  destruct l as [pos|pos|invoker wake| |c]; simpl in H; try discriminate.
  - destruct (Threads (Q w) !! pos) as [[|ThreadId st]|] eqn:Hpos; try discriminate.
    destruct (ThreadWorker_step ThreadId st (Q w)) as [[[st' q'] invs]|] eqn:Hs;
      [|discriminate].
    injection H as <-. simpl.
    destruct (ThreadWorker_step_busy _ _ _ _ _ _ HQ Hs) as [Hw _].
    apply ThreadWorker_step_frame in Hs as (_ & _ & _ & _ & HT).
    rewrite HT.
    pose proof (sum_weight_insert _ _ (Joinable ThreadId st') _ Hpos). lia.
  - destruct (Threads (Q w) !! pos) as [[|ThreadId []]|] eqn:Hpos; try discriminate.
    injection H as <-. simpl.
    pose proof (sum_weight_insert _ _ (Joinable ThreadId Notified) _ Hpos).
    simpl in *. lia.
  - destruct (Admin w) as [|a rest]; [discriminate|].
    destruct (exec a (Q w)) as [q'| |] eqn:He; try discriminate.
    injection H as <-. simpl.
    pose proof (exec_weight _ _ _ He).
    apply exec_InvokerQueue in He as [-> _]. lia.
Qed.

(** A thread that is in service and awake can move when the mutex is
    free. *)
Lemma serving_moves w pos t :
  Locked (Q w) = false → Threads (Q w) !! pos = Some t →
  serving (Q w) t = true → ∃ w', step (LWorker pos) w = Some w'.
Proof.
  intros HL Hpos Hs. simpl. rewrite Hpos.
  destruct t as [|ThreadId st]; [done|].
  destruct st; try done; simpl; rewrite ?HL;
    try destruct (Pop ThreadId (Q w)); eauto.
Qed.

(** [Start] begins on a stopped pool at rest. *)
Lemma Start_Starting w :
  Admin w = [] → Running (Q w) = false → Locked (Q w) = false →
  (∀ pos t, Threads (Q w) !! pos = Some t → t = NotJoinable) →
  NumberOfThreads (Q w) = Threads_size (Q w) →
  ∃ w1, step (LCall (CallTask TaskStart)) w = Some w1
    ∧ Starting w1 ∧ Q w1 = Q w ∧ Invoked w1 = Invoked w.
Proof.
  intros HA HR HL Hall HN. simpl. rewrite HA. eexists. split; [done|].
  split; [|done]. split; [done|]. split; [done|]. left.
  cbn [Q Admin]. unfold Start_body. by rewrite HR.
Qed.

(** While the queue is not empty, [Start] goes on, and the threads that
    it has made stay awake and in service. *)
Lemma Starting_step l w w' :
  Starting w → InvokerQueue (Q w) ≠ [] → internal l = true →
  step l w = Some w' →
  Starting w' ∧ length (Threads (Q w')) = length (Threads (Q w)).
Proof.
  intros (HL & HN & Hph) HQ Hint H.
  assert (∀ w1, Starting w1 → length (Threads (Q w1)) = length (Threads (Q w)) →
            Starting w1 ∧ length (Threads (Q w1)) = length (Threads (Q w)))
    as Hsplit by done.
  destruct l as [pos|pos|invoker wake| |c]; simpl in H; try discriminate.
  - destruct (Threads (Q w) !! pos) as [[|ThreadId st]|] eqn:Hpos; try discriminate.
    destruct (ThreadWorker_step ThreadId st (Q w)) as [[[st' q'] invs]|] eqn:Hs;
      [|discriminate].
    injection H as <-.
    destruct Hph as [(_ & _ & Hall)|(HR & k & Hk & HA & Hts)];
      [by specialize (Hall _ _ Hpos)|].
    destruct (ThreadWorker_step_busy _ _ _ _ _ _ HQ Hs) as [_ Hserv].
    apply ThreadWorker_step_frame in Hs as (HL' & _ & HR' & HN' & HT').
    pose proof (Hts _ _ Hpos) as Hp. case_decide as Hlt; [|done].
    apply Hsplit;
      [|by cbn [Q]; rewrite set_thread_Threads, length_insert, HT'].
    unfold Starting, Threads_size. cbn [Q Admin].
    rewrite set_thread_Locked, set_thread_NumberOfThreads, set_thread_Threads.
    rewrite length_insert, HT', HL', HN'.
    split; [done|]. split; [done|]. right.
    split; [by unfold set_thread; simpl; rewrite HR'|].
    exists k. split; [done|]. split; [done|].
    intros pos0 t0 Hpos0.
    destruct (decide (pos0 = pos)) as [->|Hne].
    + rewrite list_lookup_insert_eq in Hpos0 by (by eapply lookup_lt_Some).
      injection Hpos0 as <-. rewrite decide_True by done.
      rewrite (serving_frame q'); [by apply Hserv|].
      apply set_thread_NumberOfThreads.
    + rewrite list_lookup_insert_ne in Hpos0 by done.
      specialize (Hts _ _ Hpos0). case_decide; [|done].
      rewrite (serving_frame (Q w)); [done|].
      by rewrite set_thread_NumberOfThreads.
  - destruct (Threads (Q w) !! pos) as [[|ThreadId []]|] eqn:Hpos; try discriminate.
    destruct Hph as [(_ & _ & Hall)|(HR & k & Hk & HA & Hts)];
      [by specialize (Hall _ _ Hpos)|].
    specialize (Hts _ _ Hpos). by case_decide.
  - destruct (Admin w) as [|a rest] eqn:HAw; [discriminate|].
    destruct (exec a (Q w)) as [q'| |] eqn:He; try discriminate.
    injection H as <-.
    destruct Hph as [(HR & HA & Hall)|(HR & k & Hk & HA & Hts)].
    + injection HA as -> ->. simpl in He. injection He as <-.
      apply Hsplit; [|done].
      split; [done|]. split; [done|]. right. split; [done|].
      exists 0%nat. cbn [Q Admin]. simpl. rewrite Nat.sub_0_r.
      split; [lia|]. split; [done|].
      exact Hall.
    + destruct (length (Threads (Q w)) - k)%nat as [|c] eqn:Hc; [done|].
      simpl in HA. injection HA as -> ->. simpl in He.
      assert (k < length (Threads (Q w)))%nat as Hlt by lia.
      destruct (lookup_lt_is_Some_2 _ _ Hlt) as [t Hpos].
      pose proof (Hts _ _ Hpos) as Ht. rewrite decide_False in Ht by lia.
      subst t. rewrite Hpos in He. injection He as <-.
      apply Hsplit; [|by simpl; rewrite length_insert].
      unfold Starting, Threads_size. cbn [Q Admin]. simpl.
      rewrite length_insert.
      split; [done|]. split; [done|]. right. split; [done|].
      exists (S k). split; [lia|]. split.
      { replace (length (Threads (Q w)) - S k)%nat with c by lia.
        f_equal. lia. }
      intros pos0 t0 Hpos0.
      destruct (decide (pos0 = k)) as [->|Hne].
      * rewrite list_lookup_insert_eq in Hpos0 by done.
        injection Hpos0 as <-. rewrite decide_True by lia. simpl.
        apply Z.ltb_lt. unfold Threads_size in HN. lia.
      * rewrite list_lookup_insert_ne in Hpos0 by done.
        specialize (Hts _ _ Hpos0).
        destruct (decide (pos0 < k)%nat).
        -- rewrite decide_True by lia.
           by rewrite (serving_frame (Q w)).
        -- by rewrite decide_False by lia.
Qed.

Lemma Starting_steps ls : ∀ w w',
  Starting w → forallb internal ls = true → steps ls w = Some w' →
  InvokerQueue (Q w') ≠ [] →
  Starting w' ∧ (length ls + measure w' <= measure w)%nat
  ∧ length (Threads (Q w')) = length (Threads (Q w)).
Proof.
  induction ls as [|l ls IH]; intros w w' HS; simpl.
  - intros _ [= <-] _. split; [done|]. split; [lia|done].
  - intros [Hl Hls]%andb_true_iff.
    destruct (step l w) as [w1|] eqn:Hs; [|discriminate]. intros H HQ'.
    assert (InvokerQueue (Q w) ≠ []) as HQ.
    { intros E. apply HQ'.
      apply (empty_stays (l :: ls) w w'); simpl; [by rewrite Hl|by rewrite Hs|done]. }
    destruct (Starting_step _ _ _ HS HQ Hl Hs) as [HS1 Hsz1].
    pose proof (busy_measure_decreases _ _ _ HQ Hl Hs) as Hm.
    destruct (IH w1 w' HS1 Hls H HQ') as (HS' & Hlen & Hsz).
    split; [done|]. split; [lia|congruence].
Qed.

(** [Start] can make its next thread, and when it has made them all the
    thread of the first handle can move. *)
Lemma Starting_progress w :
  Starting w → Threads (Q w) ≠ [] →
  (Admin w ≠ [] ∧ ∃ w', step LAdmin w = Some w')
  ∨ (Admin w = [] ∧ ∃ pos w', step (LWorker pos) w = Some w').
Proof.
  intros (HL & HN & [(HR & HA & Hall)|(HR & k & Hk & HA & Hts)]) Hne.
  - left. rewrite HA. split; [done|]. simpl. rewrite HA. simpl. eauto.
  - destruct (length (Threads (Q w)) - k)%nat as [|c] eqn:Hc.
    + right. split; [done|].
      assert (0 < length (Threads (Q w)))%nat as Hlt
        by (destruct (Threads (Q w)); [done|simpl; lia]).
      destruct (lookup_lt_is_Some_2 _ _ Hlt) as [t Hpos].
      pose proof (Hts _ _ Hpos) as Ht.
      rewrite decide_True in Ht by lia.
      exists 0%nat. by apply (serving_moves w 0 t).
    + left. rewrite HA. split; [done|]. simpl. rewrite HA. simpl.
      assert (k < length (Threads (Q w)))%nat as Hlt by lia.
      destruct (lookup_lt_is_Some_2 _ _ Hlt) as [t Hpos].
      pose proof (Hts _ _ Hpos) as Ht. rewrite decide_False in Ht by lia.
      subst t. rewrite Hpos. eauto.
Qed.

(** C5, as the code has it.  [Stop] is called on a running pool of which
    every handle holds a thread.  No action of [Stop] touches the invoker
    queue.  From the moment [Running] is false, whatever happens until the
    next call, nothing is invoked and the queue keeps every invoker it
    holds, new submissions going to its tail.  [Stop] does not deadlock,
    its threads come to rest in a bounded number of steps, and when it has
    returned the pool is not running and every thread has been joined.
    After that, whatever is invoked is invoked in the order of the queue.
    And if the pool has at least one thread handle, a following [Start]
    makes the workers run the invokers that remained: some execution runs
    them all, in their order; and, more than that, [Start] can begin, and
    then, in every execution of the threads of the pool, as long as
    the queue is not empty [Start] can make its next thread or, when it
    has made them all, a worker can move; the queue is empty after a
    number of steps that the measure of the state bounds; and when it is
    empty the invokers that remained have all been started, in their
    order. *)
Theorem Stop_keeps_queue (w0 : World Invoker) :
  Running (Q w0) = true → Locked (Q w0) = false →
  (∀ pos t, Threads (Q w0) !! pos = Some t → joinable t = true) →
  Admin w0 = Stop_body (Q w0) →
  (∀ a q1 q2, a ∈ Stop_body (Q w0) → exec a q1 = Steps q2 →
     InvokerQueue q2 = InvokerQueue q1)
  ∧ (∀ ls1 w1 ls2 w2,
       existsb is_call ls1 = false → steps ls1 w0 = Some w1 →
       Running (Q w1) = false →
       existsb is_call ls2 = false → steps ls2 w1 = Some w2 →
       Running (Q w2) = false ∧ Invoked w2 = Invoked w1
       ∧ ∃ pushed, InvokerQueue (Q w2) = InvokerQueue (Q w1) ++ pushed
           ∧ (forallb internal ls2 = true → pushed = []))
  ∧ (∀ ls w, existsb is_call ls = false → steps ls w0 = Some w →
       (Admin w ≠ [] → Progress w)
       ∧ (Running (Q w) = false → ∀ ls' w',
            forallb internal ls' = true → steps ls' w = Some w' →
            (length ls' <= measure w)%nat)
       ∧ (Admin w = [] →
            Running (Q w) = false
            ∧ (∀ pos t, Threads (Q w) !! pos = Some t → t = NotJoinable)
            ∧ (∀ ls' w', steps ls' w = Some w' →
                 ∃ pushed, Invoked w' ++ InvokerQueue (Q w')
                           = Invoked w ++ InvokerQueue (Q w) ++ pushed)
            ∧ (Threads (Q w0) ≠ [] → NumberOfThreads (Q w0) = Threads_size (Q w0) →
                 (∃ ls' w', steps (LCall (CallTask TaskStart) :: ls') w = Some w'
                    ∧ Invoked w' = Invoked w ++ InvokerQueue (Q w)
                    ∧ InvokerQueue (Q w') = [])
                 ∧ ∃ w1, step (LCall (CallTask TaskStart)) w = Some w1
                     ∧ ∀ ls' w', forallb internal ls' = true →
                         steps ls' w1 = Some w' →
                         (InvokerQueue (Q w') ≠ [] →
                            (Admin w' ≠ [] ∧ ∃ w'', step LAdmin w' = Some w'')
                            ∨ (Admin w' = []
                               ∧ ∃ pos w'', step (LWorker pos) w' = Some w''))
                         ∧ ((measure w1 <= length ls')%nat →
                              InvokerQueue (Q w') = [])
                         ∧ (InvokerQueue (Q w') = [] →
                              Invoked w' = Invoked w ++ InvokerQueue (Q w))))).
Proof.
  intros HR HL Hj HA.
  pose proof (Stop_body_running (Q w0) HR) as EB.
  assert (Forall (λ a, a ≠ AStoreRunning true) (Stop_body (Q w0))) as HF.
  { rewrite EB. repeat (apply Forall_cons; split; [done|]).
    by apply Forall_joins. }
  split; [|split].
  - intros a q1 q2 _ He. by apply exec_InvokerQueue in He as [? _].
  - intros ls1 w1 ls2 w2 Hc1 Hs1 HR1 Hc2 Hs2.
    destruct (steps_fields _ _ _ Hc1 Hs1) as (performed & EA & _).
    rewrite <- HA, EA in HF. apply Forall_app in HF as [_ HF1].
    exact (steps_stopped _ _ _ HR1 HF1 Hc2 Hs2).
  - intros ls w Hls Hsteps.
    assert (halting_store (AStoreRunning false)) as Hs by (by left).
    pose proof (Stop_Shutdown w0 HR HL Hj HA) as HS0.
    pose proof (Shutdown_steps _ _ _ _ _ HS0 Hls Hsteps) as HS.
    split.
    { intros HAw. destruct (Shutdown_progress _ _ _ _ HS) as [?|(E & _)]; done. }
    split.
    { intros HRw ls' w' Hls' Hsteps'.
      assert (halted (Q w) = true) as Hh by (unfold halted; by rewrite HRw).
      pose proof (Shutdown_bounded _ _ _ _ _ Hs HS Hh Hls' Hsteps'). lia. }
    intros HAw.
    destruct (Shutdown_done _ _ _ HS HAw) as [HLw Hall0].
    assert (∀ pos t, Threads (Q w) !! pos = Some t → t = NotJoinable) as Hall
      by (intros pos t Hpos; apply (Hall0 pos t); [lia|done]).
    destruct (steps_fields _ _ _ Hls Hsteps) as (performed & EA & EF).
    rewrite HAw, app_nil_r in EA. rewrite <- EA, HA, EB, foldl_store_Stop in EF.
    unfold fields in EF. simpl in EF. injection EF as ER _ EN ES.
    split; [done|]. split; [done|]. split.
    + intros ls' w' Hs'. destruct (steps_fifo _ _ _ Hs') as (pushed & E & _). eauto.
    + intros Hne HN.
      assert (Threads (Q w) ≠ []) as Hnew.
      { intros E. apply Hne. destruct (Threads (Q w0)); [done|].
        rewrite E in ES. done. }
      assert (NumberOfThreads (Q w) = Threads_size (Q w)) as HNw
        by (unfold Threads_size in *; by rewrite EN, ES).
      split; [by apply restart_drains|].
      destruct (Start_Starting w HAw ER HLw Hall HNw) as (w1 & Hcall & HS1 & EQ & EI).
      exists w1. split; [done|]. intros ls' w' Hls' Hsteps'.
      assert (InvokerQueue (Q w') ≠ [] →
              Starting w' ∧ (length ls' + measure w' <= measure w1)%nat
              ∧ Threads (Q w') ≠ []) as Hbusy.
      { intros HQ'.
        destruct (Starting_steps ls' w1 w' HS1 Hls' Hsteps' HQ') as (? & ? & Hsz).
        split; [done|]. split; [done|]. rewrite EQ in Hsz.
        intros E. rewrite E in Hsz. by destruct (Threads (Q w)). }
      split; [|split].
      * intros HQ'. destruct (Hbusy HQ') as (HS' & _ & Hne').
        by apply Starting_progress.
      * intros Hlen. destruct (InvokerQueue (Q w')) as [|inv rest] eqn:E; [done|].
        destruct Hbusy as (_ & Hm & _); [done|].
        unfold measure in Hm at 1. rewrite E in Hm. simpl in Hm. lia.
      * intros HQ'. destruct (steps_fifo _ _ _ Hsteps') as (pushed & E & Hp).
        by rewrite (Hp Hls'), HQ', !app_nil_r, EQ, EI in E.
Qed.

End Restarting.

(** ** The shrinking call *)

Section Shrinks.

Context {Invoker : Type}.
Local Abbreviation Queue := (vtkThreadedCallbackQueue Invoker).
Implicit Types (q : Queue) (w : World Invoker) (l : Label Invoker)
  (t : thread Invoker).

(** The handles that the shrinking call joins. *)
Lemma shrink_joined n q :
  Running q = true → 0 <= n < Threads_size q → Threads_size q < 2 ^ 31 →
  ∀ pos, AJoin pos ∈ SetNumberOfThreads_body n q ↔ n <= Z.of_nat pos < Threads_size q.
Proof.
  intros HR Hn Hs pos. rewrite (SetNumberOfThreads_shrink n q HR Hn Hs).
  rewrite !elem_of_app, list_elem_of_fmap.
  rewrite !elem_of_cons, elem_of_nil. unfold Threads_size in *. split.
  - intros [H|[(pos' & [= <-] & Hin%elem_of_seq)|H]];
      [intuition discriminate|lia|intuition discriminate].
  - intros Hpos. right. left. exists pos. split; [done|]. apply elem_of_seq. lia.
Qed.

(** The state of the pool when the shrinking call is over. *)
Lemma shrink_done n q w ls w' :
  Running q = true → 0 <= n < Threads_size q → Threads_size q < 2 ^ 31 →
  Q w = q → Admin w = SetNumberOfThreads_body n q →
  existsb is_call ls = false → steps ls w = Some w' → Admin w' = [] →
  NumberOfThreads (Q w') = n ∧ Threads_size (Q w') = n ∧ Running (Q w') = true.
Proof.
  intros HR Hn Hs <- HA Hls Hsteps HA'.
  destruct (steps_fields _ _ _ Hls Hsteps) as (performed & EA & EF).
  rewrite HA', app_nil_r in EA.
  rewrite <- EA, HA, (SetNumberOfThreads_shrink n _ HR Hn Hs), foldl_store_shrink in EF.
  unfold fields in EF. simpl in EF. injection EF as E1 E2 E3 E4.
  unfold Threads_size. rewrite E4. repeat split; [done|lia|congruence].
Qed.

(** The shrinking call waits for ever for a thread that it has left in
    service, and that thread goes on popping. *)
Lemma shrink_stuck (n ThreadId : Z) (st : WorkerState Invoker) w0 :
  Running (Q w0) = true → Destroying (Q w0) = false →
  0 <= n < Threads_size (Q w0) → Threads_size (Q w0) < 2 ^ 31 →
  Threads (Q w0) !! Z.to_nat n = Some (Joinable ThreadId st) → st ≠ Returned →
  ThreadId < n → ThreadId < NumberOfThreads (Q w0) →
  Admin w0 = SetNumberOfThreads_body n (Q w0) →
  ∀ ls w, existsb is_call ls = false → steps ls w0 = Some w →
    AJoin (Z.to_nat n) ∈ Admin w
    ∧ ∃ st', Threads (Q w) !! Z.to_nat n = Some (Joinable ThreadId st')
        ∧ st' ≠ Returned
        ∧ ∀ invoker rest, InvokerQueue (Q w) = invoker :: rest →
            st' = Ready ∨ st' = Notified → Locked (Q w) = false →
            ∃ w', step (LWorker (Z.to_nat n)) w = Some w'
              ∧ Invoked w' = Invoked w ++ [invoker].
Proof.
  intros HR HD Hn Hsz Hpos Hst Hid HN HA ls w Hls Hsteps.
  pose proof (shrink_Joins_ahead n ThreadId st w0 HR HD Hn Hsz Hpos Hst Hid HN HA)
    as HJ.
  destruct (Joins_ahead_steps _ _ _ _ _ HJ Hls Hsteps)
    as (HRw & _ & (pre & rest & E & _) & st' & Hpos' & Hst' & Hidw).
  split; [rewrite E, elem_of_app, elem_of_cons; auto|].
  exists st'. split; [done|]. split; [done|].
  intros invoker rest' HQ Hready HLw.
  destruct (pops_while_destroying w (Z.to_nat n) ThreadId st' invoker rest')
    as (w' & Hs' & HI & _); eauto.
Qed.

(** C4.  What [SetNumberOfThreads(n)] does on a running pool with more
    than [n] thread handles.  It stores the desired number between a lock
    and an unlock of the mutex, then notifies all, then joins the threads
    of the handles at the positions [n] and above, each of them and no
    other (when every thread has the position of its handle as its id, as
    [Start] makes them, these are the threads whose id is [n] or more),
    and last resizes the vector of handles to [n].  When all this has
    been carried out, whatever the other threads did meanwhile, the
    desired number and the number of handles are [n] and the pool is
    still running.  It is carried out when the threads to join have ids
    that are [n] or more: then the call cannot deadlock, and enough steps
    of these threads and of the administrative thread bring it to its
    end.  It is not carried out on every running pool, as the claim has
    it: when the thread of the handle at position [n], the first that is
    joined, has an id below [n], as the thread that the growing branch
    appends at position [n] has, that thread stays in service, the join
    waits for it for ever, and the vector is never resized, whatever the
    threads do and whatever is submitted. *)
Theorem SetNumberOfThreads_shrinks (n : Z) (q : Queue) :
  Running q = true → 0 <= n < Threads_size q → Threads_size q < 2 ^ 31 →
  SetNumberOfThreads_body n q =
    [ALock; AStoreNumberOfThreads n; AUnlock; ANotifyAll]
    ++ (AJoin <$> seq (Z.to_nat n) (length (Threads q) - Z.to_nat n))
    ++ [AResize n]
  ∧ (∀ pos, AJoin pos ∈ SetNumberOfThreads_body n q ↔
            n <= Z.of_nat pos < Threads_size q)
  ∧ ((∀ pos ThreadId st, Threads q !! pos = Some (Joinable ThreadId st) →
        ThreadId = Z.of_nat pos) →
     ∀ pos ThreadId st, Threads q !! pos = Some (Joinable ThreadId st) →
       (AJoin pos ∈ SetNumberOfThreads_body n q ↔ n <= ThreadId))
  ∧ (∀ w ls w', Q w = q → Admin w = SetNumberOfThreads_body n q →
       existsb is_call ls = false → steps ls w = Some w' → Admin w' = [] →
       NumberOfThreads (Q w') = n ∧ Threads_size (Q w') = n
       ∧ Running (Q w') = true)
  ∧ (Locked q = false → Destroying q = false →
     (∀ pos t, (Z.to_nat n <= pos)%nat → Threads q !! pos = Some t →
        ∃ ThreadId st, t = Joinable ThreadId st ∧ n <= ThreadId) →
     ∀ w0, Q w0 = q → Admin w0 = SetNumberOfThreads_body n q →
       (∀ ls w, existsb is_call ls = false → steps ls w0 = Some w →
          Admin w ≠ [] → Progress w)
       ∧ ∃ ls w, forallb internal ls = true ∧ steps ls w0 = Some w ∧ Admin w = [])
  ∧ (Destroying q = false →
     ∀ ThreadId st, Threads q !! Z.to_nat n = Some (Joinable ThreadId st) →
       st ≠ Returned → ThreadId < n → ThreadId < NumberOfThreads q →
       ∀ w0, Q w0 = q → Admin w0 = SetNumberOfThreads_body n q →
         ∀ ls w, existsb is_call ls = false → steps ls w0 = Some w →
           AJoin (Z.to_nat n) ∈ Admin w ∧ AResize n ∈ Admin w
           ∧ ∃ st', Threads (Q w) !! Z.to_nat n = Some (Joinable ThreadId st')
               ∧ st' ≠ Returned).
Proof.
  intros HR Hn Hs. pose proof (SetNumberOfThreads_shrink n q HR Hn Hs) as E.
  pose proof (shrink_joined n q HR Hn Hs) as Hjoined.
  split; [exact E|]. split; [exact Hjoined|]. split; [|split; [|split]].
  - intros Hid pos ThreadId st Hpos. rewrite Hjoined, (Hid _ _ _ Hpos).
    apply lookup_lt_Some in Hpos. unfold Threads_size. lia.
  - intros w ls w'. by apply shrink_done.
  - intros HL HD Hids w0 HQ HA. subst q. by apply (shrink_returns n w0).
  - intros HD ThreadId st Hpos Hst Hid HN w0 HQ HA ls w Hls Hsteps. subst q.
    destruct (shrink_stuck n ThreadId st w0 HR HD Hn Hs Hpos Hst Hid HN HA
                ls w Hls Hsteps) as (Hin & st' & Hpos' & Hst' & _).
    split; [done|]. split; [|eauto].
    destruct (steps_fields _ _ _ Hls Hsteps) as (performed & EA & _).
    rewrite HA, E in EA.
    assert (last (performed ++ Admin w) = Some (AResize n)) as Hlast.
    { rewrite <- EA, !app_assoc. apply last_snoc. }
    destruct (Admin w) as [|a rest] eqn:HAw; [by apply elem_of_nil in Hin|].
    rewrite last_app_cons in Hlast. by apply last_Some_elem_of.
Qed.

(** C10.  For [n] not negative, no action of [SetNumberOfThreads(n)]
    changes [Running], [Destroying] or the invoker queue.  On a running
    pool [SetNumberOfThreads(0)] joins the thread of every handle and
    resizes the vector to nothing; when this has been carried out the pool
    is still running and has no thread handle left; and it is carried
    out, without deadlock, when no thread has a negative id.  A pool with
    no thread handle invokes nothing: whatever is submitted stays in the
    queue.  But [SetNumberOfThreads(0)] is not carried out on every
    running pool, as the claim has it: when the thread of the first
    handle has a negative id, as the thread that the growing branch
    appends to an empty vector has, that thread is still in service with
    the desired number 0, the join waits for it for ever, and the thread
    goes on popping and running what is submitted. *)
Theorem SetNumberOfThreads_frame (n : Z) (q : Queue) :
  0 <= n →
  (∀ a q1 q2, a ∈ SetNumberOfThreads_body n q → exec a q1 = Steps q2 →
     Running q2 = Running q1 ∧ Destroying q2 = Destroying q1
     ∧ InvokerQueue q2 = InvokerQueue q1)
  ∧ (Running q = true → 0 < Threads_size q < 2 ^ 31 →
       SetNumberOfThreads_body 0 q =
         [ALock; AStoreNumberOfThreads 0; AUnlock; ANotifyAll]
         ++ (AJoin <$> seq 0 (length (Threads q))) ++ [AResize 0]
       ∧ (∀ w ls w', Q w = q → Admin w = SetNumberOfThreads_body 0 q →
            existsb is_call ls = false → steps ls w = Some w' → Admin w' = [] →
            Running (Q w') = true ∧ Threads (Q w') = []
            ∧ NumberOfThreads (Q w') = 0)
       ∧ (Locked q = false → Destroying q = false →
          (∀ pos t, Threads q !! pos = Some t →
             ∃ ThreadId st, t = Joinable ThreadId st ∧ 0 <= ThreadId) →
          ∀ w0, Q w0 = q → Admin w0 = SetNumberOfThreads_body 0 q →
            (∀ ls w, existsb is_call ls = false → steps ls w0 = Some w →
               Admin w ≠ [] → Progress w)
            ∧ ∃ ls w, forallb internal ls = true ∧ steps ls w0 = Some w
                ∧ Admin w = [])
       ∧ (Destroying q = false →
          ∀ ThreadId st, Threads q !! 0%nat = Some (Joinable ThreadId st) →
            st ≠ Returned → ThreadId < 0 → ThreadId < NumberOfThreads q →
            ∀ w0, Q w0 = q → Admin w0 = SetNumberOfThreads_body 0 q →
              ∀ ls w, existsb is_call ls = false → steps ls w0 = Some w →
                AJoin 0 ∈ Admin w
                ∧ ∃ st', Threads (Q w) !! 0%nat = Some (Joinable ThreadId st')
                    ∧ st' ≠ Returned
                    ∧ ∀ invoker rest, InvokerQueue (Q w) = invoker :: rest →
                        st' = Ready ∨ st' = Notified → Locked (Q w) = false →
                        ∃ w', step (LWorker 0) w = Some w'
                          ∧ Invoked w' = Invoked w ++ [invoker]))
  ∧ (∀ w l w', Threads (Q w) = [] → step l w = Some w' →
       Invoked w' = Invoked w
       ∧ ∃ pushed, InvokerQueue (Q w') = InvokerQueue (Q w) ++ pushed).
Proof.
  intros Hn. split; [|split].
  - intros a q1 q2 Hin He.
    pose proof (stores_flag_SetNumberOfThreads n q) as Hall.
    rewrite forallb_forall in Hall. apply list_elem_of_In, Hall in Hin.
    apply negb_true_iff in Hin.
    destruct (exec_flags _ _ _ Hin He) as [? ?].
    destruct (exec_InvokerQueue _ _ _ He) as [? _]. done.
  - intros HR Hs.
    assert (0 <= 0 < Threads_size q) as H0 by lia.
    assert (Threads_size q < 2 ^ 31) as Hsz by lia.
    pose proof (SetNumberOfThreads_shrink 0 q HR H0 Hsz) as E.
    change (Z.to_nat 0) with 0%nat in E. rewrite Nat.sub_0_r in E.
    split; [exact E|]. split; [|split].
    + intros w ls w' HQ HA Hls Hsteps HA'.
      destruct (shrink_done 0 q w ls w' HR H0 Hsz HQ HA Hls Hsteps HA')
        as (HN & HT & HR').
      repeat split; try done.
      unfold Threads_size in HT. destruct (Threads (Q w')); [done|simpl in HT; lia].
    + intros HL HD Hids w0 HQ HA. subst q. apply (shrink_returns 0 w0); try done.
      intros pos t _. apply Hids.
    + intros HD ThreadId st Hpos Hst Hid HN w0 HQ HA ls w Hls Hsteps. subst q.
      destruct (shrink_stuck 0 ThreadId st w0 HR HD H0 Hsz Hpos Hst Hid HN HA
                  ls w Hls Hsteps) as (Hin & st' & Hpos' & Hst' & Hpop).
      split; [done|]. eauto.
  - intros w l w'. apply step_no_threads.
Qed.

End Shrinks.

(** ** The destructor *)

Section Destruction.

Context {Invoker : Type}.
Local Abbreviation Queue := (vtkThreadedCallbackQueue Invoker).
Implicit Types (q : Queue) (w : World Invoker) (l : Label Invoker)
  (t : thread Invoker).

(** The release of the controller is over exactly when no call is in
    progress, and then the destructor has its actions to perform. *)
Lemma Destructor_body_spec w :
  (Destructor_body w = None ↔ Admin w ≠ [])
  ∧ ∀ w1, Destructor_body w = Some w1 →
      Admin w = [] ∧ w1 = mkWorld (Q w) (Destructor_actions (Q w)) (Invoked w).
Proof.
  unfold Destructor_body, release_Controller.
  destruct (Admin w); split; try done; by intros w1 [= <-].
Qed.

(** C2, as the code has it.  The destructor runs on a running pool of
    which every handle holds a thread.  It first releases the
    controller, and waits there as long as a call is in progress: for
    ever, if that call is at the join of a thread that is in service, as
    the shrinking call that follows a growing one is.  Once the
    controller is released, in every state that the threads of the pool
    can reach: as long as the destructor has actions left, it can perform
    the next one or the thread that it waits for can move, so there is no
    deadlock; once [Destroying] is set every execution is finite; when the
    destructor has no action left every thread has been joined.
    [Destroying] does not keep a thread from popping: a thread in service
    that finds the queue non-empty pops its head and runs it.  So, if a
    thread was in service when the controller was released, the queue is
    empty when the destructor ends and every invoker that was pending has
    been run, in order. *)
Theorem destructor_joins_and_drains (w0 : World Invoker) :
  Running (Q w0) = true →
  (∀ pos t, Threads (Q w0) !! pos = Some t → joinable t = true) →
  (Destructor_body w0 = None ↔ Admin w0 ≠ [])
  ∧ (∀ pos ThreadId, Joins_ahead pos ThreadId w0 →
       ∀ ls w, existsb is_call ls = false → steps ls w0 = Some w →
         Destructor_body w = None)
  ∧ (Locked (Q w0) = false → ∀ w1, Destructor_body w0 = Some w1 →
     ∀ ls w, forallb internal ls = true → steps ls w1 = Some w →
       (Admin w ≠ [] → Progress w)
       ∧ (Destroying (Q w) = true → ∀ ls' w',
            forallb internal ls' = true → steps ls' w = Some w' →
            (length ls' <= measure w)%nat)
       ∧ (Admin w = [] →
            ∀ pos t, Threads (Q w) !! pos = Some t → t = NotJoinable)
       ∧ (Destroying (Q w) = true →
          ∀ pos ThreadId st invoker rest,
            Threads (Q w) !! pos = Some (Joinable ThreadId st) →
            st = Ready ∨ st = Notified → Locked (Q w) = false →
            ThreadId < NumberOfThreads (Q w) →
            InvokerQueue (Q w) = invoker :: rest →
            ∃ w', step (LWorker pos) w = Some w'
              ∧ Invoked w' = Invoked w ++ [invoker] ∧ InvokerQueue (Q w') = rest)
       ∧ (Admin w = [] → Serving (Q w0) →
            InvokerQueue (Q w) = []
            ∧ Invoked w = Invoked w0 ++ InvokerQueue (Q w0))).
Proof.
  intros HR Hj. split; [apply Destructor_body_spec|]. split.
  { intros pos ThreadId HJ ls w Hls Hsteps.
    destruct (Joins_ahead_steps _ _ _ _ _ HJ Hls Hsteps)
      as (_ & _ & (pre & rest & E & _) & _).
    apply Destructor_body_spec. rewrite E. by destruct pre. }
  intros HL w1 Hrel ls w Hls Hsteps.
  apply Destructor_body_spec in Hrel as [HA0 ->].
  set (w1 := mkWorld (Q w0) (Destructor_actions (Q w0)) (Invoked w0)) in *.
  assert (halting_store (AStoreDestroying true)) as Hs by (by right).
  pose proof (Destructor_Shutdown w1 HR HL Hj eq_refl) as HS0.
  pose proof (Shutdown_steps _ _ _ _ _ HS0 (internal_no_call _ Hls) Hsteps) as HS.
  assert (forallb quiet (Admin w1) = true) as Hq0 by apply quiet_Destructor.
  assert (Admin w = [] → ∀ pos t, Threads (Q w) !! pos = Some t → t = NotJoinable)
    as Hdone.
  { intros HAw pos t Hpos.
    apply (proj2 (Shutdown_done _ _ _ HS HAw) pos t); [lia|done]. }
  split.
  { intros HAw. destruct (Shutdown_progress _ _ _ _ HS) as [?|(E & _)]; done. }
  split.
  { intros HD ls' w' Hls' Hsteps'.
    assert (halted (Q w) = true) as Hh by (unfold halted; by rewrite HD, orb_true_r).
    pose proof (Shutdown_bounded _ _ _ _ _ Hs HS Hh Hls' Hsteps'). lia. }
  split; [exact Hdone|].
  split.
  { intros HD pos ThreadId st invoker rest Hpos Hst HLw Hid HQ.
    assert (Running (Q w) = true) as HRw
      by (rewrite <- HR; by eapply (quiet_steps ls w1 w)).
    destruct (pops_while_destroying w pos ThreadId st invoker rest)
      as (w' & ? & ? & ? & _); eauto. }
  intros HAw HServ.
  assert (Draining w) as (_ & _ & HD).
  { eapply Draining_steps; [|exact Hls|exact Hsteps]. repeat split; auto. }
  assert (InvokerQueue (Q w) = []) as HE.
  { destruct HD as [(pos & ThreadId & st & Hpos & _)|]; [|done].
    pose proof (Hdone HAw _ _ Hpos). done. }
  split; [done|].
  destruct (steps_fifo _ _ _ Hsteps) as (pushed & E & Hp).
  rewrite (Hp Hls), HE, !app_nil_r in E. done.
Qed.

End Destruction.

(** What follows from C1 for the shrinking call and for the destructor.
    A pool is started with one thread, grown to two and shrunk to one
    again: the thread to join was given the id 0 and is still in service,
    so the shrinking call never returns, and a destructor that is called
    then never gets past the release of the controller. *)
Lemma destructor_waits_for_shrink :
  let ls := [LCall (CallTask TaskStart); LAdmin; LAdmin;
             LCall (CallTask (TaskSetNumberOfThreads 2)); LAdmin; LAdmin;
             LCall (CallTask (TaskSetNumberOfThreads 1))] in
  let w : World nat :=
    mkWorld {| InvokerQueue := []; Locked := false; Empty := true;
               Destroying := false; Running := true; NumberOfThreads := 2;
               Threads := [Joinable 0 Ready; Joinable 0 Ready] |}
            [ALock; AStoreNumberOfThreads 1; AUnlock; ANotifyAll; AJoin 1;
             AResize 1] [] in
  steps ls (mkWorld initial [] []) = Some w
  ∧ ∀ ls' w', existsb is_call ls' = false → steps ls' w = Some w' →
      Admin w' ≠ [] ∧ step (LCall CallDestructor) w' = None.
Proof.
  intros ls w. split; [reflexivity|].
  intros ls' w' Hls Hs.
  assert (Joins_ahead 1 0 w) as HJ.
  { split; [done|]. split; [done|]. split.
    - by exists [ALock; AStoreNumberOfThreads 1; AUnlock; ANotifyAll], [AResize 1].
    - exists Ready. repeat split; (reflexivity || discriminate). }
  destruct (Joins_ahead_steps _ _ _ _ _ HJ Hls Hs)
    as (_ & _ & (pre & rest & E & _) & _).
  assert (Admin w' ≠ []) as HA by (rewrite E; by destruct pre).
  split; [done|]. by apply Destructor_body_spec.
Qed.

(** What follows from C1 for [SetNumberOfThreads(0)].  A pool is started
    with one thread, shrunk to none and grown to one again: the new
    thread is given the id -1.  [SetNumberOfThreads(0)] then stores 0 and
    waits for that thread, which is in service still: the call never
    returns, and the invoker 7 that is submitted meanwhile is popped and
    run, with [NumberOfThreads] at 0. *)
Lemma resize_to_zero_never_returns :
  let ls := [LCall (CallTask TaskStart); LAdmin; LAdmin;
             LCall (CallTask (TaskSetNumberOfThreads 0));
             LAdmin; LAdmin; LAdmin; LAdmin; LWorker 0; LAdmin; LAdmin;
             LCall (CallTask (TaskSetNumberOfThreads 1)); LAdmin; LAdmin;
             LCall (CallTask (TaskSetNumberOfThreads 0));
             LAdmin; LAdmin; LAdmin; LAdmin] in
  let w : World nat :=
    mkWorld {| InvokerQueue := []; Locked := false; Empty := true;
               Destroying := false; Running := true; NumberOfThreads := 0;
               Threads := [Joinable (-1) Ready] |}
            [AJoin 0; AResize 0] [] in
  steps ls (mkWorld initial [] []) = Some w
  ∧ (∀ ls' w', existsb is_call ls' = false → steps ls' w = Some w' →
       Admin w' = [AJoin 0; AResize 0])
  ∧ steps [LPush 7%nat 0%nat; LWorker 0] w
    = Some (mkWorld {| InvokerQueue := []; Locked := false; Empty := true;
                       Destroying := false; Running := true; NumberOfThreads := 0;
                       Threads := [Joinable (-1) (Invoking 7%nat)] |}
                    [AJoin 0; AResize 0] [7%nat]).
Proof.
  split; [reflexivity|]. split; [|reflexivity].
  intros ls' w' Hc Hs.
  eapply (Joins_in_service_steps 0) in Hs; [exact Hs| |exact Hc].
  split; [by eexists|]. split; [done|]. split; [done|].
  exists (-1), Ready. repeat split; (reflexivity || discriminate).
Qed.

(** * The theorems above at concrete queues *)

Lemma SetNumberOfThreads_shrinks_witness :
  let ls : list (Label nat) :=
    [LCall (CallTask TaskStart); LAdmin; LAdmin;
     LCall (CallTask (TaskSetNumberOfThreads 2)); LAdmin; LAdmin;
     LCall (CallTask (TaskSetNumberOfThreads 1))] in
  let q : vtkThreadedCallbackQueue nat :=
    {| InvokerQueue := []; Locked := false; Empty := true; Destroying := false;
       Running := true; NumberOfThreads := 2;
       Threads := [Joinable 0 Ready; Joinable 0 Ready] |} in
  let w0 := mkWorld q (SetNumberOfThreads_body 1 q) [] in
  (steps ls (mkWorld initial [] []) = Some w0
   ∧ Running q = true ∧ 0 <= 1 < Threads_size q ∧ Threads_size q < 2 ^ 31)
  ∧ ∀ ls' w, existsb is_call ls' = false → steps ls' w0 = Some w →
      AJoin (Z.to_nat 1) ∈ Admin w ∧ AResize 1 ∈ Admin w
      ∧ ∃ st', Threads (Q w) !! Z.to_nat 1 = Some (Joinable 0 st')
          ∧ st' ≠ Returned.
Proof.
  intros ls q w0.
  assert (0 <= 1 < Threads_size q) as Hn by (split; [lia|reflexivity]).
  split; [repeat split; (reflexivity || lia)|].
  assert (@Ready nat ≠ Returned) as Hst by discriminate.
  assert (0 < 1) as Hid by lia.
  assert (0 < NumberOfThreads q) as HN by reflexivity.
  apply (proj2 (proj2 (proj2 (proj2 (proj2
           (SetNumberOfThreads_shrinks 1 q eq_refl Hn eq_refl)))))
           eq_refl 0 Ready eq_refl Hst Hid HN w0 eq_refl eq_refl).
Defined.

Lemma SetNumberOfThreads_frame_witness :
  let ls : list (Label nat) :=
    [LCall (CallTask TaskStart); LAdmin; LAdmin;
     LCall (CallTask (TaskSetNumberOfThreads 0));
     LAdmin; LAdmin; LAdmin; LAdmin; LWorker 0; LAdmin; LAdmin;
     LCall (CallTask (TaskSetNumberOfThreads 1)); LAdmin; LAdmin;
     LCall (CallTask (TaskSetNumberOfThreads 0))] in
  let q : vtkThreadedCallbackQueue nat :=
    {| InvokerQueue := []; Locked := false; Empty := true; Destroying := false;
       Running := true; NumberOfThreads := 1;
       Threads := [Joinable (-1) Ready] |} in
  let w0 := mkWorld q (SetNumberOfThreads_body 0 q) [] in
  (steps ls (mkWorld initial [] []) = Some w0 ∧ 0 <= 0
   ∧ Running q = true ∧ 0 < Threads_size q < 2 ^ 31)
  ∧ ∀ ls' w, existsb is_call ls' = false → steps ls' w0 = Some w →
      AJoin 0 ∈ Admin w
      ∧ ∃ st', Threads (Q w) !! 0%nat = Some (Joinable (-1) st')
          ∧ st' ≠ Returned
          ∧ ∀ invoker rest, InvokerQueue (Q w) = invoker :: rest →
              st' = Ready ∨ st' = Notified → Locked (Q w) = false →
              ∃ w', step (LWorker 0) w = Some w'
                ∧ Invoked w' = Invoked w ++ [invoker].
Proof.
  intros ls q w0.
  assert (0 <= 0) as H0 by lia.
  assert (0 < Threads_size q < 2 ^ 31) as Hs by (split; reflexivity).
  split; [repeat split; (reflexivity || lia)|].
  assert (@Ready nat ≠ Returned) as Hst by discriminate.
  assert (-1 < 0) as Hid by lia.
  assert (-1 < NumberOfThreads q) as HN by reflexivity.
  apply (proj2 (proj2 (proj2
           (proj1 (proj2 (SetNumberOfThreads_frame 0 q H0)) eq_refl Hs)))
           eq_refl (-1) Ready eq_refl Hst Hid HN w0 eq_refl eq_refl).
Defined.

Lemma destructor_joins_and_drains_witness :
  let w0 : World nat := mkWorld two_pending [] [] in
  let w1 := mkWorld two_pending (Destructor_actions two_pending) [] in
  let ls : list (Label nat) :=
    [LAdmin; LAdmin; LAdmin; LAdmin; LWorker 0; LWorker 0; LWorker 0; LWorker 0;
     LWorker 0; LAdmin] in
  let w := mkWorld {| InvokerQueue := []; Locked := false; Empty := true;
                      Destroying := true; Running := true; NumberOfThreads := 1;
                      Threads := [NotJoinable] |} [] [7%nat; 8%nat] in
  (Running (Q w0) = true
   ∧ (∀ pos t, Threads (Q w0) !! pos = Some t → joinable t = true)
   ∧ Locked (Q w0) = false ∧ Destructor_body w0 = Some w1
   ∧ forallb internal ls = true ∧ steps ls w1 = Some w)
  ∧ (Admin w = [] → ∀ pos t, Threads (Q w) !! pos = Some t → t = NotJoinable).
Proof.
  intros w0 w1 ls w.
  assert (∀ pos t, Threads (Q w0) !! pos = Some t → joinable t = true) as Hj.
  { intros [|[|pos]] t; simpl; intros [= <-]; reflexivity. }
  split; [repeat split; try reflexivity; exact Hj|].
  apply (proj2 (proj2 (destructor_joins_and_drains w0 eq_refl Hj))
           eq_refl w1 eq_refl ls w eq_refl eq_refl).
Defined.

Lemma Stop_keeps_queue_witness :
  let w0 := mkWorld two_pending (Stop_body two_pending) [] in
  let ls : list (Label nat) := [LAdmin; LAdmin; LAdmin; LAdmin; LWorker 0; LAdmin] in
  let w := mkWorld {| InvokerQueue := [7%nat; 8%nat]; Locked := false;
                      Empty := false; Destroying := false; Running := false;
                      NumberOfThreads := 1; Threads := [NotJoinable] |} [] [] in
  (Running (Q w0) = true ∧ Locked (Q w0) = false
   ∧ (∀ pos t, Threads (Q w0) !! pos = Some t → joinable t = true)
   ∧ Admin w0 = Stop_body (Q w0)
   ∧ existsb is_call ls = false ∧ steps ls w0 = Some w ∧ Admin w = []
   ∧ Threads (Q w0) ≠ [] ∧ NumberOfThreads (Q w0) = Threads_size (Q w0))
  ∧ ∃ w1, step (LCall (CallTask TaskStart)) w = Some w1
      ∧ ∀ ls' w', forallb internal ls' = true → steps ls' w1 = Some w' →
          (InvokerQueue (Q w') ≠ [] →
             (Admin w' ≠ [] ∧ ∃ w'', step LAdmin w' = Some w'')
             ∨ (Admin w' = [] ∧ ∃ pos w'', step (LWorker pos) w' = Some w''))
          ∧ ((measure w1 <= length ls')%nat → InvokerQueue (Q w') = [])
          ∧ (InvokerQueue (Q w') = [] →
               Invoked w' = Invoked w ++ InvokerQueue (Q w)).
Proof.
  intros w0 ls w.
  assert (∀ pos t, Threads (Q w0) !! pos = Some t → joinable t = true) as Hj.
  { intros [|[|pos]] t; simpl; intros [= <-]; reflexivity. }
  assert (Threads (Q w0) ≠ []) as Hne by discriminate.
  split; [repeat split; try reflexivity; done|].
  apply (proj2 (proj2 (proj2 (proj2 (proj2 (proj2 (proj2 (proj2
           (Stop_keeps_queue w0 eq_refl eq_refl Hj eq_refl)) ls w eq_refl eq_refl))
           eq_refl))) Hne eq_refl)).
Defined.
